(** * The JavaScript loader of the bundler: dependency extraction and rewriting

    A shallow embedding of the loader callback (the file that imports
    [babylon], [babel-traverse] and [babel-generator] and exports
    [createLoader(function(config, file) { ... })]) together with the part of
    the syntax-tree walker it relies on.

    - Syntax trees are an inductive type; every expression node carries the
      [value] property that the loader reads and assigns ([undefined] where
      the parser sets none).
    - In-place mutation of the tree is modelled by returning the rewritten
      node; a parsed tree has no sharing, so nothing is lost.
    - The local arrays [imports] and [chunks] and the compilation context
      [this] are threaded through a state-and-exception monad.
    - The parser, the generator and the methods of [this] are collaborators
      outside the loader; they are the fields of a record [Host].
    - Of the walker the embedding keeps what the loader depends on: the
      depth-first order in which nodes are entered and their children
      visited, the names bound in the scope of a path, the validation that
      [replaceWith] makes and the visit of the node that it has put in the
      tree.  The walker descends into the node that the
      visitor has just mutated, so the two passes recurse on a budget
      ([fuel]) and not on the tree; the budget that [traverse] takes is the
      depth of the tree and is never exhausted.

    The last part of the file embeds, from the command line of the bundler,
    the loop that writes the bundles and the handler that ends the
    process. *)

From stdpp Require Import base strings list gmap pretty.

Set Default Proof Using "Type".
Set Warnings "-register-all".
Open Scope string_scope.
Open Scope list_scope.
Open Scope nat_scope.

(** ** JavaScript values that reach the [value] property of a node *)

Inductive jsval : Type :=
| VUndefined
| VString (s : string)
| VNumber (z : Z)
| VBoolean (b : bool).

(** The [id] of an import request: a number or a string. *)
Inductive ident : Type :=
| IdNumber (z : Z)
| IdString (s : string).

(** [id.toString()] *)
Definition toString (i : ident) : string :=
  match i with
  | IdNumber z => pretty z
  | IdString s => s
  end.

(** ** Syntax trees

    The part of the parser's tree that the loader looks at.  A variable
    declaration stands for its declarator ([id], [init]), the body of a
    function expression for the statements of its block, and a specifier of
    an import declaration for its [local] identifier. *)

Inductive expr : Type :=
| Identifier (name : string) (value : jsval)
| StringLiteral (value : jsval)
| NumericLiteral (value : jsval)
| BooleanLiteral (value : jsval)
| MemberExpression (object property : expr) (computed : bool) (value : jsval)
| CallExpression (callee : expr) (arguments : list expr) (value : jsval)
| ArrayExpression (elements : list (option expr)) (value : jsval)
| FunctionExpression (id : option expr) (params : list expr)
                     (body : list stmt) (value : jsval)
with stmt : Type :=
| ExpressionStatement (expression : expr)
| VariableDeclaration (id : expr) (init : option expr)
| ReturnStatement (argument : option expr)
| ImportDeclaration (specifiers : list expr) (source : expr).

(** [node.type] *)
Definition type (node : expr) : string :=
  match node with
  | Identifier _ _ => "Identifier"
  | StringLiteral _ => "StringLiteral"
  | NumericLiteral _ => "NumericLiteral"
  | BooleanLiteral _ => "BooleanLiteral"
  | MemberExpression _ _ _ _ => "MemberExpression"
  | CallExpression _ _ _ => "CallExpression"
  | ArrayExpression _ _ => "ArrayExpression"
  | FunctionExpression _ _ _ _ => "FunctionExpression"
  end.

(** [node.value] *)
Definition get_value (node : expr) : jsval :=
  match node with
  | Identifier _ v | StringLiteral v | NumericLiteral v | BooleanLiteral v
  | MemberExpression _ _ _ v | CallExpression _ _ v | ArrayExpression _ v
  | FunctionExpression _ _ _ v => v
  end.

(** [node.value = v] *)
Definition set_value (node : expr) (v : jsval) : expr :=
  match node with
  | Identifier name _ => Identifier name v
  | StringLiteral _ => StringLiteral v
  | NumericLiteral _ => NumericLiteral v
  | BooleanLiteral _ => BooleanLiteral v
  | MemberExpression object property computed _ =>
      MemberExpression object property computed v
  | CallExpression callee arguments _ => CallExpression callee arguments v
  | ArrayExpression elements _ => ArrayExpression elements v
  | FunctionExpression id params body _ => FunctionExpression id params body v
  end.

(** [node.name]: only identifiers have one, [None] stands for [undefined]. *)
Definition get_name (node : expr) : option string :=
  match node with
  | Identifier name _ => Some name
  | _ => None
  end.

(** Nesting depth of a tree, the measure that bounds the walker's descent. *)
Fixpoint expr_depth (e : expr) : nat :=
  match e with
  | Identifier _ _ | StringLiteral _ | NumericLiteral _ | BooleanLiteral _ => 1
  | MemberExpression object property _ _ =>
      S (expr_depth object `max` expr_depth property)
  | CallExpression callee arguments _ =>
      S (expr_depth callee `max` max_list (expr_depth <$> arguments))
  | ArrayExpression elements _ =>
      S (max_list (from_option expr_depth 0 <$> elements))
  | FunctionExpression id params body _ =>
      S (from_option expr_depth 0 id `max`
         (max_list (expr_depth <$> params) `max` max_list (stmt_depth <$> body)))
  end
with stmt_depth (s : stmt) : nat :=
  match s with
  | ExpressionStatement expression => S (expr_depth expression)
  | VariableDeclaration id init =>
      S (expr_depth id `max` from_option expr_depth 0 init)
  | ReturnStatement argument => S (from_option expr_depth 0 argument)
  | ImportDeclaration specifiers source =>
      S (max_list (expr_depth <$> specifiers) `max` expr_depth source)
  end.

Definition program_depth (body : list stmt) : nat :=
  S (max_list (stmt_depth <$> body)).

(** ** Results of the loader *)

Module FileImport.
Record t : Type := make { id : ident; request : jsval; from : string }.
End FileImport.

Module FileChunk.
Record t : Type :=
  make { name : jsval; entry : list FileImport.t; imports : list FileImport.t }.
End FileChunk.

(** The chunk after [requests] were pushed on [chunk.entry]. *)
Definition add_entries (chunk : FileChunk.t) (requests : list FileImport.t)
    : FileChunk.t :=
  FileChunk.make (FileChunk.name chunk) (FileChunk.entry chunk ++ requests)
    (FileChunk.imports chunk).

(** The chunk after [requests] were pushed on [chunk.imports]. *)
Definition add_imports (chunk : FileChunk.t) (requests : list FileImport.t)
    : FileChunk.t :=
  FileChunk.make (FileChunk.name chunk) (FileChunk.entry chunk)
    (FileChunk.imports chunk ++ requests).

Record File : Type := { filePath : string; contents : string }.

(** ** Failures *)

Inductive exn : Type :=
| FileIssue (contents : string) (line column : Z) (message severity : string)
| MessageIssue (message severity : string)
| TypeError (message : string)
| RangeError (message : string)
| HostError (message : string).

(** A computation of the loader returns, throws, or exhausts the descent
    budget of the walker; [Timeout] is an artefact of the embedding and never
    comes out of a whole pass (see [traverse_total]).  A call to a
    collaborator returns or throws: its answer is a sum. *)
Inductive result (A : Type) : Type :=
| Ok (a : A)
| Throw (e : exn)
| Timeout.
Arguments Ok {A} a.
Arguments Throw {A} e.
Arguments Timeout {A}.

Definition of_sum {A} (answer : A + exn) : result A :=
  match answer with
  | inl a => Ok a
  | inr e => Throw e
  end.

(** ** The state-and-exception monad *)

Definition M (S A : Type) : Type := S → result (A * S).

Definition ret {S A} (a : A) : M S A := λ s, Ok (a, s).
Definition throw {S A} (e : exn) : M S A := λ _, Throw e.
Definition timeout {S A} : M S A := λ _, Timeout.
Definition bind {S A B} (m : M S A) (k : A → M S B) : M S B :=
  λ s, match m s with
       | Ok (a, s') => k a s'
       | Throw e => Throw e
       | Timeout => Timeout
       end.

Notation "'let*' x := m 'in' k" := (bind m (λ x, k))
  (at level 10, x name, m at level 100, k at level 200, only parsing).

(** [l.forEach] and the walker's visit of a child list, left to right. *)
Fixpoint mapM {S A B} (f : A → M S B) (l : list A) : M S (list B) :=
  match l with
  | [] => ret []
  | x :: l' => let* y := f x in let* l'' := mapM f l' in ret (y :: l'')
  end.

(** An optional child ([null] in the tree) is skipped by the walker. *)
Definition optM {S A} (f : A → M S A) (o : option A) : M S (option A) :=
  match o with
  | None => ret None
  | Some x => let* y := f x in ret (Some y)
  end.

(** ** Collaborators *)

Inductive literal : Type :=
| LString (s : string)
| LNumber (z : Z)
| LBoolean (b : bool).

Definition literal_node (l : literal) : expr :=
  match l with
  | LString s => StringLiteral (VString s)
  | LNumber z => NumericLiteral (VNumber z)
  | LBoolean b => BooleanLiteral (VBoolean b)
  end.

(** What the helper [getParsedReplacement] builds: a literal, or an
    identifier of a given name. *)
Inductive replacement : Type :=
| Literal (l : literal)
| Named (name : string).

Definition replacement_node (r : replacement) : expr :=
  match r with
  | Literal l => literal_node l
  | Named name => Identifier name VUndefined
  end.

Record SourceLocation : Type := { line : Z; column : Z }.

(** The error thrown by the parser: [error.message] and [error.loc]. *)
Record ParseError : Type := { message : string; loc : option SourceLocation }.

Inductive parsed : Type :=
| Parsed (program : list stmt)
| ParseFailure (error : ParseError).

(** What the loader calls but does not define: the methods and the
    configuration of the compilation context [this], the functions imported
    from the API package, the parser and the generator.  [Compilation] is the
    mutable state behind [this] (its counter of identifiers, for instance). *)
Record Host : Type := {
  Compilation : Type;
  Config : Type;
  SourceMap : Type;
  (* this.getImportRequest(request, from) *)
  getImportRequest :
    jsval → string → Compilation → FileImport.t * Compilation + exn;
  (* this.getNextUniqueID() *)
  getNextUniqueID : Compilation → ident * Compilation;
  (* this.config.rootDirectory, this.config.replaceVariables *)
  rootDirectory : string;
  replaceVariables : gmap string string;
  (* shouldProcess(rootDirectory, filePath, config) *)
  shouldProcess : string → string → Config → bool;
  (* getRelativeFilePath(filePath, rootDirectory) *)
  getRelativeFilePath : string → string → string;
  (* parse(contents, { sourceFilename, ... }) *)
  parse : string → string → parsed;
  (* generate(ast, { filename, ... }): code and map *)
  generate : list stmt → string → string * SourceMap;
  (* getParsedReplacement(source): the node built for the source (a
     literal, or an identifier of that name), or a failure *)
  getParsedReplacement : string → replacement + exn;
}.

(** ** Helpers *)

(** Modelled from the spec: the helper [getName] of the loader's helpers
    module.  It flattens a member-expression chain into a dotted name
    ([a.b.c] gives ["a.b.c"]); an identifier's name is the identifier. *)
Fixpoint getName (obj : expr) : string :=
  match obj with
  | Identifier name _ => name
  | MemberExpression object property _ _ =>
      getName object +:+ "." +:+ getName property
  | _ => ""
  end.

Definition RESOLVE_NAMES : gset string :=
  {[ "require"; "require.ensure"; "require.resolve";
     "module.hot.accept"; "module.hot.decline" ]}.
Definition RESOLVE_NAMES_CHUNK : gset string :=
  {[ "require.ensure" ]}.
Definition RESOLVE_NAMES_SENSITIVE : gset string :=
  {[ "require"; "require.resolve" ]}.

(** [set.has(name)] *)
Definition has (set : gset string) (name : string) : bool :=
  bool_decide (name ∈ set).

(** ** Lexical scopes of the walker

    A scope is the list of the names bound in it and in the scopes around it.
    A function binds its own name, its parameters and the declarations of its
    body; the program binds its declarations and the local names of its
    imports. *)

Definition binding_names (pattern : expr) : list string :=
  match get_name pattern with
  | Some x => [x]
  | None => []
  end.

Definition declared (s : stmt) : list string :=
  match s with
  | VariableDeclaration id _ => binding_names id
  | ImportDeclaration specifiers _ => specifiers ≫= binding_names
  | _ => []
  end.

Definition function_bindings (id : option expr) (params : list expr)
    (body : list stmt) : list string :=
  from_option binding_names [] id ++ (params ≫= binding_names)
    ++ (body ≫= declared).

(** [scope.hasBinding(name)] *)
Definition hasBinding (scope : list string) (name : string) : bool :=
  bool_decide (name ∈ scope).

(** ** Replacement of a node by the walker

    [path.replaceWith(replacement)] validates the replacement against the
    field of the parent that holds the node, and throws a [TypeError] when
    the field does not admit it.  A node that is an item of a list is not
    validated. *)

Inductive slot : Type :=
| InList
| InField (parent key : string) (admitted : list string).

(** Whether a node is of a type or of an alias of types. *)
Definition is_type (alias : string) (node : expr) : bool :=
  if bool_decide (alias = "Expression") then true
  else if bool_decide (alias = "LVal")
  then bool_decide (type node = "Identifier")
       || bool_decide (type node = "MemberExpression")
  else bool_decide (type node = alias).

Definition admits (where_ : slot) (node : expr) : bool :=
  match where_ with
  | InList => true
  | InField _ _ admitted => existsb (λ alias, is_type alias node) admitted
  end.

Definition dquote : string :=
  String (Ascii.Ascii false true false false false true false false) "".

Definition json_string (s : string) : string := dquote +:+ s +:+ dquote.

Definition validation_message (parent key : string) (admitted : list string)
    (node : expr) : string :=
  "Property " +:+ key +:+ " of " +:+ parent +:+
  " expected node to be of a type [" +:+
  String.concat "," (json_string <$> admitted) +:+
  "] but instead got " +:+ json_string (type node).

(** The fields of the nodes and what their validators admit. *)
Definition MemberExpression_object : slot :=
  InField "MemberExpression" "object" ["Expression"].
Definition MemberExpression_property (computed : bool) : slot :=
  InField "MemberExpression" "property"
    [if computed then "Expression" else "Identifier"].
Definition CallExpression_callee : slot :=
  InField "CallExpression" "callee" ["Expression"].
Definition FunctionExpression_id : slot :=
  InField "FunctionExpression" "id" ["Identifier"].
Definition ExpressionStatement_expression : slot :=
  InField "ExpressionStatement" "expression" ["Expression"].
Definition VariableDeclarator_id : slot :=
  InField "VariableDeclarator" "id" ["LVal"].
Definition VariableDeclarator_init : slot :=
  InField "VariableDeclarator" "init" ["Expression"].
Definition ReturnStatement_argument : slot :=
  InField "ReturnStatement" "argument" ["Expression"].
Definition ImportDefaultSpecifier_local : slot :=
  InField "ImportDefaultSpecifier" "local" ["Identifier"].
Definition ImportDeclaration_source : slot :=
  InField "ImportDeclaration" "source" ["StringLiteral"].

(** ** The loader *)

Record LoaderResult (H : Host) : Type := {
  result_chunks : list FileChunk.t;
  result_imports : list FileImport.t;
  result_contents : string;
  result_sourceMap : SourceMap H;
}.
Arguments result_chunks {H}.
Arguments result_imports {H}.
Arguments result_contents {H}.
Arguments result_sourceMap {H}.

Section Loader.
Variable H : Host.

(** The arrays [chunks] and [imports] of one run and the context [this]. *)
Record state : Type := {
  chunks : list FileChunk.t;
  imports : list FileImport.t;
  this : Compilation H;
}.

(** The state after a method of [this] has moved the context to [c]. *)
Definition set_this (s : state) (c : Compilation H) : state :=
  {| chunks := chunks s; imports := imports s; this := c |}.

(** [this.getImportRequest(raw, from)] *)
Definition callImportRequest (raw : jsval) (from : string)
    : M state FileImport.t :=
  λ s, match getImportRequest H raw from (this s) with
       | inl (request, c) => Ok (request, set_this s c)
       | inr e => Throw e
       end.

(** [this.getNextUniqueID()] *)
Definition callNextUniqueID : M state ident :=
  λ s, let '(uid, c) := getNextUniqueID H (this s) in Ok (uid, set_this s c).

(** [imports.push(request)] *)
Definition push_import (request : FileImport.t) : M state unit :=
  λ s, Ok (tt, {| chunks := chunks s; imports := imports s ++ [request];
                  this := this s |}).

(** [chunks.push(chunk)] *)
Definition push_chunk (chunk : FileChunk.t) : M state unit :=
  λ s, Ok (tt, {| chunks := chunks s ++ [chunk]; imports := imports s;
                  this := this s |}).

(** A step of the outer state run while the object [chunk] is in hand. *)
Definition lift {A} (m : M state A) : M (FileChunk.t * state) A :=
  λ cs, match m cs.2 with
        | Ok (a, s) => Ok (a, (cs.1, s))
        | Throw e => Throw e
        | Timeout => Timeout
        end.

(** [chunk.entry.push(request)] *)
Definition push_entry (request : FileImport.t) : M (FileChunk.t * state) unit :=
  λ cs, Ok (tt, (add_entries cs.1 [request], cs.2)).

(** [chunk.imports.push(request)] *)
Definition push_nested (request : FileImport.t) : M (FileChunk.t * state) unit :=
  λ cs, Ok (tt, (add_imports cs.1 [request], cs.2)).

Section File.
Variable file : File.

(** [processResolve(node)] *)
Definition processResolve (node : expr) : M state expr :=
  let* request := callImportRequest (get_value node) (filePath file) in
  let* _ := push_import request in
  ret (set_value node (VString (toString (FileImport.id request)))).

(** The callback of [elements.forEach] in [processSplit]; reading
    [element.value] of a hole ([null]) is a [TypeError]. *)
Definition split_element (element : option expr)
    : M (FileChunk.t * state) (option expr) :=
  match element with
  | None => throw (TypeError "Cannot read property 'value' of null")
  | Some element =>
      let* request :=
        lift (callImportRequest (get_value element) (filePath file)) in
      let* _ := push_entry request in
      ret (Some (set_value element
                   (VString (toString (FileImport.id request)))))
  end.

(** The [CallExpression] visitor of the nested pass of [processSplit];
    [alias] is [path.node.arguments[1].params[0].name]. *)
Definition split_CallExpression (alias : option string) (node : expr)
    : M (FileChunk.t * state) expr :=
  match node with
  | CallExpression callee arguments v =>
      if bool_decide (get_name callee = alias) then
        match arguments !! 0%nat with
        | None =>
            throw (TypeError "Cannot read property 'value' of undefined")
        | Some argument =>
            let* request :=
              lift (callImportRequest (get_value argument) (filePath file)) in
            let* _ := push_nested request in
            ret (CallExpression callee
                   (<[0%nat := set_value argument
                        (VString (toString (FileImport.id request)))]>
                      arguments) v)
        end
      else ret node
  | _ => ret node
  end.

(** The nested pass [path.scope.traverse(callback, { CallExpression })]:
    depth first, the visitor on entry, then the children in the order of
    the walker's visitor keys. *)
Fixpoint split_traverse (fuel : nat) (alias : option string) (node : expr)
    : M (FileChunk.t * state) expr :=
  match fuel with
  | 0 => timeout
  | S fuel =>
      match node with
      | Identifier _ _ | StringLiteral _ | NumericLiteral _
      | BooleanLiteral _ => ret node
      | MemberExpression object property computed v =>
          let* object := split_traverse fuel alias object in
          let* property := split_traverse fuel alias property in
          ret (MemberExpression object property computed v)
      | CallExpression _ _ _ =>
          let* node := split_CallExpression alias node in
          match node with
          | CallExpression callee arguments v =>
              let* callee := split_traverse fuel alias callee in
              let* arguments := mapM (split_traverse fuel alias) arguments in
              ret (CallExpression callee arguments v)
          | _ => ret node
          end
      | ArrayExpression elements v =>
          let* elements := mapM (optM (split_traverse fuel alias)) elements in
          ret (ArrayExpression elements v)
      | FunctionExpression id params body v =>
          let* id := optM (split_traverse fuel alias) id in
          let* params := mapM (split_traverse fuel alias) params in
          let* body := mapM (split_traverse_stmt fuel alias) body in
          ret (FunctionExpression id params body v)
      end
  end
with split_traverse_stmt (fuel : nat) (alias : option string) (node : stmt)
    : M (FileChunk.t * state) stmt :=
  match fuel with
  | 0 => timeout
  | S fuel =>
      match node with
      | ExpressionStatement expression =>
          let* expression := split_traverse fuel alias expression in
          ret (ExpressionStatement expression)
      | VariableDeclaration id init =>
          let* id := split_traverse fuel alias id in
          let* init := optM (split_traverse fuel alias) init in
          ret (VariableDeclaration id init)
      | ReturnStatement argument =>
          let* argument := optM (split_traverse fuel alias) argument in
          ret (ReturnStatement argument)
      | ImportDeclaration specifiers source =>
          let* specifiers := mapM (split_traverse fuel alias) specifiers in
          let* source := split_traverse fuel alias source in
          ret (ImportDeclaration specifiers source)
      end
  end.

(** Runs a block that mutates the local object [chunk]. *)
Definition with_chunk {A} (chunk : FileChunk.t)
    (m : M (FileChunk.t * state) A) : M state (A * FileChunk.t) :=
  λ s, match m (chunk, s) with
       | Ok (a, (chunk', s')) => Ok ((a, chunk'), s')
       | Throw e => Throw e
       | Timeout => Timeout
       end.

(** The name of the chunk, the first statement of [processSplit]:
    [arguments[2].value] when the third argument is a string literal, the
    string of a fresh identifier otherwise. *)
Definition split_name (arguments : list expr) : M state jsval :=
  match arguments !! 2%nat with
  | Some third =>
      if bool_decide (type third = "StringLiteral")
      then ret (get_value third)
      else let* uid := callNextUniqueID in ret (VString (toString uid))
  | None => let* uid := callNextUniqueID in ret (VString (toString uid))
  end.

(** [path.node.arguments[0].elements.forEach(...)] *)
Definition split_entries (arguments : list expr)
    : M (FileChunk.t * state) (list expr) :=
  match arguments !! 0%nat with
  | Some (ArrayExpression elements v0) =>
      let* elements := mapM split_element elements in
      ret (<[0%nat := ArrayExpression elements v0]> arguments)
  | _ => throw (TypeError "Cannot read property 'forEach' of undefined")
  end.

(** The [if] block of [processSplit]: the nested pass over the callback
    when the second argument is a function expression with a parameter.
    The walker visits the children of the callback; no visitor of the
    nested pass matches the callback itself. *)
Definition split_callback (fuel : nat) (arguments : list expr)
    : M (FileChunk.t * state) (list expr) :=
  match arguments !! 1%nat with
  | Some (FunctionExpression _ (param :: _) _ _ as callback) =>
      let* callback := split_traverse fuel (get_name param) callback in
      ret (<[1%nat := callback]> arguments)
  | _ => ret arguments
  end.

(** [processSplit(path)], on the node of the path.  [fuel] bounds the
    descent of the nested pass. *)
Definition processSplit (fuel : nat) (node : expr) : M state expr :=
  match node with
  | CallExpression callee arguments v =>
      let* chunkName := split_name arguments in
      let* r :=
        with_chunk (FileChunk.make chunkName [] [])
          (let* arguments := split_entries arguments in
           split_callback fuel arguments) in
      let* _ := push_chunk r.2 in
      ret (CallExpression callee r.1 v)
  | _ => throw (TypeError "Cannot read property '2' of undefined")
  end.

(** [path.replaceWith(replacement)] for a path in the slot [where_]. *)
Definition replaceWith (where_ : slot) (replacement : expr)
    : M state (option expr) :=
  match where_ with
  | InList => ret (Some replacement)
  | InField parent key admitted =>
      if admits where_ replacement then ret (Some replacement)
      else throw (TypeError (validation_message parent key admitted replacement))
  end.

(** [processReplaceable(path)] for a path in the slot [where_]: [Some]
    replacement when the path is replaced, [None] when the node stays. *)
Definition processReplaceable (where_ : slot) (node : expr)
    : M state (option expr) :=
  let name := getName node in
  match replaceVariables H !! name with
  | Some source =>
      λ s, match getParsedReplacement H source with
           | inl r => replaceWith where_ (replacement_node r) s
           | inr e => Throw e
           end
  | None => ret None
  end.

(** The walker queues the path of a node that [replaceWith] has put in the
    tree and visits it: a literal has no visitor, an identifier is looked up
    in the table like any other, and what replaces it is visited in its
    turn.  Each of these visits is a call inside the one before: a table
    that leads a name back to itself never lets the walker out, and the
    engine ends the run with a [RangeError].  [budget] counts the
    replacements still to come: more replacements than the table has keys
    have used a key twice. *)
Fixpoint revisit (budget : nat) (where_ : slot) (node : expr)
    : M state expr :=
  match node with
  | Identifier _ _ =>
      let* replaced := processReplaceable where_ node in
      match replaced, budget with
      | None, _ => ret node
      | Some _, 0 => throw (RangeError "Maximum call stack size exceeded")
      | Some replacement, S budget => revisit budget where_ replacement
      end
  | _ => ret node
  end.

(** The visitor of identifiers and member expressions together with the
    visits that follow a replacement: [Some] node when the path was
    replaced, [None] when the node stays. *)
Definition visit_replaceable (where_ : slot) (node : expr)
    : M state (option expr) :=
  let* replaced := processReplaceable where_ node in
  match replaced with
  | None => ret None
  | Some replacement =>
      let* final := revisit (size (replaceVariables H)) where_ replacement in
      ret (Some final)
  end.

(** The [CallExpression] visitor of the main pass; [scope] is the scope
    of the path. *)
Definition visit_CallExpression (fuel : nat) (scope : list string)
    (node : expr) : M state expr :=
  match node with
  | CallExpression callee arguments v =>
      let name := getName callee in
      if negb (has RESOLVE_NAMES name) then ret node else
      match arguments !! 0%nat with
      | None => ret node
      | Some parameter =>
          if negb (bool_decide
                     (type parameter =
                      if bool_decide (name = "require.ensure")
                      then "ArrayExpression" else "StringLiteral"))
          then ret node
          else if has RESOLVE_NAMES_SENSITIVE name && hasBinding scope "require"
          then ret node
          else if has RESOLVE_NAMES_CHUNK name
          then processSplit fuel node
          else
            let* parameter := processResolve parameter in
            ret (CallExpression callee (<[0%nat := parameter]> arguments) v)
      end
  | _ => ret node
  end.

(** The main pass [traverse(ast, { ImportDeclaration, CallExpression,
    Identifier, MemberExpression })].  Each node is entered once: its
    visitor runs, then, unless the visitor replaced the node, the walker
    descends into the children of the (mutated) node in the order of its
    visitor keys.  [where_] is the slot of the node in its parent.  A
    replacement is a literal or an identifier: it has no children, and
    [visit_replaceable] has made the visits that follow it. *)
Fixpoint traverse_expr (fuel : nat) (scope : list string) (where_ : slot)
    (node : expr) : M state expr :=
  match fuel with
  | 0 => timeout
  | S fuel =>
      match node with
      | StringLiteral _ | NumericLiteral _ | BooleanLiteral _ => ret node
      | Identifier _ _ =>
          let* replaced := visit_replaceable where_ node in
          ret (default node replaced)
      | MemberExpression object property computed v =>
          let* replaced := visit_replaceable where_ node in
          match replaced with
          | Some replacement => ret replacement
          | None =>
              let* object :=
                traverse_expr fuel scope MemberExpression_object object in
              let* property :=
                traverse_expr fuel scope (MemberExpression_property computed)
                  property in
              ret (MemberExpression object property computed v)
          end
      | CallExpression _ _ _ =>
          let* node := visit_CallExpression fuel scope node in
          match node with
          | CallExpression callee arguments v =>
              let* callee :=
                traverse_expr fuel scope CallExpression_callee callee in
              let* arguments :=
                mapM (traverse_expr fuel scope InList) arguments in
              ret (CallExpression callee arguments v)
          | _ => ret node
          end
      | ArrayExpression elements v =>
          let* elements :=
            mapM (optM (traverse_expr fuel scope InList)) elements in
          ret (ArrayExpression elements v)
      | FunctionExpression id params body v =>
          let scope := (function_bindings id params body ++ scope)%list in
          let* id := optM (traverse_expr fuel scope FunctionExpression_id) id in
          let* params := mapM (traverse_expr fuel scope InList) params in
          let* body := mapM (traverse_stmt fuel scope) body in
          ret (FunctionExpression id params body v)
      end
  end
with traverse_stmt (fuel : nat) (scope : list string) (node : stmt)
    : M state stmt :=
  match fuel with
  | 0 => timeout
  | S fuel =>
      match node with
      | ExpressionStatement expression =>
          let* expression :=
            traverse_expr fuel scope ExpressionStatement_expression
              expression in
          ret (ExpressionStatement expression)
      | VariableDeclaration id init =>
          let* id := traverse_expr fuel scope VariableDeclarator_id id in
          let* init :=
            optM (traverse_expr fuel scope VariableDeclarator_init) init in
          ret (VariableDeclaration id init)
      | ReturnStatement argument =>
          let* argument :=
            optM (traverse_expr fuel scope ReturnStatement_argument)
              argument in
          ret (ReturnStatement argument)
      | ImportDeclaration specifiers source =>
          let* source := processResolve source in
          let* specifiers :=
            mapM (traverse_expr fuel scope ImportDefaultSpecifier_local)
              specifiers in
          let* source :=
            traverse_expr fuel scope ImportDeclaration_source source in
          ret (ImportDeclaration specifiers source)
      end
  end.

(** [traverse(ast, visitors)] on the program; the budget is the depth of
    the tree, which the walker cannot exceed. *)
Definition traverse (ast : list stmt) : M state (list stmt) :=
  mapM (traverse_stmt (program_depth ast) (ast ≫= declared)) ast.

(** The function given to [createLoader]; [None] is [null]. *)
Definition loader (config : Config H)
    : M (Compilation H) (option (LoaderResult H)) :=
  λ c,
    if negb (shouldProcess H (rootDirectory H) (filePath file) config)
    then Ok (None, c)
    else
      match parse H (contents file) (filePath file) with
      | ParseFailure error =>
          let errorMessage :=
            message error +:+ " in " +:+
            getRelativeFilePath H (filePath file) (rootDirectory H) in
          match loc error with
          | Some l =>
              Throw (FileIssue (contents file) (line l) (column l + 1)
                       errorMessage "error")
          | None => Throw (MessageIssue errorMessage "error")
          end
      | Parsed ast =>
          match traverse ast {| chunks := []; imports := []; this := c |} with
          | Ok (ast, s) =>
              let compiled := generate H ast (filePath file) in
              Ok (Some {| result_chunks := chunks s;
                          result_imports := imports s;
                          result_contents := compiled.1;
                          result_sourceMap := compiled.2 |}, this s)
          | Throw e => Throw e
          | Timeout => Timeout
          end
      end.
End File.
End Loader.

Arguments chunks {H}.
Arguments imports {H}.
Arguments this {H}.
Arguments set_this {H}.

Arguments split_element : simpl never.
Arguments split_CallExpression : simpl never.
Arguments split_name : simpl never.
Arguments split_entries : simpl never.
Arguments split_callback : simpl never.
Arguments processSplit : simpl never.
Arguments processResolve : simpl never.
Arguments replaceWith : simpl never.
Arguments processReplaceable : simpl never.
Arguments revisit : simpl never.
Arguments visit_replaceable : simpl never.
Arguments visit_CallExpression : simpl never.

(** ** Reference descriptions used by the statements below *)

(** The requests obtained by resolving the raw values [raws] one after the
    other, each against the context left by the one before. *)
Definition resolve_all (H : Host) (from : string) (raws : list jsval)
    : M (Compilation H) (list FileImport.t) :=
  mapM (λ raw c, of_sum (getImportRequest H raw from c)) raws.

(** The string that replaces a request in the tree. *)
Definition id_string (request : FileImport.t) : jsval :=
  VString (toString (FileImport.id request)).

(** The type that the main pass demands of the first argument of a call to
    [name]. *)
Definition expected_type (name : string) : string :=
  if bool_decide (name = "require.ensure") then "ArrayExpression"
  else "StringLiteral".

(** [import a, b from 'source'] with the local names [locals]. *)
Definition import_declaration (decl : list string * string) : stmt :=
  ImportDeclaration ((λ name, Identifier name VUndefined) <$> decl.1)
    (StringLiteral (VString decl.2)).

(** A tree without dependency syntax: no import declaration, no call whose
    flattened callee name is a recognised name and no identifier or member
    expression whose flattened name is a key of the replacement table. *)
Section Plain.
Variable H : Host.

Definition unnamed (node : expr) : bool :=
  bool_decide (replaceVariables H !! getName node = None).

Fixpoint plain_expr (e : expr) : bool :=
  match e with
  | Identifier _ _ => unnamed e
  | StringLiteral _ | NumericLiteral _ | BooleanLiteral _ => true
  | MemberExpression object property _ _ =>
      unnamed e && plain_expr object && plain_expr property
  | CallExpression callee arguments _ =>
      negb (has RESOLVE_NAMES (getName callee)) && plain_expr callee
      && forallb plain_expr arguments
  | ArrayExpression elements _ =>
      forallb (from_option plain_expr true) elements
  | FunctionExpression id params body _ =>
      from_option plain_expr true id && forallb plain_expr params
      && forallb plain_stmt body
  end
with plain_stmt (s : stmt) : bool :=
  match s with
  | ExpressionStatement expression => plain_expr expression
  | VariableDeclaration id init =>
      plain_expr id && from_option plain_expr true init
  | ReturnStatement argument => from_option plain_expr true argument
  | ImportDeclaration _ _ => false
  end.
End Plain.

(** A function that consumes a supply, along a list and on an optional
    child. *)
Definition thread {A B I} (f : A → list I → B * list I)
    : list A → list I → list B * list I :=
  fix go l ids :=
    match l with
    | [] => ([], ids)
    | a :: l' =>
        let '(b, ids) := f a ids in
        let '(l'', ids) := go l' ids in
        (b :: l'', ids)
    end.

Definition thread_opt {A I} (f : A → list I → A * list I) (o : option A)
    (ids : list I) : option A * list I :=
  match o with
  | None => (None, ids)
  | Some a => let '(a, ids) := f a ids in (Some a, ids)
  end.

(** The nested pass of the chunk extractor, as the specification words it:
    inside the callback, every call whose callee is exactly the alias has its
    first argument resolved and rewritten, in the order of a depth-first
    walk, and nothing else changes. *)
Section Alias.
Variable alias : string.

Definition is_alias_call (callee : expr) : bool :=
  bool_decide (get_name callee = Some alias).

(** The raw values handed to the resolver, in order. *)
Fixpoint spec_alias_requests (e : expr) : list jsval :=
  match e with
  | Identifier _ _ | StringLiteral _ | NumericLiteral _ | BooleanLiteral _ => []
  | MemberExpression object property _ _ =>
      spec_alias_requests object ++ spec_alias_requests property
  | CallExpression callee arguments _ =>
      (if is_alias_call callee
       then from_option (λ a, [get_value a]) [] (arguments !! 0%nat) else [])
      ++ spec_alias_requests callee
      ++ mjoin (spec_alias_requests <$> arguments)
  | ArrayExpression elements _ =>
      mjoin (from_option spec_alias_requests [] <$> elements)
  | FunctionExpression id params body _ =>
      from_option spec_alias_requests [] id
      ++ mjoin (spec_alias_requests <$> params)
      ++ mjoin (spec_alias_requests_stmt <$> body)
  end
with spec_alias_requests_stmt (s : stmt) : list jsval :=
  match s with
  | ExpressionStatement expression => spec_alias_requests expression
  | VariableDeclaration id init =>
      spec_alias_requests id ++ from_option spec_alias_requests [] init
  | ReturnStatement argument => from_option spec_alias_requests [] argument
  | ImportDeclaration specifiers source =>
      mjoin (spec_alias_requests <$> specifiers) ++ spec_alias_requests source
  end.

(** Whether every call to the alias has a first argument to resolve. *)
Fixpoint takes_argument (e : expr) : bool :=
  match e with
  | Identifier _ _ | StringLiteral _ | NumericLiteral _ | BooleanLiteral _ =>
      true
  | MemberExpression object property _ _ =>
      takes_argument object && takes_argument property
  | CallExpression callee arguments _ =>
      (negb (is_alias_call callee) || (0 <? length arguments))
      && takes_argument callee && forallb takes_argument arguments
  | ArrayExpression elements _ =>
      forallb (from_option takes_argument true) elements
  | FunctionExpression id params body _ =>
      from_option takes_argument true id && forallb takes_argument params
      && forallb takes_argument_stmt body
  end
with takes_argument_stmt (s : stmt) : bool :=
  match s with
  | ExpressionStatement expression => takes_argument expression
  | VariableDeclaration id init =>
      takes_argument id && from_option takes_argument true init
  | ReturnStatement argument => from_option takes_argument true argument
  | ImportDeclaration specifiers source =>
      forallb takes_argument specifiers && takes_argument source
  end.

(** [node.value = v] on the first node of a list. *)
Definition set_first_value (l : list expr) (v : jsval) : list expr :=
  match l with
  | [] => []
  | a :: l' => set_value a v :: l'
  end.

(** The rewritten tree, given the strings of the identifiers that the
    resolver assigned, in order; the strings not used are handed back. *)
Fixpoint spec_rewrite_alias (e : expr) (ids : list jsval)
    : expr * list jsval :=
  match e with
  | Identifier _ _ | StringLiteral _ | NumericLiteral _ | BooleanLiteral _ =>
      (e, ids)
  | MemberExpression object property computed v =>
      let '(object, ids) := spec_rewrite_alias object ids in
      let '(property, ids) := spec_rewrite_alias property ids in
      (MemberExpression object property computed v, ids)
  | CallExpression callee arguments v =>
      match is_alias_call callee, arguments, ids with
      | true, _ :: _, assigned :: ids =>
          let '(callee, ids) := spec_rewrite_alias callee ids in
          let '(arguments, ids) := thread spec_rewrite_alias arguments ids in
          (CallExpression callee (set_first_value arguments assigned) v, ids)
      | _, _, _ =>
          let '(callee, ids) := spec_rewrite_alias callee ids in
          let '(arguments, ids) := thread spec_rewrite_alias arguments ids in
          (CallExpression callee arguments v, ids)
      end
  | ArrayExpression elements v =>
      let '(elements, ids) :=
        thread (thread_opt spec_rewrite_alias) elements ids in
      (ArrayExpression elements v, ids)
  | FunctionExpression id params body v =>
      let '(id, ids) := thread_opt spec_rewrite_alias id ids in
      let '(params, ids) := thread spec_rewrite_alias params ids in
      let '(body, ids) := thread spec_rewrite_alias_stmt body ids in
      (FunctionExpression id params body v, ids)
  end
with spec_rewrite_alias_stmt (s : stmt) (ids : list jsval)
    : stmt * list jsval :=
  match s with
  | ExpressionStatement expression =>
      let '(expression, ids) := spec_rewrite_alias expression ids in
      (ExpressionStatement expression, ids)
  | VariableDeclaration id init =>
      let '(id, ids) := spec_rewrite_alias id ids in
      let '(init, ids) := thread_opt spec_rewrite_alias init ids in
      (VariableDeclaration id init, ids)
  | ReturnStatement argument =>
      let '(argument, ids) := thread_opt spec_rewrite_alias argument ids in
      (ReturnStatement argument, ids)
  | ImportDeclaration specifiers source =>
      let '(specifiers, ids) := thread spec_rewrite_alias specifiers ids in
      let '(source, ids) := spec_rewrite_alias source ids in
      (ImportDeclaration specifiers source, ids)
  end.
End Alias.

(** ** What a pass is expected to leave behind *)

(** The name of a chunk as the specification words it, with the context
    after the name is settled: the value of the third argument when that is
    present and a string literal, the string of a freshly issued identifier
    otherwise. *)
Definition spec_chunk_name (H : Host) (arguments : list expr)
    (c : Compilation H) : jsval * Compilation H :=
  match arguments !! 2 with
  | Some third =>
      if bool_decide (type third = "StringLiteral") then (get_value third, c)
      else (VString (toString (getNextUniqueID H c).1),
            (getNextUniqueID H c).2)
  | None =>
      (VString (toString (getNextUniqueID H c).1), (getNextUniqueID H c).2)
  end.

(** The array of a split point whose elements [es] carry the strings of the
    identifiers of [entries]. *)
Definition rewritten_entries (es : list expr) (v0 : jsval)
    (entries : list FileImport.t) : expr :=
  ArrayExpression
    (zip_with (λ e r, Some (set_value e (id_string r))) es entries) v0.

(** The outcome of the extraction of [require.ensure(arguments)] from the
    state [st], where [arguments[0]] is the array of the elements [es]: the
    name of the chunk is settled, then the values of the elements are
    resolved in the order of the array, then the nested pass runs on the
    callback (if any) with the chunk in hand.  When all return, exactly one
    chunk is appended: it has that name, the requests of the elements as
    entries, one per element, and what the nested pass gathered as nested
    imports; the imports of the file are as they were; each element carries
    the string of the identifier of its request.  An error of the resolver
    or of the nested pass is the outcome of the extraction. *)
Definition chunk_extracted (H : Host) (file : File) (fuel : nat)
    (callee : expr) (arguments : list expr) (v : jsval) (es : list expr)
    (v0 : jsval) (st : state H) : result (expr * state H) :=
  let named := spec_chunk_name H arguments (this st) in
  match resolve_all H (filePath file) (get_value <$> es) named.2 with
  | Ok (entries, c) =>
      match split_callback H file fuel
              (<[0 := rewritten_entries es v0 entries]> arguments)
              (FileChunk.make named.1 entries [], set_this st c) with
      | Ok (arguments', (chunk, st')) =>
          Ok (CallExpression callee arguments' v,
              {| chunks :=
                   chunks st ++ [FileChunk.make named.1 entries
                                   (FileChunk.imports chunk)];
                 imports := imports st;
                 this := this st' |})
      | Throw e => Throw e
      | Timeout => Timeout
      end
  | Throw e => Throw e
  | Timeout => Timeout
  end.

(** The outcome of the same extraction when the second argument is the
    function expression [callback] whose first parameter is the identifier
    [alias]: after the entries, the first arguments of the calls to [alias]
    in the callback are resolved in the order of a depth-first walk; the
    requests are the nested imports of the one chunk appended, and the
    callback in the tree is the one that [spec_rewrite_alias] describes:
    the first argument of each call to [alias] carries the string of the
    identifier of its request and nothing else has changed. *)
Definition nested_extracted (H : Host) (file : File) (alias : string)
    (callee : expr) (arguments : list expr) (v : jsval) (es : list expr)
    (v0 : jsval) (callback : expr) (st : state H)
    : result (expr * state H) :=
  let named := spec_chunk_name H arguments (this st) in
  match resolve_all H (filePath file) (get_value <$> es) named.2 with
  | Ok (entries, c1) =>
      match resolve_all H (filePath file)
              (spec_alias_requests alias callback) c1 with
      | Ok (nested, c2) =>
          Ok (CallExpression callee
                (<[1 := (spec_rewrite_alias alias callback
                           (id_string <$> nested)).1]>
                   (<[0 := rewritten_entries es v0 entries]> arguments)) v,
              {| chunks :=
                   chunks st ++ [FileChunk.make named.1 entries nested];
                 imports := imports st;
                 this := c2 |})
      | Throw e => Throw e
      | Timeout => Timeout
      end
  | Throw e => Throw e
  | Timeout => Timeout
  end.

(** The outcome of [processResolve] on the first argument [parameter] of a
    call: the value of the argument is resolved, the request is recorded
    as an import of the file and the argument carries the string of its
    identifier. *)
Definition call_resolved (H : Host) (file : File) (callee : expr)
    (arguments : list expr) (v : jsval) (parameter : expr) (st : state H)
    : result (expr * state H) :=
  match getImportRequest H (get_value parameter) (filePath file) (this st) with
  | inl (request, c) =>
      Ok (CallExpression callee
            (<[0 := set_value parameter (id_string request)]> arguments) v,
          {| chunks := chunks st; imports := imports st ++ [request];
             this := c |})
  | inr e => Throw e
  end.

(** The outcome of the main pass on the import declarations [decls] from
    the state [st]: when it returns, the imports recorded are the requests
    that resolving the sources in the order of the declarations gives, one
    per declaration, no chunk is recorded, and the source of each
    declaration is the string of the identifier of its request. *)
Definition imports_recorded (H : Host) (file : File)
    (decls : list (list string * string)) (st : state H)
    (r : result (list stmt * state H)) : Prop :=
  match r with
  | Ok (ast', st') =>
      ∃ requests,
        resolve_all H (filePath file) (VString <$> decls.*2) (this st)
        = Ok (requests, this st') ∧
        imports st' = imports st ++ requests ∧
        chunks st' = chunks st ∧
        length requests = length decls ∧
        Forall2 (λ s r, ∃ specifiers,
                   s = ImportDeclaration specifiers
                         (StringLiteral (id_string r)))
          ast' requests
  | Throw _ => True
  | Timeout => False
  end.

(** ** Notions used in the proofs *)

(** The result of a computation with its value mapped. *)
Definition map_result {S A B} (g : A → B) (r : result (A * S))
    : result (B * S) :=
  match r with
  | Ok (a, s) => Ok (g a, s)
  | Throw e => Throw e
  | Timeout => Timeout
  end.

(** What the nested pass leaves alone: the name and the entries of the chunk
    and the arrays of the run. *)
Definition frame {H : Host} (cs cs' : FileChunk.t * state H) : Prop :=
  FileChunk.name cs'.1 = FileChunk.name cs.1 ∧
  FileChunk.entry cs'.1 = FileChunk.entry cs.1 ∧
  chunks cs'.2 = chunks cs.2 ∧ imports cs'.2 = imports cs.2.

(** [requests] are what resolving [raws] one after the other gives from the
    state [cs.2], and [cs'] is [cs] with them pushed on [chunk.imports]. *)
Definition resolved (H : Host) (file : File) (raws : list jsval)
    (cs cs' : FileChunk.t * state H) (requests : list FileImport.t) : Prop :=
  ∃ c, resolve_all H (filePath file) raws (this cs.2) = Ok (requests, c) ∧
       cs' = (add_imports cs.1 requests, set_this cs.2 c).

(** A computation of the nested pass follows the resolution of [raws]: it
    returns when the resolver accepts them all, with the requests pushed on
    [chunk.imports], and throws the first error of the resolver otherwise. *)
Definition tracks (H : Host) (file : File) {A}
    (m : M (FileChunk.t * state H) A) (raws : list jsval)
    (cs : FileChunk.t * state H) : Prop :=
  match resolve_all H (filePath file) raws (this cs.2) with
  | Ok (requests, c) =>
      ∃ a, m cs = Ok (a, (add_imports cs.1 requests, set_this cs.2 c))
  | Throw e => m cs = Throw e
  | Timeout => True
  end.

(** A computation of the nested pass refines a list of raw requests and a
    rewriting that consumes the strings assigned to them. *)
Definition refines (H : Host) (file : File) {A}
    (run : A → M (FileChunk.t * state H) A)
    (raws : A → list jsval) (rewrite : A → list jsval → A * list jsval)
    : Prop :=
  ∀ x cs x' cs',
    run x cs = Ok (x', cs') →
    ∃ requests,
      resolved H file (raws x) cs cs' requests ∧
      ∀ rest, rewrite x ((id_string <$> requests) ++ rest) = (x', rest).

(** ** A host for the examples

    Identifiers are issued by a counter; requests are accepted as they come.
    The parser knows the few files of the examples and the generator prints
    compact code with single quotes. *)

Module Demo.
Definition quote (s : string) : string := "'" +:+ s +:+ "'".

(** The helper of the examples: a source in double quotes gives the string
    between them, any other source an identifier of that name. *)
Definition unquote (source : string) : option string :=
  let n := String.length source in
  if (2 <=? n)
     && bool_decide (String.substring 0 1 source = dquote)
     && bool_decide (String.substring (n - 1) 1 source = dquote)
  then Some (String.substring 1 (n - 2) source)
  else None.

Definition parsed_replacement (source : string) : replacement + exn :=
  match unquote source with
  | Some s => inl (Literal (LString s))
  | None => inl (Named source)
  end.

Definition print_value (v : jsval) : string :=
  match v with
  | VUndefined => "undefined"
  | VString s => s
  | VNumber z => pretty z
  | VBoolean b => if b then "true" else "false"
  end.

Fixpoint print_expr (e : expr) : string :=
  match e with
  | Identifier name _ => name
  | StringLiteral v => quote (print_value v)
  | NumericLiteral v | BooleanLiteral v => print_value v
  | MemberExpression object property computed _ =>
      if computed
      then print_expr object +:+ "[" +:+ print_expr property +:+ "]"
      else print_expr object +:+ "." +:+ print_expr property
  | CallExpression callee arguments _ =>
      print_expr callee +:+ "(" +:+
      String.concat "," (print_expr <$> arguments) +:+ ")"
  | ArrayExpression elements _ =>
      "[" +:+
      String.concat "," ((λ o, from_option print_expr "" o) <$> elements)
      +:+ "]"
  | FunctionExpression id params body _ =>
      "function " +:+ from_option print_expr "" id +:+ "(" +:+
      String.concat "," (print_expr <$> params) +:+ "){" +:+
      String.concat "" (print_stmt <$> body) +:+ "}"
  end
with print_stmt (s : stmt) : string :=
  match s with
  | ExpressionStatement expression => print_expr expression +:+ ";"
  | VariableDeclaration id init =>
      "var " +:+ print_expr id +:+
      from_option (λ e, "=" +:+ print_expr e) "" init +:+ ";"
  | ReturnStatement argument =>
      "return " +:+ from_option print_expr "" argument +:+ ";"
  | ImportDeclaration specifiers source =>
      "import " +:+ String.concat "," (print_expr <$> specifiers) +:+
      " from" +:+ print_expr source +:+ ";"
  end.

Definition ident (name : string) : expr := Identifier name VUndefined.
Definition str (s : string) : expr := StringLiteral (VString s).
Definition call (callee : expr) (arguments : list expr) : expr :=
  CallExpression callee arguments VUndefined.
Definition member (object : expr) (property : string) : expr :=
  MemberExpression object (ident property) false VUndefined.
Definition array (elements : list expr) : expr :=
  ArrayExpression (Some <$> elements) VUndefined.
Definition function (params : list string) (body : list stmt) : expr :=
  FunctionExpression None (ident <$> params) body VUndefined.

(** [require.ensure(['a', 'b'], function (req) { req('c'); other('d'); },
    'myChunk')] *)
Definition ensure_callee : expr := member (ident "require") "ensure".
Definition ensure_callback : expr :=
  function ["req"]
    [ExpressionStatement (call (ident "req") [str "c"]);
     ExpressionStatement (call (ident "other") [str "d"])].
Definition ensure_arguments : list expr :=
  [array [str "a"; str "b"]; ensure_callback; str "myChunk"].

(** [require('a');] and [require('1');] *)
Definition require_a : list stmt :=
  [ExpressionStatement (call (ident "require") [str "a"])].
Definition require_1 : list stmt :=
  [ExpressionStatement (call (ident "require") [str "1"])].

Definition parse_file (contents : string) (sourceFilename : string) : parsed :=
  if bool_decide (contents = "require('a');") then Parsed require_a
  else if bool_decide (contents = "require('1');") then Parsed require_1
  else if bool_decide (contents = "f();") then
    Parsed [ExpressionStatement (call (ident "f") [])]
  else if bool_decide (contents = "foo.__DEV__;") then
    Parsed [ExpressionStatement (member (ident "foo") "__DEV__")]
  else if bool_decide (contents = "import a from '1';") then
    Parsed [import_declaration (["a"], "1")]
  else if bool_decide (contents = "require('a") then
    ParseFailure {| message := "Unterminated string constant (1:8)";
                    loc := Some {| line := 1; column := 8 |} |}
  else ParseFailure {| message := "Unexpected token"; loc := None |}.

Definition host : Host := {|
  Compilation := Z;
  Config := unit;
  SourceMap := unit;
  getImportRequest := λ raw from c,
    inl (FileImport.make (IdNumber (c + 1)) raw from, (c + 1)%Z);
  getNextUniqueID := λ c, (IdNumber (c + 1), (c + 1)%Z);
  rootDirectory := "/app";
  replaceVariables := {[ "__DEV__" := "false" ]};
  shouldProcess := λ _ _ _, true;
  getRelativeFilePath := λ filePath _, filePath;
  parse := parse_file;
  generate := λ ast _, (String.concat "" (print_stmt <$> ast), tt);
  getParsedReplacement := parsed_replacement;
|}.

(** The same host with a resolver that refuses a request that is not a
    string. *)
Definition strict : Host := {|
  Compilation := Z;
  Config := unit;
  SourceMap := unit;
  getImportRequest := λ raw from c,
    match raw with
    | VString _ => inl (FileImport.make (IdNumber (c + 1)) raw from, (c + 1)%Z)
    | _ => inr (HostError "request is not a string")
    end;
  getNextUniqueID := λ c, (IdNumber (c + 1), (c + 1)%Z);
  rootDirectory := "/app";
  replaceVariables := ∅;
  shouldProcess := λ _ _ _, true;
  getRelativeFilePath := λ filePath _, filePath;
  parse := parse_file;
  generate := λ ast _, (String.concat "" (print_stmt <$> ast), tt);
  getParsedReplacement := λ _, inr (HostError "no replacement");
|}.

Definition file (contents : string) : File :=
  {| filePath := "/app/index.js"; contents := contents |}.

(** The state at the start of a run, with the counter at [c]. *)
Definition start (H : Host) (c : Compilation H) : state H :=
  {| chunks := []; imports := []; this := c |}.
End Demo.

(** * Further descriptions

    Shapes of programs and outcomes that the further properties at the end
    of the file are stated with. *)

(** ** Statements that name one dependency

    An import declaration, or a statement that calls one of the names served
    by [processResolve] with the specifier as its only argument. *)
Inductive dependency : Type :=
| ByImport (locals : list string) (source : string)
| ByCall (callee : expr) (source : string).

Definition dependency_source (d : dependency) : string :=
  match d with
  | ByImport _ source | ByCall _ source => source
  end.

(** The statement of [d] with [source] in the place of the specifier. *)
Definition dependency_stmt (d : dependency) (source : string) : stmt :=
  match d with
  | ByImport locals _ => import_declaration (locals, source)
  | ByCall callee _ =>
      ExpressionStatement
        (CallExpression callee [StringLiteral (VString source)] VUndefined)
  end.

Definition dependency_program (deps : list dependency) : list stmt :=
  (λ d, dependency_stmt d (dependency_source d)) <$> deps.

(** What the main pass needs to serve [d] in [scope] and to leave the rest
    of its statement alone: the callee flattens to a recognised name other
    than [require.ensure], is not hidden by a binding of [require] when the
    name is sensitive, and no name in the statement is a key of the
    replacement table. *)
Definition served (H : Host) (scope : list string) (d : dependency) : bool :=
  match d with
  | ByImport locals _ =>
      forallb (λ name, bool_decide (replaceVariables H !! name = None)) locals
  | ByCall callee _ =>
      has RESOLVE_NAMES (getName callee)
      && negb (has RESOLVE_NAMES_CHUNK (getName callee))
      && negb (has RESOLVE_NAMES_SENSITIVE (getName callee)
               && hasBinding scope "require")
      && plain_expr H callee
  end.

(** The outcome of a pass that resolves [raws] in order from [st], records
    the requests as imports and leaves [rewrite requests] as the tree. *)
Definition recorded_in_order {A} (H : Host) (file : File) (raws : list jsval)
    (rewrite : list FileImport.t → A) (st : state H) : result (A * state H) :=
  match resolve_all H (filePath file) raws (this st) with
  | Ok (requests, c) =>
      Ok (rewrite requests,
          {| chunks := chunks st; imports := imports st ++ requests;
             this := c |})
  | Throw e => Throw e
  | Timeout => Timeout
  end.

(** The arrays of a run only grow. *)
Definition grows {H : Host} (st st' : state H) : Prop :=
  imports st `prefix_of` imports st' ∧ chunks st `prefix_of` chunks st'.

(** ** A split point whose callback calls the alias

    [require.ensure([entries], function (alias) { alias(nested); ... },
    chunkName)], the third argument being optional. *)
Definition alias_call (alias source : string) : stmt :=
  ExpressionStatement
    (CallExpression (Identifier alias VUndefined)
       [StringLiteral (VString source)] VUndefined).

(** The strings of the identifiers of requests. *)
Definition id_strings (requests : list FileImport.t) : list string :=
  (λ r, toString (FileImport.id r)) <$> requests.

(** The call itself; [callee] stands for [require.ensure]. *)
Definition ensure_call (callee : expr) (alias : string)
    (entries nested : list string) (chunkName : option string) : expr :=
  CallExpression callee
    ([ArrayExpression
        ((λ source, Some (StringLiteral (VString source))) <$> entries)
        VUndefined;
      FunctionExpression None [Identifier alias VUndefined]
        (alias_call alias <$> nested) VUndefined]
     ++ from_option (λ name, [StringLiteral (VString name)]) [] chunkName)
    VUndefined.

(** The chunk of such a statement: its name is settled first (the given
    name, or a fresh identifier), then the entries are resolved in order,
    then the nested sources. *)
Definition split_point_chunk (H : Host) (file : File)
    (entries nested : list string) (chunkName : option string)
    : M (Compilation H) FileChunk.t :=
  let* name :=
    (λ c, match chunkName with
          | Some name => Ok (VString name, c)
          | None =>
              let '(uid, c) := getNextUniqueID H c in
              Ok (VString (toString uid), c)
          end) in
  let* es := resolve_all H (filePath file) (VString <$> entries) in
  let* ns := resolve_all H (filePath file) (VString <$> nested) in
  ret (FileChunk.make name es ns).

(** The outcome of a step that records the chunk of such a statement and
    no import of the file, and leaves [rewrite chunk] as the tree. *)
Definition split_point_recorded {A} (H : Host) (file : File)
    (entries nested : list string) (chunkName : option string)
    (rewrite : FileChunk.t → A) (st : state H) : result (A * state H) :=
  match split_point_chunk H file entries nested chunkName (this st) with
  | Ok (chunk, c) =>
      Ok (rewrite chunk,
          {| chunks := chunks st ++ [chunk]; imports := imports st;
             this := c |})
  | Throw e => Throw e
  | Timeout => Timeout
  end.

(** [require.ensure] *)
Definition require_ensure : expr :=
  MemberExpression (Identifier "require" VUndefined)
    (Identifier "ensure" VUndefined) false VUndefined.

(** ** A split point inside the callback of a split point

    [require.ensure([], function (alias) {
       require.ensure([], function (alias) { alias(source); }); });] *)
Definition nested_split_point (alias source : string) : stmt :=
  ExpressionStatement
    (CallExpression require_ensure
       [ArrayExpression [] VUndefined;
        FunctionExpression None [Identifier alias VUndefined]
          [ExpressionStatement
             (ensure_call require_ensure alias [] [source] None)]
          VUndefined] VUndefined).

(** A tree that the main pass leaves alone, given whether [require] is
    [bound] around it: no import declaration, no name of the replacement
    table, and no call to a recognised name, but for calls to the sensitive
    names where [require] is bound. *)
Section Quiet.
Variable H : Host.

Fixpoint quiet_expr (bound : bool) (e : expr) : bool :=
  match e with
  | Identifier _ _ => unnamed H e
  | StringLiteral _ | NumericLiteral _ | BooleanLiteral _ => true
  | MemberExpression object property _ _ =>
      unnamed H e && quiet_expr bound object && quiet_expr bound property
  | CallExpression callee arguments _ =>
      (negb (has RESOLVE_NAMES (getName callee))
       || bound && has RESOLVE_NAMES_SENSITIVE (getName callee))
      && quiet_expr bound callee && forallb (quiet_expr bound) arguments
  | ArrayExpression elements _ =>
      forallb (from_option (quiet_expr bound) true) elements
  | FunctionExpression id params body _ =>
      let bound :=
        bound || hasBinding (function_bindings id params body) "require" in
      from_option (quiet_expr bound) true id
      && forallb (quiet_expr bound) params
      && forallb (quiet_stmt bound) body
  end
with quiet_stmt (bound : bool) (s : stmt) : bool :=
  match s with
  | ExpressionStatement expression => quiet_expr bound expression
  | VariableDeclaration id init =>
      quiet_expr bound id && from_option (quiet_expr bound) true init
  | ReturnStatement argument => from_option (quiet_expr bound) true argument
  | ImportDeclaration _ _ => false
  end.
End Quiet.

(** ** More hosts and trees for the examples *)

Module Samples.
(** The example host with a table that replaces [process.env.NODE_ENV] by
    [NODE_ENV], and [NODE_ENV] by the string ["production"]. *)
Definition env : Host := {|
  Compilation := Z;
  Config := unit;
  SourceMap := unit;
  getImportRequest := getImportRequest Demo.host;
  getNextUniqueID := getNextUniqueID Demo.host;
  rootDirectory := "/app";
  replaceVariables :=
    {[ "process.env.NODE_ENV" := "NODE_ENV";
       "NODE_ENV" := json_string "production" ]};
  shouldProcess := λ _ _ _, true;
  getRelativeFilePath := λ filePath _, filePath;
  parse := Demo.parse_file;
  generate := generate Demo.host;
  getParsedReplacement := getParsedReplacement Demo.host;
|}.

(** [process.env.NODE_ENV] *)
Definition node_env : expr :=
  Demo.member (Demo.member (Demo.ident "process") "env") "NODE_ENV".

(** [import a from './a'; require('./b'); module.hot.accept('./c');] *)
Definition dependencies : list dependency :=
  [ByImport ["a"] "./a";
   ByCall (Demo.ident "require") "./b";
   ByCall (Demo.member (Demo.member (Demo.ident "module") "hot") "accept")
     "./c"].

(** [var require = load; require('z');
    (function () { require.resolve('y'); });] *)
Definition shadowed : list stmt :=
  [VariableDeclaration (Demo.ident "require") (Some (Demo.ident "load"));
   ExpressionStatement (Demo.call (Demo.ident "require") [Demo.str "z"]);
   ExpressionStatement
     (Demo.function []
        [ExpressionStatement
           (Demo.call (Demo.member (Demo.ident "require") "resolve")
              [Demo.str "y"])])].

Definition request (id : Z) (source : string) : FileImport.t :=
  FileImport.make (IdNumber id) (VString source) "/app/index.js".
End Samples.

(** * The command line: where the bundles are written

    The default command generates the bundles and writes one file per output,
    with a source map beside it when the configuration asks for one.  The
    functions of the platform that it calls ([Path.extname],
    [Path.relative], [JSON.stringify]) are the fields of a record; the
    methods of strings are written out.  Of the effects of the loop over the
    outputs the embedding keeps the files written, in order; the lines
    printed on the console are left out. *)

Module CLI.

(** [s.slice(start, end)]: a negative index counts from the end, and both
    are clamped to the string. *)
Definition slice (s : string) (start end_ : Z) : string :=
  let len := Z.of_nat (String.length s) in
  let clamp (i : Z) :=
    if (i <? 0)%Z then Z.max (len + i) 0 else Z.min i len in
  String.substring (Z.to_nat (clamp start))
    (Z.to_nat (clamp end_ - clamp start)) s.

(** [s.endsWith(suffix)] *)
Definition endsWith (s suffix : string) : bool :=
  (String.length suffix <=? String.length s)
  && bool_decide
       (String.substring (String.length s - String.length suffix)
          (String.length suffix) s = suffix).

Record Platform : Type := {
  SourceMap : Type;
  (* Path.extname(path) *)
  extname : string → string;
  (* Path.relative(from, to) *)
  relative : string → string → string;
  (* JSON.stringify(sourceMap) *)
  stringify : SourceMap → string;
}.

(** An output of the generator: [output.contents],
    [output.chunk.getIdOrLabel()] and [output.sourceMap]. *)
Record Output (P : Platform) : Type := {
  contents : string;
  getIdOrLabel : string;
  sourceMap : SourceMap P;
}.
Arguments contents {P}.
Arguments getIdOrLabel {P}.
Arguments sourceMap {P}.

(** [path.slice(0, -1 * ext.length) + '.' + label + ext], the expression
    that names the file of a chunk and the file of its source map. *)
Definition labelled (path ext label : string) : string :=
  slice path 0 (-1 * Z.of_nat (String.length ext)) +:+ "." +:+ label +:+ ext.

Definition newline : string := String (Ascii.ascii_of_nat 10) "".

Section Outputs.
Variable P : Platform.
(* config.output.sourceMap, config.output.sourceMapPath *)
Variable config_sourceMap : bool.
Variable config_sourceMapPath : string.
Variables outputDirectory outputFilePath outputSourceMapPath : string.

Definition writeSourceMap : bool :=
  config_sourceMap && negb (bool_decide (config_sourceMapPath = "inline")).

Definition outputFilePathExt : string := extname P outputFilePath.

Definition outputSourceMapPathExt : string :=
  if endsWith outputSourceMapPath ".js.map" then ".js.map"
  else extname P outputSourceMapPath.

Definition currentFilePath (output : Output P) : string :=
  labelled outputFilePath outputFilePathExt (getIdOrLabel output).

Definition currentSourceMapPath (output : Output P) : string :=
  labelled outputSourceMapPath outputSourceMapPathExt (getIdOrLabel output).

(** The body of [outputs.forEach]: the files written for one output, each
    with its data. *)
Definition write_output (output : Output P) : list (string * string) :=
  let contents :=
    if writeSourceMap
    then contents output +:+ "//# sourceMappingURL=" +:+
         relative P outputDirectory (currentSourceMapPath output) +:+ newline
    else contents output in
  (currentFilePath output, contents)
  :: (if writeSourceMap
      then [(currentSourceMapPath output, stringify P (sourceMap output))]
      else []).

(** [outputs.forEach(...)] *)
Definition write_outputs (outputs : list (Output P)) : list (string * string) :=
  outputs ≫= write_output.
End Outputs.

(** The process and [killPundle]: the flag [pundleIsAlive], and how often
    [subscriptions.dispose()] and [process.exit()] were called. *)
Record process : Type := {
  pundleIsAlive : bool;
  disposals : nat;
  exits : nat;
}.

Definition started : process :=
  {| pundleIsAlive := true; disposals := 0; exits := 0 |}.

Definition killPundle (p : process) : process :=
  let p :=
    if pundleIsAlive p
    then {| pundleIsAlive := false; disposals := S (disposals p);
            exits := exits p |}
    else p in
  {| pundleIsAlive := pundleIsAlive p; disposals := disposals p;
     exits := S (exits p) |}.

(** A platform for the examples.  The extension of a path is the text from
    the last dot of its last segment on, unless that dot starts the
    segment; the path relative to a directory is what follows the directory
    and a slash. *)
Inductive scan : Type :=
| Ext (ext : string)
| NoExt
| Pending.

Fixpoint scan_ext (at_start : bool) (s : string) : scan :=
  match s with
  | EmptyString => Pending
  | String a s' =>
      match scan_ext (bool_decide (String a "" = "/")) s' with
      | Ext ext => Ext ext
      | NoExt => NoExt
      | Pending =>
          if bool_decide (String a "" = "/") then NoExt
          else if bool_decide (String a "" = ".")
               then (if at_start then NoExt else Ext s)
               else Pending
      end
  end.

Definition node : Platform := {|
  SourceMap := string;
  extname := λ path, match scan_ext true path with Ext ext => ext | _ => "" end;
  relative := λ from to,
    if String.prefix (from +:+ "/") to
    then String.substring (S (String.length from))
           (String.length to - S (String.length from)) to
    else to;
  stringify := λ map, map;
|}.

Definition output (label contents : string) : Output node :=
  Build_Output node contents label "{}".

End CLI.

(** * Properties *)

(** ** The monad *)

Lemma bind_Ok {S A B} (m : M S A) (k : A → M S B) s r :
  bind m k s = Ok r ↔ ∃ a s', m s = Ok (a, s') ∧ k a s' = Ok r.
Proof.
  unfold bind. split.
  - destruct (m s) as [[a s']| |] eqn:E; try discriminate. eauto.
  - intros (a & s' & -> & Hk). exact Hk.
Qed.

Ltac inv_bind :=
  repeat match goal with
    | Hm : bind _ _ _ = Ok _ |- _ =>
        let a := fresh "a" in let s := fresh "s" in let Ha := fresh "Ha" in
        apply bind_Ok in Hm as (a & s & Ha & Hm)
    | Hm : ret _ _ = Ok _ |- _ => injection Hm as <- <-
    end.

Lemma bind_not_Timeout {S A B} (m : M S A) (k : A → M S B) s :
  m s ≠ Timeout → (∀ a s', m s = Ok (a, s') → k a s' ≠ Timeout) →
  bind m k s ≠ Timeout.
Proof.
  unfold bind. intros Hm Hk.
  destruct (m s) as [[a s']| |] eqn:E; [by apply Hk | done | done].
Qed.

Lemma mapM_Ok_Forall2 {S A B} (R : A → B → Prop) (f : A → M S B) l :
  ∀ s l' s',
    (∀ x s y s', x ∈ l → f x s = Ok (y, s') → R x y) →
    mapM f l s = Ok (l', s') → Forall2 R l l'.
Proof.
  induction l as [|x l IH]; intros s l' s' Hf Hm; simpl in Hm.
  - inversion Hm. constructor.
  - apply bind_Ok in Hm as (y & s1 & Hy & Hm).
    apply bind_Ok in Hm as (l1 & s2 & Hl & Hm).
    inversion Hm; subst. constructor.
    + eapply Hf; [left | exact Hy].
    + eapply IH; [|exact Hl]. intros. eapply Hf; [by right | done].
Qed.

Lemma mapM_not_Timeout {S A B} (f : A → M S B) l :
  ∀ s, (∀ x s, x ∈ l → f x s ≠ Timeout) → mapM f l s ≠ Timeout.
Proof.
  induction l as [|x l IH]; intros s Hf; simpl; [done|].
  apply bind_not_Timeout; [apply Hf; left|].
  intros y s1 _. apply bind_not_Timeout; [|done].
  apply IH. intros. apply Hf. by right.
Qed.

Lemma mapM_preserves {S A B} (R : S → S → Prop) (f : A → M S B) l :
  (∀ s, R s s) → (∀ s1 s2 s3, R s1 s2 → R s2 s3 → R s1 s3) →
  ∀ s l' s',
    (∀ x s y s', x ∈ l → f x s = Ok (y, s') → R s s') →
    mapM f l s = Ok (l', s') → R s s'.
Proof.
  intros Hrefl Htrans.
  induction l as [|x l IH]; intros s l' s' Hf Hm; simpl in Hm; inv_bind.
  - done.
  - eapply Htrans; [eapply Hf; [left|done]|].
    eapply IH; [|done]. intros. eapply Hf; [by right|done].
Qed.

Lemma mapM_id {S A} (f : A → M S A) l s :
  (∀ x, x ∈ l → f x s = Ok (x, s)) → mapM f l s = Ok (l, s).
Proof.
  induction l as [|x l IH]; intros Hf; simpl; [done|].
  unfold bind. rewrite Hf by left. rewrite IH; [done|].
  intros. apply Hf. by right.
Qed.

Lemma optM_id {S A} (f : A → M S A) o s :
  (∀ x, o = Some x → f x s = Ok (x, s)) → optM f o s = Ok (o, s).
Proof.
  destruct o as [x|]; intros Hf; simpl; [|done].
  unfold bind. by rewrite Hf.
Qed.

Lemma forallb_elem_of {A} (f : A → bool) l x :
  forallb f l = true → x ∈ l → f x = true.
Proof.
  intros Hl Hx. eapply forallb_forall; [exact Hl|]. by apply list_elem_of_In.
Qed.

Lemma resolve_all_length H from raws c requests c' :
  resolve_all H from raws c = Ok (requests, c') → length requests = length raws.
Proof.
  unfold resolve_all. intros Hm.
  eapply (mapM_Ok_Forall2 (λ _ _, True)) in Hm; [|done].
  symmetry. by eapply Forall2_length.
Qed.

(** ** Lists and depths *)

Lemma set_value_depth e v : expr_depth (set_value e v) = expr_depth e.
Proof. by destruct e. Qed.

Lemma max_list_fmap_Forall2 {A} (f : A → nat) l l' :
  Forall2 (λ a b, f b = f a) l l' → max_list (f <$> l') = max_list (f <$> l).
Proof.
  induction 1 as [|a b l l' E _ IH]; [done|].
  rewrite !fmap_cons. simpl. by rewrite E, IH.
Qed.

Lemma max_list_fmap_insert {A} (f : A → nat) (l : list A) i x y :
  l !! i = Some x → f y = f x → max_list (f <$> <[i:=y]> l) = max_list (f <$> l).
Proof.
  intros Hl Hf. rewrite list_fmap_insert, Hf.
  rewrite list_insert_id; [done|]. by rewrite list_lookup_fmap, Hl.
Qed.

Lemma max_list_lookup {A} (f : A → nat) (l : list A) i x :
  l !! i = Some x → (f x ≤ max_list (f <$> l))%nat.
Proof.
  intros Hl. apply max_list_elem_of_le, list_elem_of_fmap.
  exists x. split; [done|]. by eapply list_elem_of_lookup_2.
Qed.

Lemma max_list_elem_of {A} (f : A → nat) (l : list A) x :
  x ∈ l → (f x ≤ max_list (f <$> l))%nat.
Proof.
  intros Hl. apply max_list_elem_of_le, list_elem_of_fmap. eauto.
Qed.


(** ** Depth is preserved and the budget suffices *)

Section Walker.
Variable H : Host.
Variable file : File.

Lemma lift_Ok {A} (m : M (state H) A) cs a cs' :
  lift H m cs = Ok (a, cs') ↔ ∃ s', m cs.2 = Ok (a, s') ∧ cs' = (cs.1, s').
Proof.
  unfold lift. destruct (m cs.2) as [[a' s']| |]; split.
  - intros [= -> <-]. eauto.
  - intros (s'' & [= -> ->] & ->). done.
  - done.
  - intros (? & ? & _). done.
  - done.
  - intros (? & ? & _). done.
Qed.

Lemma callImportRequest_not_Timeout raw from s :
  callImportRequest H raw from s ≠ Timeout.
Proof.
  unfold callImportRequest.
  by destruct (getImportRequest H raw from (this s)) as [[]|].
Qed.

Lemma split_CallExpression_depth alias node cs node' cs' :
  split_CallExpression H file alias node cs = Ok (node', cs') →
  expr_depth node' = expr_depth node.
Proof.
  unfold split_CallExpression.
  destruct node as [| | | | |callee arguments v| |];
    try (by intros [= <- <-]).
  case_bool_decide; [|by intros [= <- <-]].
  destruct (arguments !! 0%nat) as [argument|] eqn:Harg; [|done].
  intros Hm. apply bind_Ok in Hm as (request & cs1 & _ & Hm).
  apply bind_Ok in Hm as ([] & cs2 & _ & Hm).
  injection Hm as <- <-. simpl.
  by erewrite max_list_fmap_insert; [| |apply set_value_depth].
Qed.

Lemma split_CallExpression_not_Timeout alias node cs :
  split_CallExpression H file alias node cs ≠ Timeout.
Proof.
  unfold split_CallExpression.
  destruct node as [| | | | |callee arguments v| |]; try done.
  case_bool_decide; [|done].
  destruct (arguments !! 0%nat) as [argument|]; [|done].
  apply bind_not_Timeout.
  - unfold lift. pose proof (callImportRequest_not_Timeout
      (get_value argument) (filePath file) cs.2) as Hc.
    by destruct (callImportRequest _ _ _ _) as [[]| |].
  - intros. by apply bind_not_Timeout.
Qed.

Lemma optM_depth {S} (f : expr → M S expr) o s o' s' :
  (∀ x s y s', f x s = Ok (y, s') → expr_depth y = expr_depth x) →
  optM f o s = Ok (o', s') →
  from_option expr_depth 0 o' = from_option expr_depth 0 o.
Proof.
  intros Hf. destruct o as [x|]; simpl; [|by intros [= <- <-]].
  intros Hm. apply bind_Ok in Hm as (y & s1 & Hy & [= <- <-]).
  simpl. eauto.
Qed.

Lemma optM_not_Timeout {S} (f : expr → M S expr) o s :
  (∀ x, o = Some x → f x s ≠ Timeout) → optM f o s ≠ Timeout.
Proof.
  intros Hf. destruct o as [x|]; simpl; [|done].
  apply bind_not_Timeout; [by apply Hf | done].
Qed.

Lemma split_traverse_depth fuel alias :
  (∀ e cs e' cs',
     split_traverse H file fuel alias e cs = Ok (e', cs') →
     expr_depth e' = expr_depth e) ∧
  (∀ s cs s' cs',
     split_traverse_stmt H file fuel alias s cs = Ok (s', cs') →
     stmt_depth s' = stmt_depth s).
Proof.
  induction fuel as [|fuel [IHe IHs]]; [by split|].
  assert (∀ l cs l' cs',
    mapM (split_traverse H file fuel alias) l cs = Ok (l', cs') →
    max_list (expr_depth <$> l') = max_list (expr_depth <$> l)) as IHl.
  { intros l cs l' cs' Hm. apply max_list_fmap_Forall2.
    eapply mapM_Ok_Forall2; [|exact Hm]. intros x ? y ? _. apply IHe. }
  assert (∀ o cs o' cs',
    optM (split_traverse H file fuel alias) o cs = Ok (o', cs') →
    from_option expr_depth 0 o' = from_option expr_depth 0 o) as IHo.
  { intros o cs o' cs'. apply optM_depth, IHe. }
  split.
  - intros e cs e' cs' Hm. destruct e; simpl in Hm; inv_bind;
      try done.
    + simpl. by rewrite (IHe _ _ _ _ Ha), (IHe _ _ _ _ Ha0).
    + apply split_CallExpression_depth in Ha. rewrite <- Ha.
      destruct a; inv_bind; simpl; try done.
      by rewrite (IHe _ _ _ _ Ha0), (IHl _ _ _ _ Ha1).
    + simpl. f_equal. apply max_list_fmap_Forall2.
      eapply mapM_Ok_Forall2; [|exact Ha]. intros x ? y ? _. apply IHo.
    + simpl. rewrite (IHo _ _ _ _ Ha), (IHl _ _ _ _ Ha0). do 3 f_equal.
      apply max_list_fmap_Forall2.
      eapply mapM_Ok_Forall2; [|exact Ha1]. intros x ? y ? _. apply IHs.
  - intros s cs s' cs' Hm. destruct s; simpl in Hm; inv_bind; simpl.
    + by rewrite (IHe _ _ _ _ Ha).
    + by rewrite (IHe _ _ _ _ Ha), (IHo _ _ _ _ Ha0).
    + by rewrite (IHo _ _ _ _ Ha).
    + by rewrite (IHl _ _ _ _ Ha), (IHe _ _ _ _ Ha0).
Qed.

Lemma expr_depth_pos e : (1 ≤ expr_depth e)%nat.
Proof. destruct e; simpl; lia. Qed.

Lemma stmt_depth_pos s : (1 ≤ stmt_depth s)%nat.
Proof. destruct s; simpl; lia. Qed.

Lemma mapM_bounded_not_Timeout {S A} (d : A → nat) (f : A → M S A) l n s :
  (∀ x s, (d x ≤ n)%nat → f x s ≠ Timeout) →
  (max_list (d <$> l) ≤ n)%nat → mapM f l s ≠ Timeout.
Proof.
  intros Hf Hl. apply mapM_not_Timeout. intros x s1 Hx. apply Hf.
  etrans; [by apply max_list_elem_of|done].
Qed.

Lemma split_traverse_not_Timeout fuel alias :
  (∀ e cs, (expr_depth e ≤ fuel)%nat →
           split_traverse H file fuel alias e cs ≠ Timeout) ∧
  (∀ s cs, (stmt_depth s ≤ fuel)%nat →
           split_traverse_stmt H file fuel alias s cs ≠ Timeout).
Proof.
  induction fuel as [|fuel [IHe IHs]].
  { split; intros x ? Hd;
      [pose proof (expr_depth_pos x) | pose proof (stmt_depth_pos x)]; lia. }
  assert (∀ o cs, (from_option expr_depth 0 o ≤ fuel)%nat →
    optM (split_traverse H file fuel alias) o cs ≠ Timeout) as IHo.
  { intros o cs Ho. apply optM_not_Timeout. intros x ->. by apply IHe. }
  split.
  - intros e cs Hd. destruct e; simpl; try done.
    + simpl in Hd.
      apply bind_not_Timeout; [apply IHe; lia|]. intros.
      apply bind_not_Timeout; [apply IHe; lia|done].
    + apply bind_not_Timeout; [apply split_CallExpression_not_Timeout|].
      intros node cs1 Hv. apply split_CallExpression_depth in Hv.
      rewrite <- Hv in Hd. destruct node; try done. simpl in Hd.
      apply bind_not_Timeout; [apply IHe; lia|]. intros.
      apply bind_not_Timeout; [|done].
      eapply (mapM_bounded_not_Timeout expr_depth); [apply IHe|lia].
    + simpl in Hd. apply bind_not_Timeout; [|done].
      eapply (mapM_bounded_not_Timeout (from_option expr_depth 0));
        [apply IHo|lia].
    + simpl in Hd. apply bind_not_Timeout; [apply IHo; lia|]. intros.
      apply bind_not_Timeout;
        [eapply (mapM_bounded_not_Timeout expr_depth); [apply IHe|lia]|].
      intros. apply bind_not_Timeout; [|done].
      eapply (mapM_bounded_not_Timeout stmt_depth); [apply IHs|lia].
  - intros s cs Hd. destruct s; simpl in *.
    + apply bind_not_Timeout; [apply IHe; lia|done].
    + apply bind_not_Timeout; [apply IHe; lia|]. intros.
      apply bind_not_Timeout; [apply IHo; lia|done].
    + apply bind_not_Timeout; [apply IHo; lia|done].
    + apply bind_not_Timeout;
        [eapply (mapM_bounded_not_Timeout expr_depth); [apply IHe|lia]|].
      intros. apply bind_not_Timeout; [apply IHe; lia|done].
Qed.

(** *** The blocks of [processSplit] *)

Lemma split_name_Ok arguments st :
  ∃ name c,
    split_name H arguments st = Ok (name, set_this st c) ∧
    ( (∃ third, arguments !! 2%nat = Some third ∧
                type third = "StringLiteral" ∧
                name = get_value third ∧ c = this st)
      ∨ ((∀ third, arguments !! 2%nat = Some third →
                   type third ≠ "StringLiteral") ∧
         name = VString (toString (getNextUniqueID H (this st)).1) ∧
         c = (getNextUniqueID H (this st)).2) ).
Proof.
  unfold split_name, callNextUniqueID, bind, ret.
  destruct (arguments !! 2%nat) as [third|] eqn:E.
  - case_bool_decide as Hty.
    + exists (get_value third), (this st). split; [by destruct st|].
      left. eauto.
    + destruct (getNextUniqueID H (this st)) as [uid c] eqn:Eu.
      exists (VString (toString uid)), c. split; [done|]. right.
      split; [|done]. by intros ? [= <-].
  - destruct (getNextUniqueID H (this st)) as [uid c] eqn:Eu.
    exists (VString (toString uid)), c. split; [done|]. right.
    split; [|done]. done.
Qed.

Lemma set_this_set_this (s : state H) c c' :
  set_this (set_this s c) c' = set_this s c'.
Proof. done. Qed.

Lemma set_this_this (s : state H) : set_this s (this s) = s.
Proof. by destruct s. Qed.

Lemma split_elements_resolved es chunk s :
  mapM (split_element H file) (Some <$> es) (chunk, s)
  = match resolve_all H (filePath file) (get_value <$> es) (this s) with
    | Ok (requests, c) =>
        Ok (zip_with (λ e r, Some (set_value e (id_string r))) es requests,
            (FileChunk.make (FileChunk.name chunk)
               (FileChunk.entry chunk ++ requests)
               (FileChunk.imports chunk),
             set_this s c))
    | Throw e => Throw e
    | Timeout => Timeout
    end.
Proof.
  revert chunk s. induction es as [|e es IH]; intros chunk s.
  - simpl. unfold ret. rewrite app_nil_r, set_this_this. by destruct chunk.
  - rewrite !fmap_cons. unfold resolve_all in *. simpl.
    unfold bind, split_element, bind, lift, callImportRequest, push_entry,
      ret. simpl.
    destruct (getImportRequest H (get_value e) (filePath file) (this s))
      as [[request c]|err]; simpl; [|done].
    rewrite IH. simpl.
    destruct (mapM _ (get_value <$> es) c) as [[requests c']| |]; [|done..].
    by rewrite <- app_assoc.
Qed.

Lemma split_elements_Some elements cs r :
  mapM (split_element H file) elements cs = Ok r →
  ∃ es, elements = Some <$> es.
Proof.
  revert cs r. induction elements as [|[e|] elements IH]; intros cs r Hm.
  - by exists [].
  - simpl in Hm. inv_bind. destruct (IH _ _ Ha0) as [es ->].
    by exists (e :: es).
  - simpl in Hm. inv_bind. done.
Qed.

Lemma with_chunk_Ok {A} chunk (m : M (FileChunk.t * state H) A) s r s' :
  with_chunk H chunk m s = Ok (r, s') ↔ m (chunk, s) = Ok (r.1, (r.2, s')).
Proof.
  unfold with_chunk. destruct (m (chunk, s)) as [[a [chunk' s1]]| |];
    destruct r as [a' chunk'']; simpl; split; try done.
  - by intros [= -> -> ->].
  - by intros [= -> -> ->].
Qed.

Lemma with_chunk_not_Timeout {A} chunk (m : M (FileChunk.t * state H) A) s :
  m (chunk, s) ≠ Timeout → with_chunk H chunk m s ≠ Timeout.
Proof.
  unfold with_chunk. by destruct (m (chunk, s)) as [[a [chunk' s1]]| |].
Qed.

Lemma lift_not_Timeout {A} (m : M (state H) A) cs :
  m cs.2 ≠ Timeout → lift H m cs ≠ Timeout.
Proof. unfold lift. by destruct (m cs.2) as [[]| |]. Qed.

Lemma split_element_depth o cs o' cs' :
  split_element H file o cs = Ok (o', cs') →
  from_option expr_depth 0 o' = from_option expr_depth 0 o.
Proof.
  unfold split_element. destruct o as [e|]; [|done].
  intros Hm. inv_bind. simpl. apply set_value_depth.
Qed.

Lemma split_element_not_Timeout o cs :
  split_element H file o cs ≠ Timeout.
Proof.
  unfold split_element. destruct o as [e|]; [|done].
  apply bind_not_Timeout;
    [apply lift_not_Timeout, callImportRequest_not_Timeout|].
  intros. by apply bind_not_Timeout.
Qed.

Lemma split_entries_depth arguments cs arguments' cs' :
  split_entries H file arguments cs = Ok (arguments', cs') →
  max_list (expr_depth <$> arguments') = max_list (expr_depth <$> arguments).
Proof.
  unfold split_entries.
  destruct (arguments !! 0%nat) as [[| | | | | |elements v0|]|] eqn:E;
    try done.
  intros Hm. inv_bind.
  eapply max_list_fmap_insert; [done|]. simpl. f_equal.
  apply max_list_fmap_Forall2. eapply mapM_Ok_Forall2; [|exact Ha].
  intros x ? y ? _. apply split_element_depth.
Qed.

Lemma split_entries_not_Timeout arguments cs :
  split_entries H file arguments cs ≠ Timeout.
Proof.
  unfold split_entries.
  destruct (arguments !! 0%nat) as [[| | | | | |elements v0|]|]; try done.
  apply bind_not_Timeout; [|done].
  apply mapM_not_Timeout. intros. apply split_element_not_Timeout.
Qed.

Lemma split_callback_depth fuel arguments cs arguments' cs' :
  split_callback H file fuel arguments cs = Ok (arguments', cs') →
  max_list (expr_depth <$> arguments') = max_list (expr_depth <$> arguments).
Proof.
  unfold split_callback.
  destruct (arguments !! 1%nat) as [[| | | | | | |id [|param params] body v1]|]
    eqn:E; try (by intros [= <- <-]).
  intros Hm. inv_bind.
  eapply max_list_fmap_insert; [done|].
  by eapply (proj1 (split_traverse_depth _ _)).
Qed.

Lemma split_callback_not_Timeout fuel arguments cs :
  (max_list (expr_depth <$> arguments) ≤ fuel)%nat →
  split_callback H file fuel arguments cs ≠ Timeout.
Proof.
  intros Hd. unfold split_callback.
  destruct (arguments !! 1%nat) as [[| | | | | | |id [|param params] body v1]|]
    eqn:E; try done.
  apply bind_not_Timeout; [|done].
  apply split_traverse_not_Timeout.
  etrans; [by eapply (max_list_lookup expr_depth)|done].
Qed.

Lemma split_name_not_Timeout arguments st :
  split_name H arguments st ≠ Timeout.
Proof. by destruct (split_name_Ok arguments st) as (? & ? & -> & _). Qed.

Lemma processSplit_depth fuel node st node' st' :
  processSplit H file fuel node st = Ok (node', st') →
  expr_depth node' = expr_depth node.
Proof.
  unfold processSplit. destruct node as [| | | | |callee arguments v| |];
    try done.
  intros Hm. inv_bind. destruct a0 as [arguments' chunk].
  apply with_chunk_Ok in Ha0. inv_bind. simpl.
  repeat match goal with
    | Hx : split_entries _ _ _ _ = Ok _ |- _ =>
        apply split_entries_depth in Hx
    | Hx : split_callback _ _ _ _ _ = Ok _ |- _ =>
        apply split_callback_depth in Hx
    end.
  simpl in *. congruence.
Qed.

Lemma processSplit_not_Timeout fuel node st :
  (expr_depth node ≤ S fuel)%nat →
  processSplit H file fuel node st ≠ Timeout.
Proof.
  unfold processSplit. destruct node as [| | | | |callee arguments v| |];
    try done.
  simpl. intros Hd.
  apply bind_not_Timeout; [apply split_name_not_Timeout|]. intros.
  apply bind_not_Timeout; [|intros; by apply bind_not_Timeout].
  apply with_chunk_not_Timeout.
  apply bind_not_Timeout; [apply split_entries_not_Timeout|].
  intros arguments' cs1 He. apply split_callback_not_Timeout.
  apply split_entries_depth in He. lia.
Qed.

(** *** The main pass *)

Lemma processResolve_Ok node st node' st' :
  processResolve H file node st = Ok (node', st') ↔
  ∃ request c,
    getImportRequest H (get_value node) (filePath file) (this st)
    = inl (request, c) ∧
    node' = set_value node (id_string request) ∧
    st' = {| chunks := chunks st; imports := imports st ++ [request];
             this := c |}.
Proof.
  unfold processResolve, bind, callImportRequest, push_import, ret.
  destruct (getImportRequest H _ _ _) as [[request c]|err]; simpl; split.
  - intros [= <- <-]. eauto.
  - by intros (? & ? & [= <- <-] & -> & ->).
  - done.
  - by intros (? & ? & ? & _).
Qed.

Lemma processResolve_not_Timeout node st :
  processResolve H file node st ≠ Timeout.
Proof.
  unfold processResolve, bind, callImportRequest, push_import, ret.
  by destruct (getImportRequest H _ _ _) as [[request c]|err].
Qed.

Lemma processReplaceable_not_Timeout where_ node st :
  processReplaceable H where_ node st ≠ Timeout.
Proof.
  unfold processReplaceable. destruct (replaceVariables H !! _); [|done].
  destruct (getParsedReplacement H _); [|done].
  unfold replaceWith. destruct where_; [done|]. by destruct (admits _ _).
Qed.

Lemma revisit_unfold budget where_ node st :
  revisit H budget where_ node st
  = match node with
    | Identifier _ _ =>
        bind (processReplaceable H where_ node)
          (λ replaced,
             match replaced, budget with
             | None, _ => ret node
             | Some _, 0 =>
                 throw (RangeError "Maximum call stack size exceeded")
             | Some replacement, S budget =>
                 revisit H budget where_ replacement
             end) st
    | _ => Ok (node, st)
    end.
Proof. by destruct budget, node. Qed.

Lemma revisit_not_Timeout budget where_ :
  ∀ node st, revisit H budget where_ node st ≠ Timeout.
Proof.
  induction budget as [|budget IH]; intros node st; rewrite revisit_unfold;
    destruct node; try done.
  all: apply bind_not_Timeout; [apply processReplaceable_not_Timeout|].
  all: intros [replacement|] s1 _; [|done].
  - done.
  - apply IH.
Qed.

Lemma visit_replaceable_not_Timeout where_ node st :
  visit_replaceable H where_ node st ≠ Timeout.
Proof.
  unfold visit_replaceable.
  apply bind_not_Timeout; [apply processReplaceable_not_Timeout|].
  intros [replacement|] s1 _; [|done].
  apply bind_not_Timeout; [apply revisit_not_Timeout|done].
Qed.

Lemma visit_CallExpression_depth fuel scope node st node' st' :
  visit_CallExpression H file fuel scope node st = Ok (node', st') →
  expr_depth node' = expr_depth node.
Proof.
  unfold visit_CallExpression.
  destruct node as [| | | | |callee arguments v| |];
    try (by intros [= <- <-]).
  destruct (negb _); [by intros [= <- <-]|].
  destruct (arguments !! 0%nat) as [parameter|] eqn:E;
    [|by intros [= <- <-]].
  destruct (negb _); [by intros [= <- <-]|].
  destruct (_ && _); [by intros [= <- <-]|].
  destruct (has _ _); [apply processSplit_depth|].
  intros Hm. inv_bind. apply processResolve_Ok in Ha as (? & ? & _ & -> & _).
  simpl. by erewrite max_list_fmap_insert; [| |apply set_value_depth].
Qed.

Lemma visit_CallExpression_not_Timeout fuel scope node st :
  (expr_depth node ≤ S fuel)%nat →
  visit_CallExpression H file fuel scope node st ≠ Timeout.
Proof.
  intros Hd. unfold visit_CallExpression.
  destruct node as [| | | | |callee arguments v| |]; try done.
  destruct (negb _); [done|].
  destruct (arguments !! 0%nat) as [parameter|] eqn:E; [|done].
  destruct (negb _); [done|].
  destruct (_ && _); [done|].
  destruct (has _ _); [by apply processSplit_not_Timeout|].
  apply bind_not_Timeout; [apply processResolve_not_Timeout|done].
Qed.

Lemma traverse_not_Timeout fuel :
  (∀ scope where_ e st, (expr_depth e ≤ fuel)%nat →
                 traverse_expr H file fuel scope where_ e st ≠ Timeout) ∧
  (∀ scope s st, (stmt_depth s ≤ fuel)%nat →
                 traverse_stmt H file fuel scope s st ≠ Timeout).
Proof.
  induction fuel as [|fuel [IHe IHs]].
  { split; [intros ? ? x ? Hd; pose proof (expr_depth_pos x)
           |intros ? x ? Hd; pose proof (stmt_depth_pos x)]; lia. }
  assert (∀ scope where_ o st, (from_option expr_depth 0 o ≤ fuel)%nat →
    optM (traverse_expr H file fuel scope where_) o st ≠ Timeout) as IHo.
  { intros scope where_ o st Ho. apply optM_not_Timeout. intros x ->.
    by apply IHe. }
  split.
  - intros scope where_ e st Hd. destruct e; simpl; try done.
    + apply bind_not_Timeout; [apply visit_replaceable_not_Timeout|done].
    + simpl in Hd.
      apply bind_not_Timeout; [apply visit_replaceable_not_Timeout|].
      intros [replacement|] ? _; [done|].
      apply bind_not_Timeout; [apply IHe; lia|]. intros.
      apply bind_not_Timeout; [apply IHe; lia|done].
    + apply bind_not_Timeout; [by apply visit_CallExpression_not_Timeout|].
      intros node st1 Hv. apply visit_CallExpression_depth in Hv.
      rewrite <- Hv in Hd. destruct node; try done. simpl in Hd.
      apply bind_not_Timeout; [apply IHe; lia|]. intros.
      apply bind_not_Timeout; [|done].
      eapply (mapM_bounded_not_Timeout expr_depth); [apply IHe|lia].
    + simpl in Hd. apply bind_not_Timeout; [|done].
      eapply (mapM_bounded_not_Timeout (from_option expr_depth 0));
        [apply IHo|lia].
    + simpl in Hd. apply bind_not_Timeout; [apply IHo; lia|]. intros.
      apply bind_not_Timeout;
        [eapply (mapM_bounded_not_Timeout expr_depth); [apply IHe|lia]|].
      intros. apply bind_not_Timeout; [|done].
      eapply (mapM_bounded_not_Timeout stmt_depth); [apply IHs|lia].
  - intros scope s st Hd. destruct s; simpl in *.
    + apply bind_not_Timeout; [apply IHe; lia|done].
    + apply bind_not_Timeout; [apply IHe; lia|]. intros.
      apply bind_not_Timeout; [apply IHo; lia|done].
    + apply bind_not_Timeout; [apply IHo; lia|done].
    + apply bind_not_Timeout; [apply processResolve_not_Timeout|].
      intros source' st1 Hr.
      apply processResolve_Ok in Hr as (? & ? & _ & -> & _).
      apply bind_not_Timeout;
        [eapply (mapM_bounded_not_Timeout expr_depth); [apply IHe|lia]|].
      intros. apply bind_not_Timeout; [|done].
      apply IHe. rewrite set_value_depth. lia.
Qed.

(** The budget that [traverse] takes is enough: a whole pass returns or
    throws. *)
Lemma traverse_total ast st : traverse H file ast st ≠ Timeout.
Proof.
  unfold traverse.
  eapply (mapM_bounded_not_Timeout stmt_depth);
    [apply traverse_not_Timeout|].
  unfold program_depth. lia.
Qed.

Lemma loader_total config c : loader H file config c ≠ Timeout.
Proof.
  unfold loader. destruct (negb _); [done|].
  destruct (parse H _ _) as [ast|error]; [|by destruct (loc error)].
  pose proof (traverse_total ast {| chunks := []; imports := []; this := c |}).
  by destruct (traverse _ _ _ _) as [[]| |].
Qed.
End Walker.

(** ** The chunk extractor *)

Section Chunks.
Variable H : Host.
Variable file : File.

Lemma split_entries_Ok arguments chunk s arguments' cs' :
  split_entries H file arguments (chunk, s) = Ok (arguments', cs') →
  ∃ es v0 requests c,
    arguments !! 0%nat = Some (ArrayExpression (Some <$> es) v0) ∧
    resolve_all H (filePath file) (get_value <$> es) (this s)
    = Ok (requests, c) ∧
    arguments'
    = <[0%nat := ArrayExpression
          (zip_with (λ e r, Some (set_value e (id_string r))) es requests) v0]>
        arguments ∧
    cs' = (FileChunk.make (FileChunk.name chunk)
             (FileChunk.entry chunk ++ requests) (FileChunk.imports chunk),
           set_this s c).
Proof.
  unfold split_entries.
  destruct (arguments !! 0%nat) as [[| | | | | |elements v0|]|] eqn:E;
    try done.
  intros Hm. inv_bind.
  destruct (split_elements_Some _ _ _ _ _ Ha) as [es ->].
  rewrite split_elements_resolved in Ha.
  destruct (resolve_all _ _ _ _) as [[requests c]| |] eqn:Er; try done.
  injection Ha as <- <-. by exists es, v0, requests, c.
Qed.

Lemma frame_refl (cs : FileChunk.t * state H) : frame cs cs.
Proof. done. Qed.

Lemma frame_trans (cs1 cs2 cs3 : FileChunk.t * state H) :
  frame cs1 cs2 → frame cs2 cs3 → frame cs1 cs3.
Proof. intros (?&?&?&?) (?&?&?&?). repeat split; congruence. Qed.

Lemma callImportRequest_Ok raw from s request s' :
  callImportRequest H raw from s = Ok (request, s') ↔
  ∃ c, getImportRequest H raw from (this s) = inl (request, c) ∧
       s' = set_this s c.
Proof.
  unfold callImportRequest.
  destruct (getImportRequest H raw from (this s)) as [[r c]|err]; split.
  - intros [= -> <-]. eauto.
  - by intros (? & [= -> <-] & ->).
  - done.
  - by intros (? & ? & _).
Qed.

Lemma split_CallExpression_frame alias node cs node' cs' :
  split_CallExpression H file alias node cs = Ok (node', cs') → frame cs cs'.
Proof.
  unfold split_CallExpression.
  destruct node as [| | | | |callee arguments v| |];
    try (by intros [= <- <-]).
  case_bool_decide; [|by intros [= <- <-]].
  destruct (arguments !! 0%nat) as [argument|]; [|done].
  intros Hm. inv_bind.
  apply lift_Ok in Ha as (s1 & Hc & ->).
  apply callImportRequest_Ok in Hc as (c & _ & ->).
  unfold push_nested in Ha0. injection Ha0 as _ <-. done.
Qed.

Lemma split_traverse_frame fuel alias :
  (∀ e cs e' cs',
     split_traverse H file fuel alias e cs = Ok (e', cs') → frame cs cs') ∧
  (∀ s cs s' cs',
     split_traverse_stmt H file fuel alias s cs = Ok (s', cs') → frame cs cs').
Proof.
  induction fuel as [|fuel [IHe IHs]]; [by split|].
  assert (∀ l cs l' cs',
    mapM (split_traverse H file fuel alias) l cs = Ok (l', cs') →
    frame cs cs') as IHl.
  { intros l cs l' cs'. apply (mapM_preserves frame); [apply frame_refl|apply frame_trans|]. intros x ? y ? _.
    apply IHe. }
  assert (∀ o cs o' cs',
    optM (split_traverse H file fuel alias) o cs = Ok (o', cs') →
    frame cs cs') as IHo.
  { intros [x|] cs o' cs' Hm; simpl in Hm; inv_bind; [by eapply IHe|done]. }
  split.
  - intros e cs e' cs' Hm. destruct e; simpl in Hm; inv_bind; try done.
    + eapply frame_trans; [by eapply IHe|by eapply IHe].
    + apply split_CallExpression_frame in Ha. eapply frame_trans; [exact Ha|].
      destruct a; inv_bind; try done.
      eapply frame_trans; [by eapply IHe|by eapply IHl].
    + eapply (mapM_preserves frame); [apply frame_refl|apply frame_trans| |exact Ha]. intros x ? y ? _.
      apply IHo.
    + eapply frame_trans; [by eapply IHo|]. eapply frame_trans; [by eapply IHl|].
      eapply (mapM_preserves frame); [apply frame_refl|apply frame_trans| |done]. intros x ? y ? _.
      apply IHs.
  - intros s cs s' cs' Hm. destruct s; simpl in Hm; inv_bind.
    + by eapply IHe.
    + eapply frame_trans; [by eapply IHe|by eapply IHo].
    + by eapply IHo.
    + eapply frame_trans; [by eapply IHl|by eapply IHe].
Qed.

Lemma split_callback_frame fuel arguments cs arguments' cs' :
  split_callback H file fuel arguments cs = Ok (arguments', cs') →
  arguments' !! 0%nat = arguments !! 0%nat ∧ frame cs cs'.
Proof.
  unfold split_callback.
  destruct (arguments !! 1%nat) as [[| | | | | | |id [|param params] body v1]|]
    eqn:E; try (by intros [= <- <-]).
  intros Hm. inv_bind. split.
  - by rewrite list_lookup_insert_ne.
  - by eapply (proj1 (split_traverse_frame _ _)).
Qed.

Lemma split_name_spec arguments st :
  split_name H arguments st
  = Ok ((spec_chunk_name H arguments (this st)).1,
        set_this st (spec_chunk_name H arguments (this st)).2).
Proof.
  unfold split_name, spec_chunk_name, callNextUniqueID, bind, ret.
  destruct (arguments !! 2) as [third|].
  - case_bool_decide; [by destruct st|].
    by destruct (getNextUniqueID H (this st)).
  - by destruct (getNextUniqueID H (this st)).
Qed.

(** The extraction in closed form, for an array without hole. *)
Lemma processSplit_extraction fuel callee arguments v es v0 st :
  arguments !! 0 = Some (ArrayExpression (Some <$> es) v0) →
  processSplit H file fuel (CallExpression callee arguments v) st
  = chunk_extracted H file fuel callee arguments v es v0 st.
Proof.
  intros Harray. unfold processSplit, chunk_extracted.
  unfold bind at 1. rewrite split_name_spec.
  destruct (spec_chunk_name H arguments (this st)) as [name c0]. cbn [fst snd].
  unfold bind at 1, with_chunk, bind at 1, split_entries. rewrite Harray.
  unfold bind at 1. rewrite split_elements_resolved. cbn [this set_this].
  destruct (resolve_all H _ _ c0) as [[entries c]| |]; [|done..].
  unfold ret at 1. cbv beta iota. cbn [FileChunk.name FileChunk.entry
    FileChunk.imports app]. unfold rewritten_entries.
  change (set_this (set_this st c0) c) with (set_this st c).
  destruct (split_callback H file fuel _ _) as [[arguments' [chunk st']]| |]
    eqn:Hcb; [|done..].
  apply split_callback_frame in Hcb as (_ & Hn & He & Hc & Hi).
  unfold bind, push_chunk, ret. simpl in *.
  rewrite Hc, Hi. do 3 f_equal. destruct chunk; simpl in *. by subst.
Qed.


(** C5: wherever the loader rewrites a reference (the source of an import
    declaration and the argument of [require], [require.resolve] and
    [module.hot.*] through [processResolve], an element of the array of a
    chunk, the first argument of a call to the alias in a callback), the
    [value] of the node becomes the string [id.toString()] of the request
    just recorded, a [VString] and so never the number or the identifier
    itself. *)
Theorem rewritten_value_is_id_string :
  (∀ node st node' st',
     processResolve H file node st = Ok (node', st') →
     ∃ request,
       imports st' = imports st ++ [request] ∧
       get_value node' = VString (toString (FileImport.id request)))
  ∧ (∀ element cs element' cs',
       split_element H file (Some element) cs = Ok (element', cs') →
       ∃ request node',
         element' = Some node' ∧
         FileChunk.entry cs'.1 = FileChunk.entry cs.1 ++ [request] ∧
         get_value node' = VString (toString (FileImport.id request)))
  ∧ (∀ callee arguments v cs node' cs',
       split_CallExpression H file (get_name callee)
         (CallExpression callee arguments v) cs = Ok (node', cs') →
       ∃ request argument' arguments',
         node' = CallExpression callee arguments' v ∧
         arguments' !! 0 = Some argument' ∧
         FileChunk.imports cs'.1 = FileChunk.imports cs.1 ++ [request] ∧
         get_value argument' = VString (toString (FileImport.id request))).
Proof.
  split; [|split].
  - intros node st node' st' Hm.
    apply processResolve_Ok in Hm as (request & c & _ & -> & ->).
    exists request. split; [done|]. by destruct node.
  - intros element cs element' cs' Hm. unfold split_element in Hm. inv_bind.
    match goal with
    | Hx : push_entry _ _ _ = Ok _ |- _ =>
        unfold push_entry in Hx; injection Hx as _ <-
    end.
    match goal with
    | Hx : lift _ _ _ = Ok _ |- _ => apply lift_Ok in Hx as (? & _ & ->)
    end.
    eexists _, _. split; [done|]. split; [done|]. by destruct element.
  - intros callee arguments v cs node' cs' Hm.
    unfold split_CallExpression in Hm.
    rewrite bool_decide_eq_true_2 in Hm by done.
    destruct (arguments !! 0) as [argument|] eqn:Harg; [|done]. inv_bind.
    match goal with
    | Hx : push_nested _ _ _ = Ok _ |- _ =>
        unfold push_nested in Hx; injection Hx as _ <-
    end.
    match goal with
    | Hx : lift _ _ _ = Ok _ |- _ => apply lift_Ok in Hx as (? & _ & ->)
    end.
    eexists _, _, _. split; [done|]. split.
    { apply list_lookup_insert_eq. by eapply lookup_lt_Some. }
    split; [done|]. by destruct argument.
Qed.

(** C10 (amended): the chunk extractor checks no type.  An element of the
    array and the first argument of a call to the alias, of whatever type,
    are handed to the resolver through their [value]: with [raw] the value
    of the node, the resolver is called on [raw], its failure propagates,
    and on success the request is recorded and the string of its identifier
    is assigned to the [value] of the node.  A node that is not a literal
    carries no value as the parser builds it, so for such a node [raw] is
    [VUndefined]. *)
Theorem split_resolves_undefined :
  (∀ element raw cs,
     get_value element = raw →
     split_element H file (Some element) cs
     = match getImportRequest H raw (filePath file) (this cs.2) with
       | inl (request, c) =>
           Ok (Some (set_value element (id_string request)),
               (add_entries cs.1 [request], set_this cs.2 c))
       | inr e => Throw e
       end)
  ∧ (∀ callee argument rest raw v cs,
       get_value argument = raw →
       split_CallExpression H file (get_name callee)
         (CallExpression callee (argument :: rest) v) cs
       = match getImportRequest H raw (filePath file) (this cs.2) with
         | inl (request, c) =>
             Ok (CallExpression callee
                   (set_value argument (id_string request) :: rest) v,
                 (add_imports cs.1 [request], set_this cs.2 c))
         | inr e => Throw e
         end).
Proof.
  split.
  - intros element raw cs Hv.
    unfold split_element, bind, lift, callImportRequest, push_entry, ret.
    rewrite Hv. by destruct (getImportRequest H _ _ _) as [[request c]|e].
  - intros callee argument rest raw v cs Hv.
    unfold split_CallExpression.
    rewrite bool_decide_eq_true_2 by done. simpl.
    unfold bind, lift, callImportRequest, push_nested, ret.
    rewrite Hv. by destruct (getImportRequest H _ _ _) as [[request c]|e].
Qed.
End Chunks.

(** ** The guards of the [CallExpression] visitor *)

Lemma has_RESOLVE_NAMES name :
  has RESOLVE_NAMES name = true ↔
  name = "require" ∨ name = "require.ensure" ∨ name = "require.resolve" ∨
  name = "module.hot.accept" ∨ name = "module.hot.decline".
Proof.
  unfold has, RESOLVE_NAMES.
  rewrite bool_decide_eq_true, !elem_of_union, !elem_of_singleton. tauto.
Qed.

Lemma has_SENSITIVE name :
  has RESOLVE_NAMES_SENSITIVE name = true ↔
  name = "require" ∨ name = "require.resolve".
Proof.
  unfold has, RESOLVE_NAMES_SENSITIVE.
  rewrite bool_decide_eq_true, !elem_of_union, !elem_of_singleton. tauto.
Qed.

Lemma has_CHUNK name :
  has RESOLVE_NAMES_CHUNK name = true ↔ name = "require.ensure".
Proof.
  unfold has, RESOLVE_NAMES_CHUNK.
  by rewrite bool_decide_eq_true, elem_of_singleton.
Qed.

Section Guards.
Variable H : Host.
Variable file : File.

Lemma processResolve_call callee arguments v parameter st :
  bind (processResolve H file parameter)
    (λ parameter',
       ret (CallExpression callee (<[0%nat := parameter']> arguments) v)) st
  = call_resolved H file callee arguments v parameter st.
Proof.
  unfold call_resolved, bind, processResolve, bind, callImportRequest,
    push_import, ret, id_string.
  by destruct (getImportRequest H _ _ _) as [[request c]|e].
Qed.

(** C1 (amended): what the [CallExpression] visitor of the main pass makes
    of a call to a recognised name whose first argument has the demanded
    type.  A call to [require] or [require.resolve] (string literal first)
    is returned as it is, with the state as it is, when [require] is bound
    in the scope of the call, and has its argument resolved otherwise: the
    request is recorded as an import of the file and the argument carries
    the string of its identifier.  A call to [module.hot.accept] or
    [module.hot.decline] (string literal first) has its argument resolved
    in that way whatever the scope binds, and a call to [require.ensure]
    (array literal first) is extracted as a chunk whatever the scope
    binds. *)
Theorem scope_guard_sensitive_only fuel scope callee arguments v parameter st :
  arguments !! 0%nat = Some parameter →
  let node := CallExpression callee arguments v in
  ((getName callee = "require" ∨ getName callee = "require.resolve") →
   type parameter = "StringLiteral" →
   visit_CallExpression H file fuel scope node st
   = if hasBinding scope "require" then Ok (node, st)
     else call_resolved H file callee arguments v parameter st)
  ∧ ((getName callee = "module.hot.accept" ∨
      getName callee = "module.hot.decline") →
     type parameter = "StringLiteral" →
     visit_CallExpression H file fuel scope node st
     = call_resolved H file callee arguments v parameter st)
  ∧ (getName callee = "require.ensure" →
     ∀ es v0, parameter = ArrayExpression (Some <$> es) v0 →
     visit_CallExpression H file fuel scope node st
     = chunk_extracted H file fuel callee arguments v es v0 st).
Proof.
  intros Harg node. unfold node, visit_CallExpression. rewrite Harg.
  split; [|split].
  - intros Hname Hty.
    assert (has RESOLVE_NAMES (getName callee) = true) as ->
      by (apply has_RESOLVE_NAMES; tauto).
    assert (has RESOLVE_NAMES_SENSITIVE (getName callee) = true) as ->
      by (apply has_SENSITIVE; tauto).
    rewrite Hty. destruct (hasBinding scope "require"); simpl.
    + by destruct Hname as [-> | ->].
    + destruct Hname as [-> | ->]; simpl; apply processResolve_call.
  - intros Hname Hty. rewrite Hty.
    destruct Hname as [-> | ->]; simpl; apply processResolve_call.
  - intros -> es v0 ->. simpl.
    by apply processSplit_extraction.
Qed.

(** C2 (amended): a call to a recognised name that the [CallExpression]
    visitor of the main pass is given, and whose first argument is missing
    or has not the demanded type (an array literal for [require.ensure], a
    string literal for the others), is returned as it is: the node and the
    state (imports, chunks, context) are unchanged and nothing is thrown. *)
Theorem shape_mismatch_ignored fuel scope callee arguments v st :
  has RESOLVE_NAMES (getName callee) = true →
  (arguments !! 0%nat = None ∨
   ∃ parameter, arguments !! 0%nat = Some parameter ∧
                type parameter ≠ expected_type (getName callee)) →
  visit_CallExpression H file fuel scope (CallExpression callee arguments v) st
  = Ok (CallExpression callee arguments v, st).
Proof.
  intros Hname Hshape. unfold visit_CallExpression. rewrite Hname. simpl.
  destruct Hshape as [-> | (parameter & -> & Hty)]; [done|].
  fold (expected_type (getName callee)).
  by rewrite (bool_decide_eq_false_2 _ Hty).
Qed.
End Guards.

Lemma scope_guard_sensitive_only_witness :
  visit_CallExpression Demo.host (Demo.file "") 0 ["require"]
    (Demo.call (Demo.ident "require") [Demo.str "z"])
    (Demo.start Demo.host 0%Z)
  = Ok (Demo.call (Demo.ident "require") [Demo.str "z"],
        Demo.start Demo.host 0%Z)
  ∧ visit_CallExpression Demo.host (Demo.file "") 0 []
      (Demo.call (Demo.ident "require") [Demo.str "z"])
      (Demo.start Demo.host 0%Z)
    = Ok (Demo.call (Demo.ident "require") [Demo.str "1"],
          Build_state Demo.host []
            [FileImport.make (IdNumber 1) (VString "z") "/app/index.js"] 1%Z)
  ∧ visit_CallExpression Demo.host (Demo.file "") 0 ["require"]
      (Demo.call
         (Demo.member (Demo.member (Demo.ident "module") "hot") "accept")
         [Demo.str "z"])
      (Demo.start Demo.host 0%Z)
    = Ok (Demo.call
            (Demo.member (Demo.member (Demo.ident "module") "hot") "accept")
            [Demo.str "1"],
          Build_state Demo.host []
            [FileImport.make (IdNumber 1) (VString "z") "/app/index.js"] 1%Z)
  ∧ visit_CallExpression Demo.host (Demo.file "") 0 ["require"]
      (Demo.call Demo.ensure_callee [Demo.array [Demo.str "z"]])
      (Demo.start Demo.host 0%Z)
    = Ok (Demo.call Demo.ensure_callee [Demo.array [Demo.str "2"]],
          Build_state Demo.host
            [FileChunk.make (VString "1")
               [FileImport.make (IdNumber 2) (VString "z") "/app/index.js"]
               []]
            [] 2%Z).
Proof.
  split; [|split; [|split]].
  - etrans.
    + apply (proj1 (scope_guard_sensitive_only Demo.host (Demo.file "") 0
                      ["require"] (Demo.ident "require") [Demo.str "z"]
                      VUndefined (Demo.str "z") (Demo.start Demo.host 0%Z)
                      eq_refl)); [left|]; reflexivity.
    + vm_compute. reflexivity.
  - etrans.
    + apply (proj1 (scope_guard_sensitive_only Demo.host (Demo.file "") 0
                      [] (Demo.ident "require") [Demo.str "z"]
                      VUndefined (Demo.str "z") (Demo.start Demo.host 0%Z)
                      eq_refl)); [left|]; reflexivity.
    + vm_compute. reflexivity.
  - etrans.
    + apply (proj1 (proj2 (scope_guard_sensitive_only Demo.host
                             (Demo.file "") 0 ["require"]
                             (Demo.member
                                (Demo.member (Demo.ident "module") "hot")
                                "accept")
                             [Demo.str "z"] VUndefined (Demo.str "z")
                             (Demo.start Demo.host 0%Z) eq_refl)));
        [left|]; reflexivity.
    + vm_compute. reflexivity.
  - etrans.
    + apply (proj2 (proj2 (scope_guard_sensitive_only Demo.host
                             (Demo.file "") 0 ["require"]
                             Demo.ensure_callee [Demo.array [Demo.str "z"]]
                             VUndefined (Demo.array [Demo.str "z"])
                             (Demo.start Demo.host 0%Z) eq_refl))
               eq_refl [Demo.str "z"] VUndefined).
      reflexivity.
    + vm_compute. reflexivity.
Defined.

Lemma shape_mismatch_ignored_witness :
  visit_CallExpression Demo.host (Demo.file "") 0 []
    (Demo.call (Demo.member (Demo.ident "require") "ensure")
       [Demo.str "a"])
    (Demo.start Demo.host 0%Z)
  = Ok (Demo.call (Demo.member (Demo.ident "require") "ensure")
          [Demo.str "a"],
        Demo.start Demo.host 0%Z).
Proof.
  apply (shape_mismatch_ignored Demo.host (Demo.file "") 0 []
           (Demo.member (Demo.ident "require") "ensure") [Demo.str "a"]
           VUndefined (Demo.start Demo.host 0%Z)).
  - vm_compute. reflexivity.
  - right. exists (Demo.str "a"). split; [reflexivity|].
    vm_compute. discriminate.
Defined.

(** ** Parse failures *)

Section ParseFailures.
Variable H : Host.
Variable file : File.

(** C8: when the file is eligible and the parser fails, the loader throws
    and returns no result: a [FileIssue] with the contents of the file, the
    line, the column plus one, the parser's message followed by the
    relative path of the file and the severity ["error"] when the error has
    a location, and a [MessageIssue] with the same message and severity
    when it has none. *)
Theorem parse_failure_is_reported config error c :
  shouldProcess H (rootDirectory H) (filePath file) config = true →
  parse H (contents file) (filePath file) = ParseFailure error →
  let errorMessage :=
    message error +:+ " in " +:+
    getRelativeFilePath H (filePath file) (rootDirectory H) in
  loader H file config c
  = Throw (match loc error with
           | Some l =>
               FileIssue (contents file) (line l) (column l + 1)
                 errorMessage "error"
           | None => MessageIssue errorMessage "error"
           end).
Proof.
  intros Hshould Hparse. unfold loader. rewrite Hshould, Hparse. simpl.
  by destruct (loc error).
Qed.
End ParseFailures.

Lemma parse_failure_is_reported_witness :
  loader Demo.host (Demo.file "require('a") tt 0%Z
  = Throw (FileIssue "require('a" 1 9
             "Unterminated string constant (1:8) in /app/index.js" "error").
Proof.
  exact (parse_failure_is_reported Demo.host (Demo.file "require('a") tt
           {| message := "Unterminated string constant (1:8)";
              loc := Some {| line := 1; column := 8 |} |} 0%Z
           eq_refl eq_refl).
Defined.

(** ** Files without dependency syntax *)

Section PlainFiles.
Variable H : Host.
Variable file : File.

Lemma processReplaceable_unnamed where_ node st :
  unnamed H node = true → processReplaceable H where_ node st = Ok (None, st).
Proof.
  unfold unnamed, processReplaceable. intros Hn.
  apply bool_decide_eq_true in Hn. by rewrite Hn.
Qed.

Lemma visit_replaceable_unnamed where_ node st :
  unnamed H node = true → visit_replaceable H where_ node st = Ok (None, st).
Proof.
  intros Hn. unfold visit_replaceable, bind.
  by rewrite processReplaceable_unnamed.
Qed.

Lemma traverse_plain fuel :
  (∀ scope where_ e st, plain_expr H e = true → expr_depth e ≤ fuel →
                 traverse_expr H file fuel scope where_ e st = Ok (e, st)) ∧
  (∀ scope s st, plain_stmt H s = true → stmt_depth s ≤ fuel →
                 traverse_stmt H file fuel scope s st = Ok (s, st)).
Proof.
  induction fuel as [|fuel [IHe IHs]].
  { split; [intros ? ? x ? _ Hd; pose proof (expr_depth_pos x)
           |intros ? x ? _ Hd; pose proof (stmt_depth_pos x)]; lia. }
  assert (∀ scope where_ l st, forallb (plain_expr H) l = true →
    max_list (expr_depth <$> l) ≤ fuel →
    mapM (traverse_expr H file fuel scope where_) l st = Ok (l, st)) as IHl.
  { intros scope where_ l st Hp Hd. apply mapM_id. intros x Hx. apply IHe.
    - by eapply forallb_elem_of.
    - etrans; [by apply max_list_elem_of|done]. }
  assert (∀ scope where_ o st, from_option (plain_expr H) true o = true →
    from_option expr_depth 0 o ≤ fuel →
    optM (traverse_expr H file fuel scope where_) o st = Ok (o, st)) as IHo.
  { intros scope where_ o st Hp Hd. apply optM_id. intros x ->. by apply IHe. }
  split.
  - intros scope where_ e st Hp Hd.
    destruct e; simpl in Hp, Hd; simpl; try done.
    + unfold bind. by rewrite visit_replaceable_unnamed.
    + apply andb_prop in Hp as [Hp Hp2]. apply andb_prop in Hp as [Hn Hp1].
      unfold bind. rewrite visit_replaceable_unnamed by done. simpl.
      rewrite IHe by (done || lia). by rewrite IHe by (done || lia).
    + apply andb_prop in Hp as [Hp Hp2]. apply andb_prop in Hp as [Hn Hp1].
      apply negb_true_iff in Hn.
      unfold bind, visit_CallExpression. rewrite Hn. simpl.
      rewrite IHe by (done || lia). by rewrite IHl by (done || lia).
    + unfold bind. rewrite mapM_id; [done|]. intros o Ho. apply IHo.
      * by eapply forallb_elem_of.
      * etrans; [by apply (max_list_elem_of (from_option expr_depth 0))|lia].
    + apply andb_prop in Hp as [Hp Hp3]. apply andb_prop in Hp as [Hp1 Hp2].
      unfold bind. rewrite IHo by (done || lia).
      rewrite IHl by (done || lia). rewrite mapM_id; [done|].
      intros s Hs. apply IHs.
      * by eapply forallb_elem_of.
      * etrans; [by apply (max_list_elem_of stmt_depth)|lia].
  - intros scope s st Hp Hd. destruct s; simpl in Hp, Hd; simpl; try done.
    + unfold bind. by rewrite IHe by (done || lia).
    + apply andb_prop in Hp as [Hp1 Hp2]. unfold bind.
      rewrite IHe by (done || lia). by rewrite IHo by (done || lia).
    + unfold bind. by rewrite IHo by (done || lia).
Qed.

Lemma traverse_plain_program ast st :
  forallb (plain_stmt H) ast = true → traverse H file ast st = Ok (ast, st).
Proof.
  intros Hp. unfold traverse. apply mapM_id. intros s Hs.
  apply traverse_plain.
  - by eapply forallb_elem_of.
  - unfold program_depth. pose proof (max_list_elem_of stmt_depth ast s Hs).
    lia.
Qed.

(** C9 (amended): on an eligible file whose tree has no import
    declaration, no call to a recognised name and no name of the
    replacement table, the loader returns no import, no chunk, the context
    as it was, and the code and the map that the generator gives for the
    tree as parsed. *)
Theorem plain_file_passes_through config ast c :
  shouldProcess H (rootDirectory H) (filePath file) config = true →
  parse H (contents file) (filePath file) = Parsed ast →
  forallb (plain_stmt H) ast = true →
  loader H file config c
  = Ok (Some {| result_chunks := [];
                result_imports := [];
                result_contents := (generate H ast (filePath file)).1;
                result_sourceMap := (generate H ast (filePath file)).2 |}, c).
Proof.
  intros Hshould Hparse Hplain. unfold loader.
  rewrite Hshould, Hparse. simpl. by rewrite traverse_plain_program.
Qed.
End PlainFiles.

(** ** Static imports *)

Section Imports.
Variable H : Host.
Variable file : File.

Lemma processReplaceable_state where_ node st r st' :
  processReplaceable H where_ node st = Ok (r, st') → st' = st.
Proof.
  unfold processReplaceable. destruct (replaceVariables H !! _).
  - destruct (getParsedReplacement H _); [|done]. unfold replaceWith.
    destruct where_; [by intros [= _ <-]|].
    destruct (admits _ _); [by intros [= _ <-]|done].
  - by intros [= _ <-].
Qed.

Lemma revisit_state budget where_ :
  ∀ node st r st', revisit H budget where_ node st = Ok (r, st') → st' = st.
Proof.
  induction budget as [|budget IH]; intros node st r st';
    rewrite revisit_unfold; destruct node; try (by intros [= _ <-]).
  all: intros Hm; apply bind_Ok in Hm as (replaced & s1 & Hp & Hm).
  all: apply processReplaceable_state in Hp as ->.
  all: destruct replaced as [replacement|]; [|by injection Hm as _ <-].
  - done.
  - by eapply IH.
Qed.

Lemma visit_replaceable_state where_ node st r st' :
  visit_replaceable H where_ node st = Ok (r, st') → st' = st.
Proof.
  unfold visit_replaceable. intros Hm.
  apply bind_Ok in Hm as (replaced & s1 & Hp & Hm).
  apply processReplaceable_state in Hp as ->.
  destruct replaced as [replacement|]; [|by injection Hm as _ <-].
  apply bind_Ok in Hm as (final & s2 & Hr & Hm).
  apply revisit_state in Hr as ->. by injection Hm as _ <-.
Qed.

Lemma traverse_specifiers fuel scope where_ names st l' st' :
  mapM (traverse_expr H file fuel scope where_)
    ((λ name, Identifier name VUndefined) <$> names) st = Ok (l', st') →
  st' = st.
Proof.
  intros Hm. symmetry. revert Hm. apply (mapM_preserves eq); [done|congruence|].
  intros x s y s' Hx Hv. apply list_elem_of_fmap in Hx as (name & -> & _).
  destruct fuel as [|fuel]; [done|]. simpl in Hv. inv_bind.
  symmetry. by eapply visit_replaceable_state.
Qed.

Lemma traverse_import_declarations fuel scope decls :
  ∀ st ast' st',
    mapM (traverse_stmt H file fuel scope) (import_declaration <$> decls) st
    = Ok (ast', st') →
    ∃ requests,
      resolve_all H (filePath file) (VString <$> decls.*2) (this st)
      = Ok (requests, this st') ∧
      imports st' = imports st ++ requests ∧
      chunks st' = chunks st ∧
      Forall2 (λ s r, ∃ specifiers,
                 s = ImportDeclaration specifiers (StringLiteral (id_string r)))
        ast' requests.
Proof.
  induction decls as [|[names source] decls IH]; intros st ast' st' Hm.
  - simpl in Hm. inv_bind. exists []. by rewrite app_nil_r.
  - rewrite fmap_cons in Hm. simpl in Hm. inv_bind.
    destruct fuel as [|fuel']; [done|].
    match goal with
    | Hx : traverse_stmt _ _ _ _ _ _ = Ok _ |- _ =>
        simpl in Hx; inv_bind
    end.
    match goal with
    | Hx : processResolve _ _ _ _ = Ok _ |- _ =>
        apply processResolve_Ok in Hx as (request & c & Hreq & -> & ->)
    end.
    match goal with
    | Hx : mapM (traverse_expr _ _ _ _ _) _ _ = Ok _ |- _ =>
        apply traverse_specifiers in Hx as ->
    end.
    match goal with
    | Hx : traverse_expr _ _ _ _ _ _ _ = Ok _ |- _ =>
        destruct fuel' as [|fuel'']; [done|]; simpl in Hx;
        injection Hx as <- <-
    end.
    match goal with
    | Hx : mapM (traverse_stmt _ _ _ _) _ _ = Ok _ |- _ =>
        apply IH in Hx as (requests & Hres & Hi & Hc & Hf)
    end.
    simpl in Hres, Hi, Hc, Hreq. exists (request :: requests). repeat split.
    + unfold resolve_all in *. simpl. unfold bind at 1. rewrite Hreq. simpl.
      apply bind_Ok. exists requests, (this s0). split; [exact Hres|done].
    + by rewrite Hi, <- app_assoc.
    + done.
    + constructor; [by eexists|done].
Qed.

(** C7 (amended): on a file of import declarations only, the pass returns or
    throws; when it returns, the imports recorded are the requests that
    resolving the sources in the order of the declarations gives, one per
    declaration, no chunk is recorded, and the source of each declaration
    is the string of the identifier of its request. *)
Theorem static_imports_in_order decls st :
  imports_recorded H file decls st
    (traverse H file (import_declaration <$> decls) st).
Proof.
  unfold imports_recorded.
  destruct (traverse _ _ _ _) as [[ast' st']| |] eqn:Hm; [|done|].
  2: { by eapply traverse_total. }
  apply traverse_import_declarations in Hm as (requests & Hres & ? & ? & ?).
  exists requests. repeat split; try done.
  apply resolve_all_length in Hres. by rewrite Hres, !length_fmap.
Qed.
End Imports.

(** ** The nested pass refines its specification *)

Lemma bind_map_result {S A A' B B'} (h : A → A') (g : B → B')
    (m : M S A) (m' : M S A') (k : A → M S B) (k' : A' → M S B') s :
  m' s = map_result h (m s) →
  (∀ a s, k' (h a) s = map_result g (k a s)) →
  bind m' k' s = map_result g (bind m k s).
Proof.
  unfold bind. intros -> Hk. destruct (m s) as [[a s1]| |]; simpl; [|done..].
  apply Hk.
Qed.

Lemma bind_map_result_r {S A B B'} (g : B → B')
    (m : M S A) (k : A → M S B) (k' : A → M S B') s :
  (∀ a s, k' a s = map_result g (k a s)) →
  bind m k' s = map_result g (bind m k s).
Proof.
  unfold bind. intros Hk. destruct (m s) as [[a s1]| |]; simpl; [|done..].
  apply Hk.
Qed.

Section Refinement.
Variable H : Host.
Variable file : File.
Variable alias : string.

Local Abbreviation resolved := (resolved H file).
Local Abbreviation refines := (refines H file).

(** The nested pass commutes with an assignment to the [value] of the node
    it starts from. *)
Lemma split_traverse_set_value fuel al a x cs :
  split_traverse H file fuel al (set_value a x) cs
  = map_result (λ a', set_value a' x) (split_traverse H file fuel al a cs).
Proof.
  destruct fuel as [|fuel]; [done|].
  destruct a; simpl; try done.
  - apply bind_map_result_r. intros. by apply bind_map_result_r.
  - eapply (bind_map_result (λ a', set_value a' x)).
    + unfold split_CallExpression. case_bool_decide; [|done].
      destruct (arguments !! 0); [|done].
      apply bind_map_result_r. intros. by apply bind_map_result_r.
    + intros [] ?; simpl; try done.
      apply bind_map_result_r. intros. by apply bind_map_result_r.
  - by apply bind_map_result_r.
  - apply bind_map_result_r. intros.
    apply bind_map_result_r. intros. by apply bind_map_result_r.
Qed.

Lemma resolved_nil cs : resolved [] cs cs [].
Proof.
  exists (this cs.2). split; [done|]. destruct cs as [[] []].
  unfold add_imports, set_this. simpl. by rewrite app_nil_r.
Qed.

Lemma resolved_app raws1 raws2 cs cs1 cs2 requests1 requests2 :
  resolved raws1 cs cs1 requests1 → resolved raws2 cs1 cs2 requests2 →
  resolved (raws1 ++ raws2) cs cs2 (requests1 ++ requests2).
Proof.
  intros (c1 & Hr1 & ->) (c2 & Hr2 & ->). simpl in *. exists c2. split.
  - revert requests1 c1 Hr1 Hr2. generalize (this cs.2).
    unfold resolve_all.
    induction raws1 as [|raw raws1 IH]; intros c requests1 c1 Hr1 Hr2.
    + by injection Hr1 as <- <-.
    + simpl in Hr1. inv_bind. simpl. apply bind_Ok. eexists _, _.
      split; [done|]. apply bind_Ok. eexists _, _. split; [by eapply IH|done].
  - unfold add_imports. simpl. by rewrite <- app_assoc.
Qed.

Lemma resolved_one raw cs request c :
  getImportRequest H raw (filePath file) (this cs.2) = inl (request, c) →
  resolved [raw] cs (add_imports cs.1 [request], set_this cs.2 c) [request].
Proof.
  intros Hr. exists c. split; [|done].
  unfold resolve_all. simpl. unfold bind. by rewrite Hr.
Qed.

Lemma refines_mapM {A} (run : A → M (FileChunk.t * state H) A) raws rewrite :
  refines run raws rewrite →
  refines (mapM run) (λ l, mjoin (raws <$> l)) (thread rewrite).
Proof.
  intros Hr l. induction l as [|x l IH]; intros cs l' cs' Hm.
  - injection Hm as <- <-. exists []. split; [apply resolved_nil|done].
  - simpl in Hm. inv_bind.
    match goal with
    | Hx : run _ _ = Ok _ |- _ => apply Hr in Hx as (requests1 & Hres1 & Hrw1)
    end.
    match goal with
    | Hx : mapM run _ _ = Ok _ |- _ =>
        apply IH in Hx as (requests2 & Hres2 & Hrw2)
    end.
    exists (requests1 ++ requests2). split.
    + rewrite fmap_cons. simpl. by eapply resolved_app.
    + intros rest. simpl. rewrite fmap_app, <- app_assoc, Hrw1.
      by rewrite Hrw2.
Qed.

Lemma refines_optM {A} (run : A → M (FileChunk.t * state H) A) raws rewrite :
  refines run raws rewrite →
  refines (optM run) (from_option raws []) (thread_opt rewrite).
Proof.
  intros Hr [x|] cs o' cs' Hm; simpl in Hm; inv_bind.
  - match goal with
    | Hx : run _ _ = Ok _ |- _ => apply Hr in Hx as (requests & Hres & Hrw)
    end.
    exists requests. split; [done|]. intros rest. simpl. by rewrite Hrw.
  - exists []. split; [apply resolved_nil|done].
Qed.

Lemma map_result_Ok {S A B} (g : A → B) (r : result (A * S)) b s :
  map_result g r = Ok (b, s) → ∃ a, r = Ok (a, s) ∧ b = g a.
Proof. destruct r as [[a s']| |]; [|done..]. intros [= <- <-]. eauto. Qed.

Lemma mapM_set_first fuel al a x rest cs l' cs' :
  mapM (split_traverse H file fuel al) (set_value a x :: rest) cs
  = Ok (l', cs') →
  ∃ l'', mapM (split_traverse H file fuel al) (a :: rest) cs = Ok (l'', cs') ∧
         l' = set_first_value l'' x.
Proof.
  simpl. intros Hm. inv_bind.
  match goal with
  | Hx : split_traverse _ _ _ _ (set_value _ _) _ = Ok _ |- _ =>
      rewrite split_traverse_set_value in Hx;
      apply map_result_Ok in Hx as (a' & Ha' & ->)
  end.
  exists (a' :: a1). split; [|done]. apply bind_Ok. eexists _, _. split; [done|].
  apply bind_Ok. eexists _, _. split; [done|]. done.
Qed.

Lemma is_alias_call_true callee :
  get_name callee = Some alias → is_alias_call alias callee = true.
Proof. intros. by apply bool_decide_eq_true_2. Qed.

Lemma is_alias_call_false callee :
  get_name callee ≠ Some alias → is_alias_call alias callee = false.
Proof. intros. by apply bool_decide_eq_false_2. Qed.

Lemma spec_alias_requests_call callee arguments v :
  spec_alias_requests alias (CallExpression callee arguments v)
  = (if is_alias_call alias callee
     then from_option (λ a, [get_value a]) [] (arguments !! 0) else [])
    ++ spec_alias_requests alias callee
    ++ mjoin (spec_alias_requests alias <$> arguments).
Proof. done. Qed.

Lemma spec_rewrite_alias_call_alias callee arguments v assigned ids :
  is_alias_call alias callee = true → arguments ≠ [] →
  spec_rewrite_alias alias (CallExpression callee arguments v) (assigned :: ids)
  = let '(callee', ids) := spec_rewrite_alias alias callee ids in
    let '(arguments', ids) :=
      thread (spec_rewrite_alias alias) arguments ids in
    (CallExpression callee' (set_first_value arguments' assigned) v, ids).
Proof. intros Ha Hn. cbn [spec_rewrite_alias]. rewrite Ha. by destruct arguments. Qed.

Lemma spec_rewrite_alias_call_other callee arguments v ids :
  is_alias_call alias callee = false →
  spec_rewrite_alias alias (CallExpression callee arguments v) ids
  = let '(callee', ids) := spec_rewrite_alias alias callee ids in
    let '(arguments', ids) :=
      thread (spec_rewrite_alias alias) arguments ids in
    (CallExpression callee' arguments' v, ids).
Proof. intros Ha. cbn [spec_rewrite_alias]. by rewrite Ha. Qed.

Ltac solve_resolved :=
  first [ eassumption
        | apply resolved_nil
        | eapply resolved_app; [eassumption|solve_resolved] ].

Ltac solve_rewritten :=
  intros; rewrite ?fmap_app, <- ?app_assoc;
  cbn [spec_rewrite_alias spec_rewrite_alias_stmt];
  repeat match goal with
    | Hx : ∀ rest, _ = (_, rest) |- _ => rewrite Hx; clear Hx
    end;
  done.

Ltac use_refines L :=
  match goal with
  | Hx : _ = Ok _ |- _ =>
      apply L in Hx;
      let requests := fresh "requests" in
      let Hres := fresh "Hres" in
      let Hrw := fresh "Hrw" in
      destruct Hx as (requests & Hres & Hrw)
  end.

Lemma split_traverse_refines fuel :
  refines (split_traverse H file fuel (Some alias))
    (spec_alias_requests alias) (spec_rewrite_alias alias) ∧
  refines (split_traverse_stmt H file fuel (Some alias))
    (spec_alias_requests_stmt alias) (spec_rewrite_alias_stmt alias).
Proof.
  induction fuel as [|fuel [IHe IHs]]; [by split|].
  pose proof (refines_mapM _ _ _ IHe) as IHl.
  pose proof (refines_optM _ _ _ IHe) as IHo.
  pose proof (refines_mapM _ _ _ IHo) as IHlo.
  pose proof (refines_mapM _ _ _ IHs) as IHls.
  split.
  - intros e cs e' cs' Hm. destruct e; simpl in Hm; inv_bind.
    + exists []. split; [apply resolved_nil|done].
    + exists []. split; [apply resolved_nil|done].
    + exists []. split; [apply resolved_nil|done].
    + exists []. split; [apply resolved_nil|done].
    + use_refines IHe. use_refines IHe.
      eexists. split; [simpl; solve_resolved|solve_rewritten].
    + rename Ha into Hv. unfold split_CallExpression in Hv.
      case_bool_decide as Halias.
      * destruct arguments as [|argument rest]; [done|].
        change ((argument :: rest) !! 0) with (Some argument) in Hv.
        apply bind_Ok in Hv as (request & cs1 & Hreq & Hv).
        apply bind_Ok in Hv as ([] & cs2 & Hpush & Hv). injection Hv as <- <-.
        apply lift_Ok in Hreq as (st1 & Hc & ->).
        apply callImportRequest_Ok in Hc as (c & Hc & ->).
        unfold push_nested in Hpush. injection Hpush as <-.
        change (<[0:=?x]> (argument :: rest)) with (x :: rest) in Hm.
        apply bind_Ok in Hm as (callee' & cs3 & Hcallee & Hm).
        apply bind_Ok in Hm as (arguments' & cs4 & Hargs & Hm).
        injection Hm as <- <-.
        apply mapM_set_first in Hargs as (l'' & Hargs & ->).
        apply IHe in Hcallee as (requests1 & Hres1 & Hrw1).
        apply IHl in Hargs as (requests2 & Hres2 & Hrw2).
        apply resolved_one in Hc.
        exists ([request] ++ requests1 ++ requests2). split.
        { rewrite spec_alias_requests_call, (is_alias_call_true _ Halias).
          eapply resolved_app; [exact Hc|]. by eapply resolved_app. }
        intros ids. rewrite !fmap_app, <- !app_assoc.
        change (id_string <$> [request]) with [id_string request].
        rewrite <- app_comm_cons, app_nil_l.
        rewrite spec_rewrite_alias_call_alias
          by (done || by apply is_alias_call_true).
        rewrite Hrw1. cbv beta iota zeta. rewrite Hrw2. done.
      * injection Hv as <- <-.
        apply bind_Ok in Hm as (callee' & cs3 & Hcallee & Hm).
        apply bind_Ok in Hm as (arguments' & cs4 & Hargs & Hm).
        injection Hm as <- <-.
        apply IHe in Hcallee as (requests1 & Hres1 & Hrw1).
        apply IHl in Hargs as (requests2 & Hres2 & Hrw2).
        exists (requests1 ++ requests2). split.
        { rewrite spec_alias_requests_call, (is_alias_call_false _ Halias).
          rewrite app_nil_l. by eapply resolved_app. }
        intros ids. rewrite !fmap_app, <- !app_assoc.
        rewrite spec_rewrite_alias_call_other
          by (by apply is_alias_call_false).
        rewrite Hrw1. cbv beta iota zeta. rewrite Hrw2. done.
    + use_refines IHlo.
      eexists. split; [simpl; solve_resolved|solve_rewritten].
    + use_refines IHo. use_refines IHl. use_refines IHls.
      eexists. split; [simpl; solve_resolved|solve_rewritten].
  - intros s cs s' cs' Hm. destruct s; simpl in Hm; inv_bind.
    + use_refines IHe.
      eexists. split; [simpl; solve_resolved|solve_rewritten].
    + use_refines IHe. use_refines IHo.
      eexists. split; [simpl; solve_resolved|solve_rewritten].
    + use_refines IHo.
      eexists. split; [simpl; solve_resolved|solve_rewritten].
    + use_refines IHl. use_refines IHe.
      eexists. split; [simpl; solve_resolved|solve_rewritten].
Qed.

(** *** The nested pass returns when the resolver does *)

Local Abbreviation tracks := (tracks H file).

Lemma resolve_all_not_Timeout raws c :
  resolve_all H (filePath file) raws c ≠ Timeout.
Proof.
  apply mapM_not_Timeout. intros raw c1 _.
  by destruct (getImportRequest H raw (filePath file) c1).
Qed.

Lemma resolve_all_app raws1 raws2 c :
  resolve_all H (filePath file) (raws1 ++ raws2) c
  = match resolve_all H (filePath file) raws1 c with
    | Ok (requests1, c1) =>
        match resolve_all H (filePath file) raws2 c1 with
        | Ok (requests2, c2) => Ok (requests1 ++ requests2, c2)
        | Throw e => Throw e
        | Timeout => Timeout
        end
    | Throw e => Throw e
    | Timeout => Timeout
    end.
Proof.
  unfold resolve_all. revert c.
  induction raws1 as [|raw raws1 IH]; intros c.
  - simpl. unfold ret. by destruct (mapM _ raws2 c) as [[]| |].
  - simpl. unfold bind.
    destruct (getImportRequest H raw (filePath file) c) as [[request c1]|e];
      simpl; [|done].
    rewrite IH.
    destruct (mapM _ raws1 c1) as [[requests1 c2]| |]; [|done..].
    unfold ret. by destruct (mapM _ raws2 c2) as [[requests2 c3]| |].
Qed.

Lemma add_imports_nil (chunk : FileChunk.t) : add_imports chunk [] = chunk.
Proof. destruct chunk. unfold add_imports. simpl. by rewrite app_nil_r. Qed.

Lemma add_imports_app (chunk : FileChunk.t) requests1 requests2 :
  add_imports (add_imports chunk requests1) requests2
  = add_imports chunk (requests1 ++ requests2).
Proof. unfold add_imports. simpl. by rewrite app_assoc. Qed.

Lemma tracks_ret {A} (a : A) cs : tracks (ret a) [] cs.
Proof.
  unfold tracks. simpl. exists a. unfold ret. rewrite add_imports_nil.
  by destruct cs as [chunk []].
Qed.

Lemma tracks_bind {A B} (m : M (FileChunk.t * state H) A)
    (k : A → M (FileChunk.t * state H) B) raws1 raws2 cs :
  tracks m raws1 cs →
  (∀ a cs1, m cs = Ok (a, cs1) → tracks (k a) raws2 cs1) →
  tracks (bind m k) (raws1 ++ raws2) cs.
Proof.
  unfold tracks. rewrite resolve_all_app. intros Hm Hk.
  destruct (resolve_all H _ raws1 _) as [[requests1 c1]|e|] eqn:E1.
  - destruct Hm as (a & Hm). specialize (Hk _ _ Hm). simpl in Hk.
    unfold bind. rewrite Hm.
    destruct (resolve_all H _ raws2 c1) as [[requests2 c2]|e|]; [|done..].
    destruct Hk as (b & ->). exists b. by rewrite add_imports_app.
  - unfold bind. by rewrite Hm.
  - by apply resolve_all_not_Timeout in E1.
Qed.

Lemma tracks_bind_ret {A B} (m : M (FileChunk.t * state H) A) (f : A → B)
    raws cs :
  tracks m raws cs → tracks (bind m (λ a, ret (f a))) raws cs.
Proof.
  intros Hm. rewrite <- (app_nil_r raws).
  apply tracks_bind; [done|]. intros. apply tracks_ret.
Qed.

Lemma tracks_mapM {A B} (f : A → M (FileChunk.t * state H) B)
    (raws : A → list jsval) l :
  (∀ x cs, x ∈ l → tracks (f x) (raws x) cs) →
  ∀ cs, tracks (mapM f l) (mjoin (raws <$> l)) cs.
Proof.
  induction l as [|x l IH]; intros Hf cs; [apply tracks_ret|].
  rewrite fmap_cons. simpl. apply tracks_bind; [apply Hf; left|].
  intros y cs1 _. apply tracks_bind_ret. apply IH.
  intros. apply Hf. by right.
Qed.

Lemma tracks_optM {A} (f : A → M (FileChunk.t * state H) A)
    (raws : A → list jsval) o cs :
  (∀ x, o = Some x → tracks (f x) (raws x) cs) →
  tracks (optM f o) (from_option raws [] o) cs.
Proof.
  intros Hf. destruct o as [x|]; simpl; [|apply tracks_ret].
  by apply tracks_bind_ret, Hf.
Qed.

Lemma spec_alias_requests_set_value a x :
  spec_alias_requests alias (set_value a x) = spec_alias_requests alias a.
Proof. by destruct a. Qed.

Lemma takes_argument_set_value a x :
  takes_argument alias (set_value a x) = takes_argument alias a.
Proof. by destruct a. Qed.

Lemma split_CallExpression_tracks callee argument rest v cs :
  get_name callee = Some alias →
  tracks (split_CallExpression H file (Some alias)
            (CallExpression callee (argument :: rest) v))
    [get_value argument] cs.
Proof.
  intros Halias. unfold tracks, split_CallExpression, resolve_all.
  rewrite bool_decide_eq_true_2 by done.
  change ((argument :: rest) !! 0) with (Some argument). cbv beta iota.
  simpl. unfold bind, lift, callImportRequest, push_nested, ret.
  destruct (getImportRequest H _ _ _) as [[request c]|e]; simpl; [|done].
  by eexists.
Qed.

Lemma split_CallExpression_alias callee argument rest v cs node cs' :
  get_name callee = Some alias →
  split_CallExpression H file (Some alias)
    (CallExpression callee (argument :: rest) v) cs = Ok (node, cs') →
  ∃ x, node = CallExpression callee (set_value argument x :: rest) v.
Proof.
  intros Halias. unfold split_CallExpression.
  rewrite bool_decide_eq_true_2 by done.
  change ((argument :: rest) !! 0) with (Some argument). cbv beta iota.
  intros Hm. inv_bind. by eexists.
Qed.

Lemma split_traverse_tracks fuel :
  (∀ e cs, (expr_depth e ≤ fuel)%nat → takes_argument alias e = true →
     tracks (split_traverse H file fuel (Some alias) e)
       (spec_alias_requests alias e) cs) ∧
  (∀ s cs, (stmt_depth s ≤ fuel)%nat → takes_argument_stmt alias s = true →
     tracks (split_traverse_stmt H file fuel (Some alias) s)
       (spec_alias_requests_stmt alias s) cs).
Proof.
  induction fuel as [|fuel [IHe IHs]].
  { split; intros x ? Hd;
      [pose proof (expr_depth_pos x) | pose proof (stmt_depth_pos x)]; lia. }
  assert (∀ l cs, (max_list (expr_depth <$> l) ≤ fuel)%nat →
    forallb (takes_argument alias) l = true →
    tracks (mapM (split_traverse H file fuel (Some alias)) l)
      (mjoin (spec_alias_requests alias <$> l)) cs) as IHl.
  { intros l cs Hd Ht. apply tracks_mapM. intros x cs1 Hx. apply IHe.
    - etrans; [by apply max_list_elem_of|done].
    - by eapply forallb_elem_of. }
  assert (∀ o cs, (from_option expr_depth 0 o ≤ fuel)%nat →
    from_option (takes_argument alias) true o = true →
    tracks (optM (split_traverse H file fuel (Some alias)) o)
      (from_option (spec_alias_requests alias) [] o) cs) as IHo.
  { intros o cs Hd Ht. apply tracks_optM. intros x ->. by apply IHe. }
  assert (∀ l cs, (max_list (from_option expr_depth 0 <$> l) ≤ fuel)%nat →
    forallb (from_option (takes_argument alias) true) l = true →
    tracks (mapM (optM (split_traverse H file fuel (Some alias))) l)
      (mjoin (from_option (spec_alias_requests alias) [] <$> l)) cs) as IHlo.
  { intros l cs Hd Ht. apply tracks_mapM. intros x cs1 Hx. apply IHo.
    - etrans; [by apply max_list_elem_of|done].
    - by eapply forallb_elem_of. }
  assert (∀ l cs, (max_list (stmt_depth <$> l) ≤ fuel)%nat →
    forallb (takes_argument_stmt alias) l = true →
    tracks (mapM (split_traverse_stmt H file fuel (Some alias)) l)
      (mjoin (spec_alias_requests_stmt alias <$> l)) cs) as IHls.
  { intros l cs Hd Ht. apply tracks_mapM. intros x cs1 Hx. apply IHs.
    - etrans; [by apply max_list_elem_of|done].
    - by eapply forallb_elem_of. }
  split.
  - intros e cs Hd Ht.
    destruct e as [| | | |object property computed v|callee arguments v
                  |elements v|id params body v];
      try exact (tracks_ret _ _).
    + cbn [split_traverse spec_alias_requests]. simpl in Hd, Ht.
      apply andb_prop in Ht as [Ht1 Ht2].
      apply tracks_bind; [apply IHe; [lia|done]|]. intros.
      apply tracks_bind_ret. apply IHe; [lia|done].
    + rewrite spec_alias_requests_call.
      cbn [split_traverse]. simpl in Hd. cbn [takes_argument] in Ht.
      apply andb_prop in Ht as [Ht Ht3]. apply andb_prop in Ht as [Ht1 Ht2].
      destruct (is_alias_call alias callee) eqn:Halias.
      * apply bool_decide_eq_true in Halias.
        destruct arguments as [|argument rest]; [done|].
        apply tracks_bind; [by apply split_CallExpression_tracks|].
        intros node cs1 Hv.
        apply split_CallExpression_alias in Hv as (x & ->); [|done].
        apply tracks_bind; [apply IHe; [lia|done]|]. intros.
        apply tracks_bind_ret.
        replace (mjoin (spec_alias_requests alias <$> argument :: rest))
          with (mjoin (spec_alias_requests alias
                       <$> set_value argument x :: rest))
          by (by rewrite !fmap_cons, spec_alias_requests_set_value).
        apply IHl.
        -- rewrite fmap_cons, set_value_depth.
           rewrite fmap_cons in Hd. lia.
        -- simpl. rewrite takes_argument_set_value. exact Ht3.
      * apply bool_decide_eq_false in Halias.
        apply tracks_bind.
        { unfold split_CallExpression.
          rewrite bool_decide_eq_false_2 by done. apply tracks_ret. }
        intros node cs1 Hv. unfold split_CallExpression in Hv.
        rewrite bool_decide_eq_false_2 in Hv by done.
        injection Hv as <- <-.
        apply tracks_bind; [apply IHe; [lia|done]|]. intros.
        apply tracks_bind_ret. apply IHl; [lia|done].
    + cbn [split_traverse spec_alias_requests]. simpl in Hd, Ht.
      apply tracks_bind_ret. apply IHlo; [lia|done].
    + cbn [split_traverse spec_alias_requests]. simpl in Hd.
      cbn [takes_argument] in Ht.
      apply andb_prop in Ht as [Ht Ht3]. apply andb_prop in Ht as [Ht1 Ht2].
      apply tracks_bind; [apply IHo; [lia|done]|]. intros.
      apply tracks_bind; [apply IHl; [lia|done]|]. intros.
      apply tracks_bind_ret. apply IHls; [lia|done].
  - intros s cs Hd Ht. destruct s;
      cbn [split_traverse_stmt spec_alias_requests_stmt];
      simpl in Hd; cbn [takes_argument_stmt] in Ht.
    + apply tracks_bind_ret. apply IHe; [lia|done].
    + apply andb_prop in Ht as [Ht1 Ht2].
      apply tracks_bind; [apply IHe; [lia|done]|]. intros.
      apply tracks_bind_ret. apply IHo; [lia|done].
    + apply tracks_bind_ret. apply IHo; [lia|done].
    + apply andb_prop in Ht as [Ht1 Ht2].
      apply tracks_bind; [apply IHl; [lia|done]|]. intros.
      apply tracks_bind_ret. apply IHe; [lia|done].
Qed.

(** C4 (amended): the extraction of a call to [require.ensure] whose first
    argument is an array literal (without hole) and whose second argument
    is a function expression with the identifier [alias] as first
    parameter, each call to [alias] in it having an argument, is the
    outcome that [nested_extracted] describes: the nested pass treats
    [alias] as the name of [require] in the callback.  After the entries,
    the first arguments of the calls whose callee is the identifier [alias]
    are resolved in the order of a depth-first walk of the callback, and
    the first error of the resolver is the outcome.  When the resolver
    accepts them all, the extraction returns: the nested imports of the
    one chunk appended are the requests, one per call to [alias]; the
    callback in the tree is the callback with the first argument of each
    such call carrying the string of the identifier of its request, and
    the nested pass has changed nothing else: a call to any other callee is
    as it was, up to the calls to [alias] inside it. *)
Theorem nested_requires_follow_alias
    fuel callee arguments v es v0 id value params body v1 st :
  let callback :=
    FunctionExpression id (Identifier alias value :: params) body v1 in
  arguments !! 0 = Some (ArrayExpression (Some <$> es) v0) →
  arguments !! 1 = Some callback →
  takes_argument alias callback = true →
  expr_depth (CallExpression callee arguments v) ≤ S fuel →
  processSplit H file fuel (CallExpression callee arguments v) st
  = nested_extracted H file alias callee arguments v es v0 callback st.
Proof.
  intros callback Harray Hcallback Htakes Hdepth.
  rewrite (processSplit_extraction _ _ _ _ _ _ es v0) by done.
  unfold chunk_extracted, nested_extracted.
  destruct (spec_chunk_name H arguments (this st)) as [name c0].
  cbn [fst snd].
  destruct (resolve_all H _ (get_value <$> es) c0) as [[entries c1]| |];
    [|done..].
  unfold split_callback. rewrite list_lookup_insert_ne, Hcallback by done.
  unfold callback at 1. cbn [get_name]. fold callback.
  assert (expr_depth callback ≤ fuel)%nat as Hd.
  { simpl in Hdepth.
    pose proof (max_list_lookup expr_depth arguments 1 callback Hcallback).
    lia. }
  pose proof (proj1 (split_traverse_tracks fuel) callback
                (FileChunk.make name entries [], set_this st c1) Hd Htakes)
    as Htracks.
  unfold tracks in Htracks. cbn [fst snd this set_this] in Htracks.
  destruct (resolve_all H _ (spec_alias_requests alias callback) c1)
    as [[nested c2]|e|] eqn:Hres.
  - destruct Htracks as (callback' & Hm). unfold bind. rewrite Hm.
    unfold ret.
    pose proof (proj1 (split_traverse_refines fuel) _ _ _ _ Hm)
      as (requests & (c & Hres' & Heq) & Hrw).
    cbn [fst snd this set_this] in Hres'. rewrite Hres in Hres'.
    injection Hres' as <- <-.
    specialize (Hrw []). rewrite app_nil_r in Hrw. rewrite Hrw.
    done.
  - unfold bind. by rewrite Htracks.
  - by apply resolve_all_not_Timeout in Hres.
Qed.
End Refinement.

(** ** Replacement of names *)

Lemma string_length_app (s1 s2 : string) :
  String.length (s1 +:+ s2) = String.length s1 + String.length s2.
Proof.
  induction s1 as [|a s1 IH]; [done|].
  change (String a s1 +:+ s2) with (String a (s1 +:+ s2)).
  simpl. by rewrite IH.
Qed.

Lemma dotted_name_longer (prefix name : string) :
  prefix +:+ "." +:+ name ≠ name.
Proof.
  intros Heq. apply (f_equal String.length) in Heq.
  rewrite !string_length_app in Heq. simpl in Heq. lia.
Qed.

Section Replacement.
Variable H : Host.
Variable file : File.

Lemma traverse_expr_member fuel scope where_ object property computed v st :
  traverse_expr H file (S fuel) scope where_
    (MemberExpression object property computed v) st
  = bind (visit_replaceable H where_
            (MemberExpression object property computed v))
      (λ replaced,
         match replaced with
         | Some replacement => ret replacement
         | None =>
             bind (traverse_expr H file fuel scope MemberExpression_object
                     object)
               (λ object,
                  bind (traverse_expr H file fuel scope
                          (MemberExpression_property computed) property)
                    (λ property,
                       ret (MemberExpression object property computed v)))
         end) st.
Proof. done. Qed.

Lemma traverse_expr_identifier fuel scope where_ name v st :
  traverse_expr H file (S fuel) scope where_ (Identifier name v) st
  = bind (visit_replaceable H where_ (Identifier name v))
      (λ replaced, ret (default (Identifier name v) replaced)) st.
Proof. done. Qed.

Lemma visit_replaceable_once where_ node source name st :
  replaceVariables H !! getName node = Some source →
  getParsedReplacement H source = inl (Named name) →
  replaceVariables H !! name = None →
  admits where_ (Identifier name VUndefined) = true →
  visit_replaceable H where_ node st
  = Ok (Some (Identifier name VUndefined), st).
Proof.
  intros Htable Hparse Hname Hadmits.
  unfold visit_replaceable, bind at 1, processReplaceable.
  rewrite Htable, Hparse. cbn [replacement_node]. unfold replaceWith at 1.
  assert (match where_ with
          | InList => ret (Some (Identifier name VUndefined))
          | InField parent key admitted =>
              if admits where_ (Identifier name VUndefined)
              then ret (Some (Identifier name VUndefined))
              else throw (TypeError
                            (validation_message parent key admitted
                               (Identifier name VUndefined)))
          end st = Ok (Some (Identifier name VUndefined), st)) as ->.
  { destruct where_; [done|]. by rewrite Hadmits. }
  unfold bind at 1. rewrite revisit_unfold. unfold bind at 1, processReplaceable.
  cbn [getName]. by rewrite Hname.
Qed.

(** With the table that maps ["__DEV__"] to ["false"], an unquoted source
    for which the helper builds the identifier [false], an identifier named
    [__DEV__] is replaced by that identifier wherever an identifier is
    admitted, and an identifier named [__dev__] stays, wherever it is: the
    lookup is by the exact name. *)
Lemma replacement_by_exact_name fuel scope where_ st v :
  replaceVariables H = {[ "__DEV__" := "false" ]} →
  getParsedReplacement H "false" = inl (Named "false") →
  (admits where_ (Identifier "false" VUndefined) = true →
   traverse_expr H file (S fuel) scope where_ (Identifier "__DEV__" v) st
   = Ok (Identifier "false" VUndefined, st))
  ∧ traverse_expr H file (S fuel) scope where_ (Identifier "__dev__" v) st
    = Ok (Identifier "__dev__" v, st).
Proof.
  intros Htable Hparse. split.
  - intros Hadmits. rewrite traverse_expr_identifier. unfold bind.
    rewrite (visit_replaceable_once _ _ "false" "false"); [done|..|done].
    + cbn [getName]. by rewrite Htable, lookup_singleton_eq.
    + done.
    + by rewrite Htable, lookup_singleton_ne.
  - rewrite traverse_expr_identifier. unfold bind.
    rewrite visit_replaceable_unnamed; [done|]. unfold unnamed.
    apply bool_decide_eq_true. cbn [getName].
    by rewrite Htable, lookup_singleton_ne.
Qed.

(** With the same table, the property of [object.__DEV__] is looked up like
    any identifier: the member expression itself, whose flattened name is
    no key of the table, is not replaced, but its property is, and the
    expression becomes [object.false]. *)
Lemma property_named_in_table_is_replaced fuel scope where_ st v object
    object' st' v' :
  replaceVariables H = {[ "__DEV__" := "false" ]} →
  getParsedReplacement H "false" = inl (Named "false") →
  traverse_expr H file (S fuel) scope MemberExpression_object object st
  = Ok (object', st') →
  traverse_expr H file (S (S fuel)) scope where_
    (MemberExpression object (Identifier "__DEV__" v) false v') st
  = Ok (MemberExpression object' (Identifier "false" VUndefined) false v',
        st').
Proof.
  intros Htable Hparse Hobject.
  rewrite traverse_expr_member. unfold bind at 1.
  rewrite visit_replaceable_unnamed.
  2: { unfold unnamed. apply bool_decide_eq_true. cbn [getName].
       rewrite Htable, lookup_singleton_ne; [done|].
       symmetry. apply dotted_name_longer. }
  cbv beta iota. unfold bind at 1. rewrite Hobject. cbv beta iota.
  unfold bind at 1. rewrite traverse_expr_identifier. unfold bind at 1.
  rewrite (visit_replaceable_once _ _ "false" "false"); [done|..|done].
  - cbn [getName]. by rewrite Htable, lookup_singleton_eq.
  - done.
  - by rewrite Htable, lookup_singleton_ne.
Qed.
End Replacement.

(** * Worked examples on the example host *)


Lemma nested_requires_follow_alias_witness :
  processSplit Demo.host (Demo.file "") 5
    (Demo.call Demo.ensure_callee
       [Demo.array [Demo.str "a"];
        Demo.function ["req"]
          [ExpressionStatement
             (Demo.call (Demo.ident "req") [Demo.str "c"]);
           ExpressionStatement
             (Demo.call (Demo.ident "other")
                [Demo.call (Demo.ident "req") [Demo.str "d"]]);
           ExpressionStatement
             (Demo.call (Demo.ident "require") [Demo.str "e"])]])
    (Demo.start Demo.host 0%Z)
  = Ok (Demo.call Demo.ensure_callee
          [Demo.array [Demo.str "2"];
           Demo.function ["req"]
             [ExpressionStatement
                (Demo.call (Demo.ident "req") [Demo.str "3"]);
              ExpressionStatement
                (Demo.call (Demo.ident "other")
                   [Demo.call (Demo.ident "req") [Demo.str "4"]]);
              ExpressionStatement
                (Demo.call (Demo.ident "require") [Demo.str "e"])]],
        Build_state Demo.host
          [FileChunk.make (VString "1")
             [FileImport.make (IdNumber 2) (VString "a") "/app/index.js"]
             [FileImport.make (IdNumber 3) (VString "c") "/app/index.js";
              FileImport.make (IdNumber 4) (VString "d") "/app/index.js"]]
          [] 4%Z).
Proof.
  etrans.
  - apply (nested_requires_follow_alias Demo.host (Demo.file "") "req" 5
             Demo.ensure_callee
             [Demo.array [Demo.str "a"];
              Demo.function ["req"]
                [ExpressionStatement
                   (Demo.call (Demo.ident "req") [Demo.str "c"]);
                 ExpressionStatement
                   (Demo.call (Demo.ident "other")
                      [Demo.call (Demo.ident "req") [Demo.str "d"]]);
                 ExpressionStatement
                   (Demo.call (Demo.ident "require") [Demo.str "e"])]]
             VUndefined [Demo.str "a"] VUndefined None VUndefined []
             [ExpressionStatement
                (Demo.call (Demo.ident "req") [Demo.str "c"]);
              ExpressionStatement
                (Demo.call (Demo.ident "other")
                   [Demo.call (Demo.ident "req") [Demo.str "d"]]);
              ExpressionStatement
                (Demo.call (Demo.ident "require") [Demo.str "e"])]
             VUndefined (Demo.start Demo.host 0%Z)).
    + reflexivity.
    + reflexivity.
    + vm_compute. reflexivity.
    + vm_compute. lia.
  - vm_compute. reflexivity.
Defined.

Lemma rewritten_value_is_id_string_witness :
  ∃ request,
    imports (Build_state Demo.host []
               [FileImport.make (IdNumber 1) (VString "./a") "/app/index.js"]
               1%Z)
    = imports (Demo.start Demo.host 0%Z) ++ [request] ∧
    get_value (Demo.str "1") = VString (toString (FileImport.id request)).
Proof.
  apply (proj1 (rewritten_value_is_id_string Demo.host (Demo.file ""))
           (Demo.str "./a") (Demo.start Demo.host 0%Z)).
  vm_compute. reflexivity.
Defined.

Lemma plain_file_passes_through_witness :
  loader Demo.host (Demo.file "f();") tt 0%Z
  = Ok (Some (Build_LoaderResult Demo.host [] [] "f();" tt), 0%Z).
Proof.
  apply (plain_file_passes_through Demo.host (Demo.file "f();") tt
           [ExpressionStatement (Demo.call (Demo.ident "f") [])] 0%Z).
  - reflexivity.
  - reflexivity.
  - vm_compute. reflexivity.
Defined.

Lemma split_resolves_undefined_witness :
  split_element Demo.strict (Demo.file "") (Some (Demo.ident "x"))
    (FileChunk.make (VString "1") [] [], Demo.start Demo.strict 1%Z)
  = Throw (HostError "request is not a string").
Proof.
  apply (proj1 (split_resolves_undefined Demo.strict (Demo.file ""))
           (Demo.ident "x") VUndefined
           (FileChunk.make (VString "1") [] [], Demo.start Demo.strict 1%Z)).
  reflexivity.
Defined.

(** C6: the code does not leave [foo.__DEV__] alone.  With the table that
    maps ["__DEV__"] to ["false"], the loader on the file [foo.__DEV__;]
    looks the property up as an identifier and replaces it: the code that it
    returns is [foo.false;], the access to another property. *)
Lemma property_access_is_replaced :
  loader Demo.host (Demo.file "foo.__DEV__;") tt 0%Z
  = Ok (Some (Build_LoaderResult Demo.host [] [] "foo.false;" tt), 0%Z).
Proof. vm_compute. reflexivity. Qed.

(** [__DEV__;] and [__dev__;] on the same host: the first becomes [false],
    the second stays. *)
Example free_identifier_replaced :
  traverse Demo.host (Demo.file "")
    [ExpressionStatement (Demo.ident "__DEV__");
     ExpressionStatement (Demo.ident "__dev__")]
    (Demo.start Demo.host 0%Z)
  = Ok ([ExpressionStatement (Demo.ident "false");
         ExpressionStatement (Demo.ident "__dev__")],
        Demo.start Demo.host 0%Z).
Proof. vm_compute. reflexivity. Qed.

(** C7 as stated fails: when the identifier issued for the module ['1'] is
    1, the specifier is still in the code. *)
Lemma specifier_survives_rewriting :
  loader Demo.host (Demo.file "import a from '1';") tt 0%Z
  = Ok (Some (Build_LoaderResult Demo.host []
                [FileImport.make (IdNumber 1) (VString "1") "/app/index.js"]
                "import a from'1';" tt), 1%Z)
  ∧ String.index 0 "'1'" "import a from'1';" = Some 13.
Proof. split; vm_compute; reflexivity. Qed.

(** C9 as stated fails: the output of a run on [require('a');] is
    [require('1');], and a run on that output records an import again and
    changes the code again. *)
Lemma rerun_records_imports :
  loader Demo.host (Demo.file "require('a');") tt 0%Z
  = Ok (Some (Build_LoaderResult Demo.host []
                [FileImport.make (IdNumber 1) (VString "a") "/app/index.js"]
                "require('1');" tt), 1%Z)
  ∧ loader Demo.host (Demo.file "require('1');") tt 1%Z
    = Ok (Some (Build_LoaderResult Demo.host []
                  [FileImport.make (IdNumber 2) (VString "1") "/app/index.js"]
                  "require('2');" tt), 2%Z).
Proof. split; vm_compute; reflexivity. Qed.

(** C10 as stated fails: a call to the alias without argument throws a
    [TypeError]; the resolver, which would have refused [undefined] with its
    own error, is not called. *)
Lemma alias_call_without_argument_throws :
  processSplit Demo.strict (Demo.file "") 4
    (Demo.call Demo.ensure_callee
       [Demo.array [];
        Demo.function ["req"]
          [ExpressionStatement (Demo.call (Demo.ident "req") [])]])
    (Demo.start Demo.strict 0%Z)
  = Throw (TypeError "Cannot read property 'value' of undefined")
  ∧ getImportRequest Demo.strict VUndefined "/app/index.js" 0%Z
    = inr (HostError "request is not a string").
Proof. split; vm_compute; reflexivity. Qed.

(** [(function (require) { require('z'); }); require('z');]: the call in the
    scope of the parameter stays, the call outside is resolved. *)
Example shadowed_require_untouched :
  traverse Demo.host (Demo.file "")
    [ExpressionStatement
       (Demo.function ["require"]
          [ExpressionStatement
             (Demo.call (Demo.ident "require") [Demo.str "z"])]);
     ExpressionStatement (Demo.call (Demo.ident "require") [Demo.str "z"])]
    (Demo.start Demo.host 0%Z)
  = Ok ([ExpressionStatement
           (Demo.function ["require"]
              [ExpressionStatement
                 (Demo.call (Demo.ident "require") [Demo.str "z"])]);
         ExpressionStatement
           (Demo.call (Demo.ident "require") [Demo.str "1"])],
        Build_state Demo.host []
          [FileImport.make (IdNumber 1) (VString "z") "/app/index.js"] 1%Z).
Proof. vm_compute. reflexivity. Qed.

(** C1 as stated fails: in [require.ensure([], function (require) {
    require('c'); });] the call [require('c')] has a string literal as
    first argument and [require] is bound at the call, by the parameter of
    the callback; yet the nested pass of the extraction resolves it: the
    argument is rewritten and the request recorded in the chunk.  (The main
    pass, which reaches the same call afterwards, finds [require] bound and
    leaves it.) *)
Lemma bound_require_is_resolved_in_callback :
  hasBinding
    (function_bindings None [Demo.ident "require"]
       [ExpressionStatement
          (Demo.call (Demo.ident "require") [Demo.str "c"])])
    "require" = true
  ∧ traverse Demo.host (Demo.file "")
      [ExpressionStatement
         (Demo.call Demo.ensure_callee
            [Demo.array [];
             Demo.function ["require"]
               [ExpressionStatement
                  (Demo.call (Demo.ident "require") [Demo.str "c"])]])]
      (Demo.start Demo.host 0%Z)
    = Ok ([ExpressionStatement
             (Demo.call Demo.ensure_callee
                [Demo.array [];
                 Demo.function ["require"]
                   [ExpressionStatement
                      (Demo.call (Demo.ident "require") [Demo.str "2"])]])],
          Build_state Demo.host
            [FileChunk.make (VString "1") []
               [FileImport.make (IdNumber 2) (VString "c") "/app/index.js"]]
            [] 2%Z).
Proof. split; vm_compute; reflexivity. Qed.

(** C2 as stated fails: in [require.ensure([], function (require) {
    require(x); });] the first argument of the call to [require] is no
    string literal; the nested pass of the extraction resolves it all the
    same, with [undefined] as the request: a nested import is recorded and
    the identifier [x] is given a [value].  And in [require.ensure([],
    function (require) { require(); });], where the call has no argument,
    the pass throws. *)
Lemma alias_call_with_identifier_is_resolved :
  traverse Demo.host (Demo.file "")
    [ExpressionStatement
       (Demo.call Demo.ensure_callee
          [Demo.array [];
           Demo.function ["require"]
             [ExpressionStatement
                (Demo.call (Demo.ident "require") [Demo.ident "x"])]])]
    (Demo.start Demo.host 0%Z)
  = Ok ([ExpressionStatement
           (Demo.call Demo.ensure_callee
              [Demo.array [];
               Demo.function ["require"]
                 [ExpressionStatement
                    (Demo.call (Demo.ident "require")
                       [Identifier "x" (VString "2")])]])],
        Build_state Demo.host
          [FileChunk.make (VString "1") []
             [FileImport.make (IdNumber 2) VUndefined "/app/index.js"]]
          [] 2%Z)
  ∧ traverse Demo.host (Demo.file "")
      [ExpressionStatement
         (Demo.call Demo.ensure_callee
            [Demo.array [];
             Demo.function ["require"]
               [ExpressionStatement (Demo.call (Demo.ident "require") [])]])]
      (Demo.start Demo.host 0%Z)
    = Throw (TypeError "Cannot read property 'value' of undefined").
Proof. split; vm_compute; reflexivity. Qed.

(** C4 as stated fails: in [require.ensure([], function (req) { req('c');
    require('d'); });] the call [require('d')] is a call to another name
    than the alias inside the callback, and it is not left unmodified: the
    nested pass leaves it, but the main pass, which walks the callback
    afterwards, resolves it as an import of the file and rewrites its
    argument. *)
Lemma other_call_in_callback_is_rewritten :
  traverse Demo.host (Demo.file "")
    [ExpressionStatement
       (Demo.call Demo.ensure_callee
          [Demo.array [];
           Demo.function ["req"]
             [ExpressionStatement
                (Demo.call (Demo.ident "req") [Demo.str "c"]);
              ExpressionStatement
                (Demo.call (Demo.ident "require") [Demo.str "d"])]])]
    (Demo.start Demo.host 0%Z)
  = Ok ([ExpressionStatement
           (Demo.call Demo.ensure_callee
              [Demo.array [];
               Demo.function ["req"]
                 [ExpressionStatement
                    (Demo.call (Demo.ident "req") [Demo.str "2"]);
                  ExpressionStatement
                    (Demo.call (Demo.ident "require") [Demo.str "3"])]])],
        Build_state Demo.host
          [FileChunk.make (VString "1") []
             [FileImport.make (IdNumber 2) (VString "c") "/app/index.js"]]
          [FileImport.make (IdNumber 3) (VString "d") "/app/index.js"] 3%Z).
Proof. vm_compute. reflexivity. Qed.

(** * Further properties of the loader *)

Section MorePasses.
Variable H : Host.
Variable file : File.

(** *** The eligibility guard *)

(** X1: the loader returns [null] exactly when [shouldProcess] refuses the
    file, and it has then done nothing else: the context is as it was and
    the contents were not parsed, so that a file that is not eligible throws
    no issue even when it does not parse.  On an eligible file the loader
    never returns [null]. *)
Theorem loader_null_iff_not_eligible config c c' :
  loader H file config c = Ok (None, c') ↔
  shouldProcess H (rootDirectory H) (filePath file) config = false ∧ c' = c.
Proof.
  unfold loader.
  destruct (shouldProcess H _ _ _) eqn:Hs; simpl.
  - split; [|by intros [? _]].
    destruct (parse H _ _) as [ast|error]; [|by destruct (loc error)].
    by destruct (traverse _ _ _ _) as [[]| |].
  - split; [by intros [= ->]|by intros [_ ->]].
Qed.

(** *** The arrays only grow *)

Lemma grows_refl (st : state H) : grows st st.
Proof. by split. Qed.

Lemma grows_trans (st1 st2 st3 : state H) :
  grows st1 st2 → grows st2 st3 → grows st1 st3.
Proof. intros [] []. split; by etrans. Qed.

Lemma processSplit_appends fuel node st node' st' :
  processSplit H file fuel node st = Ok (node', st') →
  imports st' = imports st ∧ ∃ chunk, chunks st' = chunks st ++ [chunk].
Proof.
  unfold processSplit. destruct node as [| | | | |callee arguments v| |];
    try done.
  intros Hm. inv_bind. destruct a0 as [arguments' chunk].
  apply with_chunk_Ok in Ha0. simpl in *. inv_bind.
  destruct (split_name_Ok H arguments st) as (name & c0 & Hn & _).
  match goal with
  | Hx : split_name _ _ _ = Ok _ |- _ =>
      rewrite Hn in Hx; injection Hx as <- <-
  end.
  match goal with
  | Hx : split_entries _ _ _ _ = Ok _ |- _ =>
      apply split_entries_Ok in Hx as (es & v0 & requests & c & _ & _ & _ & ->)
  end.
  match goal with
  | Hx : split_callback _ _ _ _ _ = Ok _ |- _ =>
      apply split_callback_frame in Hx as (_ & _ & _ & Hc & Hi)
  end.
  match goal with
  | Hx : push_chunk _ _ _ = Ok _ |- _ =>
      unfold push_chunk in Hx; injection Hx as _ <-
  end.
  simpl in *. split; [done|]. exists chunk. by rewrite Hc.
Qed.

Lemma visit_CallExpression_grows fuel scope node st node' st' :
  visit_CallExpression H file fuel scope node st = Ok (node', st') →
  grows st st'.
Proof.
  unfold visit_CallExpression.
  destruct node as [| | | | |callee arguments v| |];
    try (intros [= <- <-]; apply grows_refl).
  destruct (negb _); [intros [= <- <-]; apply grows_refl|].
  destruct (arguments !! 0%nat) as [parameter|] eqn:E;
    [|intros [= <- <-]; apply grows_refl].
  destruct (negb _); [intros [= <- <-]; apply grows_refl|].
  destruct (_ && _); [intros [= <- <-]; apply grows_refl|].
  destruct (has _ _).
  - intros Hm. apply processSplit_appends in Hm as (Hi & chunk & Hc).
    split; [by rewrite Hi|]. rewrite Hc. by apply prefix_app_r.
  - intros Hm. inv_bind. apply processResolve_Ok in Ha as (? & ? & _ & _ & ->).
    split; simpl; [by apply prefix_app_r|done].
Qed.

Lemma traverse_grows fuel :
  (∀ scope where_ e st e' st',
     traverse_expr H file fuel scope where_ e st = Ok (e', st') →
     grows st st') ∧
  (∀ scope s st s' st',
     traverse_stmt H file fuel scope s st = Ok (s', st') → grows st st').
Proof.
  induction fuel as [|fuel [IHe IHs]]; [by split|].
  assert (∀ scope where_ l st l' st',
    mapM (traverse_expr H file fuel scope where_) l st = Ok (l', st') →
    grows st st') as IHl.
  { intros scope where_ l st l' st'.
    apply (mapM_preserves grows); [apply grows_refl|apply grows_trans|].
    intros x ? y ? _. apply IHe. }
  assert (∀ scope where_ o st o' st',
    optM (traverse_expr H file fuel scope where_) o st = Ok (o', st') →
    grows st st') as IHo.
  { intros scope where_ [x|] st o' st' Hm; simpl in Hm; inv_bind;
      [by eapply IHe|apply grows_refl]. }
  split.
  - intros scope where_ e st e' st' Hm.
    destruct e; simpl in Hm; inv_bind; try apply grows_refl.
    + apply visit_replaceable_state in Ha as ->. apply grows_refl.
    + apply visit_replaceable_state in Ha as ->.
      destruct a as [replacement|]; inv_bind; [apply grows_refl|].
      eapply grows_trans; by eapply IHe.
    + apply visit_CallExpression_grows in Ha.
      eapply grows_trans; [exact Ha|].
      destruct a; inv_bind; try apply grows_refl.
      eapply grows_trans; [by eapply IHe|by eapply IHl].
    + eapply (mapM_preserves grows);
        [apply grows_refl|apply grows_trans| |exact Ha].
      intros x ? y ? _. apply IHo.
    + eapply grows_trans; [by eapply IHo|].
      eapply grows_trans; [by eapply IHl|].
      eapply (mapM_preserves grows);
        [apply grows_refl|apply grows_trans| |done].
      intros x ? y ? _. apply IHs.
  - intros scope s st s' st' Hm. destruct s; simpl in Hm; inv_bind.
    + by eapply IHe.
    + eapply grows_trans; [by eapply IHe|by eapply IHo].
    + by eapply IHo.
    + apply processResolve_Ok in Ha as (? & ? & _ & _ & ->).
      eapply grows_trans; [|eapply grows_trans; [by eapply IHl|by eapply IHe]].
      split; simpl; [by apply prefix_app_r|done].
Qed.

(** X2: a pass only appends to the arrays [imports] and [chunks]: what was
    recorded when the pass started is a prefix of what is recorded when it
    returns; nothing is dropped, replaced or reordered. *)
Theorem pass_only_appends ast st ast' st' :
  traverse H file ast st = Ok (ast', st') →
  imports st `prefix_of` imports st' ∧ chunks st `prefix_of` chunks st'.
Proof.
  unfold traverse.
  apply (mapM_preserves grows); [apply grows_refl|apply grows_trans|].
  intros x ? y ? _. apply traverse_grows.
Qed.

End MorePasses.

(** ** Dependencies in the order of the source *)

Section SourceOrder.
Variable H : Host.
Variable file : File.

Lemma has_CHUNK_false name :
  has RESOLVE_NAMES_CHUNK name = false → name ≠ "require.ensure".
Proof.
  intros Hn Heq. apply has_CHUNK in Heq. congruence.
Qed.

Lemma processResolve_eq node st :
  processResolve H file node st
  = match getImportRequest H (get_value node) (filePath file) (this st) with
    | inl (request, c) =>
        Ok (set_value node (id_string request),
            {| chunks := chunks st; imports := imports st ++ [request];
               this := c |})
    | inr e => Throw e
    end.
Proof.
  unfold processResolve, bind, callImportRequest, push_import, ret.
  by destruct (getImportRequest H _ _ _) as [[request c]|err].
Qed.

Lemma traverse_stmt_import fuel scope specifiers source st :
  traverse_stmt H file (S fuel) scope (ImportDeclaration specifiers source) st
  = bind (processResolve H file source)
      (λ source,
         bind (mapM (traverse_expr H file fuel scope
                       ImportDefaultSpecifier_local) specifiers)
           (λ specifiers,
              bind (traverse_expr H file fuel scope ImportDeclaration_source
                      source)
                (λ source, ret (ImportDeclaration specifiers source)))) st.
Proof. done. Qed.

Lemma traverse_stmt_expression fuel scope expression st :
  traverse_stmt H file (S fuel) scope (ExpressionStatement expression) st
  = bind (traverse_expr H file fuel scope ExpressionStatement_expression
            expression)
      (λ expression, ret (ExpressionStatement expression)) st.
Proof. done. Qed.

Lemma traverse_expr_call fuel scope where_ callee arguments v st :
  traverse_expr H file (S fuel) scope where_
    (CallExpression callee arguments v) st
  = bind (visit_CallExpression H file fuel scope
            (CallExpression callee arguments v))
      (λ node,
         match node with
         | CallExpression callee arguments v =>
             bind (traverse_expr H file fuel scope CallExpression_callee
                     callee)
               (λ callee,
                  bind (mapM (traverse_expr H file fuel scope InList)
                          arguments)
                    (λ arguments, ret (CallExpression callee arguments v)))
         | _ => ret node
         end) st.
Proof. done. Qed.

Lemma traverse_expr_string fuel scope where_ v st :
  traverse_expr H file (S fuel) scope where_ (StringLiteral v) st
  = Ok (StringLiteral v, st).
Proof. done. Qed.

Lemma traverse_locals fuel scope where_ locals st :
  forallb (λ name, bool_decide (replaceVariables H !! name = None)) locals
  = true →
  mapM (traverse_expr H file (S fuel) scope where_)
    ((λ name, Identifier name VUndefined) <$> locals) st
  = Ok ((λ name, Identifier name VUndefined) <$> locals, st).
Proof.
  intros Hl. apply mapM_id. intros x Hx.
  apply list_elem_of_fmap in Hx as (name & -> & Hx).
  rewrite traverse_expr_identifier. unfold bind.
  rewrite visit_replaceable_unnamed; [done|].
  by apply (forallb_elem_of _ _ _ Hl).
Qed.

Lemma traverse_dependency fuel scope d st :
  served H scope d = true →
  stmt_depth (dependency_stmt d (dependency_source d)) ≤ fuel →
  traverse_stmt H file fuel scope (dependency_stmt d (dependency_source d)) st
  = match getImportRequest H (VString (dependency_source d)) (filePath file)
            (this st) with
    | inl (request, c) =>
        Ok (dependency_stmt d (toString (FileImport.id request)),
            {| chunks := chunks st; imports := imports st ++ [request];
               this := c |})
    | inr e => Throw e
    end.
Proof.
  intros Hs Hd. destruct d as [locals source|callee source].
  - cbn [dependency_stmt dependency_source served] in *.
    unfold import_declaration in *. cbn [fst snd] in *.
    destruct fuel as [|[|fuel]]; [simpl in Hd; lia|simpl in Hd; lia|].
    rewrite traverse_stmt_import. unfold bind at 1.
    rewrite processResolve_eq. cbn [get_value set_value].
    destruct (getImportRequest H _ _ _) as [[request c]|err]; [|done].
    unfold bind at 1. rewrite traverse_locals by done. cbv beta iota.
    unfold bind at 1. by rewrite traverse_expr_string.
  - cbn [dependency_stmt dependency_source served] in *.
    pose proof (expr_depth_pos callee).
    destruct fuel as [|[|[|fuel]]]; [simpl in Hd; lia..|].
    repeat (apply andb_prop in Hs as [Hs ?]).
    rewrite traverse_stmt_expression. unfold bind at 1.
    rewrite traverse_expr_call. unfold bind at 1.
    unfold visit_CallExpression. rewrite Hs. cbn [negb].
    change ([StringLiteral (VString source)] !! 0%nat)
      with (Some (StringLiteral (VString source))).
    cbv beta iota.
    apply negb_true_iff in H2, H3. rewrite H2, H3.
    apply has_CHUNK_false in H3.
    rewrite (bool_decide_eq_false_2 _ H3). cbn [type].
    rewrite bool_decide_eq_true_2 by done. cbn [negb].
    unfold bind at 1. rewrite processResolve_eq. cbn [get_value set_value].
    destruct (getImportRequest H _ _ _) as [[request c]|err]; [|done].
    unfold ret at 1. cbv beta iota.
    unfold bind at 1.
    rewrite (proj1 (traverse_plain H file (S fuel)))
      by (done || simpl in Hd; lia).
    done.
Qed.

Lemma traverse_dependencies fuel scope deps :
  ∀ st,
    forallb (served H scope) deps = true →
    max_list (stmt_depth <$> dependency_program deps) ≤ fuel →
    mapM (traverse_stmt H file fuel scope) (dependency_program deps) st
    = recorded_in_order H file (VString ∘ dependency_source <$> deps)
        (zip_with (λ d r, dependency_stmt d (toString (FileImport.id r))) deps)
        st.
Proof.
  unfold recorded_in_order, resolve_all, dependency_program.
  induction deps as [|d deps IH]; intros st Hs Hd.
  - simpl. unfold ret. rewrite app_nil_r. by destruct st.
  - rewrite !fmap_cons in *. simpl in Hs, Hd.
    apply andb_prop in Hs as [Hs1 Hs2].
    cbn [mapM]. unfold bind at 1. rewrite traverse_dependency by (done || lia).
    unfold bind at 2. cbn [compose of_sum].
    destruct (getImportRequest H _ _ _) as [[request c]|err]; [|done].
    cbn [of_sum]. cbv beta iota.
    unfold bind at 1. rewrite IH by (done || lia). cbn [this imports chunks].
    unfold bind at 1.
    destruct (mapM _ _ c) as [[requests c']| |]; [|done..].
    unfold ret. cbn [zip_with]. by rewrite <- app_assoc.
Qed.

(** X3: on a program of statements that each name one dependency, by an
    import declaration or by a call to [require], [require.resolve],
    [module.hot.accept] or [module.hot.decline] with the specifier as its
    argument, where [require] is not bound by the program and no name of
    the program is a key of the replacement table, the pass resolves the
    specifiers one after the other in the order of the source, whatever the
    kinds of the statements.  When every resolution succeeds it records the
    requests as imports in that order and no chunk, and puts the string of
    the identifier of each request in the place of its specifier; otherwise
    it throws the first error of the resolver. *)
Theorem dependencies_in_source_order deps st :
  forallb (served H (dependency_program deps ≫= declared)) deps = true →
  traverse H file (dependency_program deps) st
  = recorded_in_order H file (VString ∘ dependency_source <$> deps)
      (zip_with (λ d r, dependency_stmt d (toString (FileImport.id r))) deps)
      st.
Proof.
  intros Hs. unfold traverse. apply traverse_dependencies; [done|].
  unfold program_depth. lia.
Qed.

End SourceOrder.

(** ** Edges of the chunk extractor *)

Section ChunkEdges.
Variable H : Host.
Variable file : File.

Lemma split_element_eq element cs :
  split_element H file (Some element) cs
  = match getImportRequest H (get_value element) (filePath file)
            (this cs.2) with
    | inl (request, c) =>
        Ok (Some (set_value element (id_string request)),
            (add_entries cs.1 [request], set_this cs.2 c))
    | inr e => Throw e
    end.
Proof.
  unfold split_element, bind, lift, callImportRequest, push_entry, ret.
  by destruct (getImportRequest H _ _ _) as [[request c]|err].
Qed.

Lemma split_elements_hole es rest :
  ∀ cs,
    mapM (split_element H file) ((Some <$> es) ++ None :: rest) cs
    = match resolve_all H (filePath file) (get_value <$> es) (this cs.2) with
      | Ok _ => Throw (TypeError "Cannot read property 'value' of null")
      | Throw e => Throw e
      | Timeout => Timeout
      end.
Proof.
  unfold resolve_all.
  induction es as [|x es IH]; intros cs; [done|].
  rewrite !fmap_cons. cbn [app mapM]. unfold bind at 1 3.
  rewrite split_element_eq.
  destruct (getImportRequest H _ _ _) as [[request c]|err]; simpl; [|done].
  unfold bind. rewrite IH. simpl.
  by destruct (mapM _ (get_value <$> es) c) as [[]| |].
Qed.


(** X5: when the second argument of [require.ensure] is not a function
    expression with a parameter (it is missing, not a function, or a
    function without parameters), the nested pass does not run: the chunk
    that the extraction records has no nested import, and every argument but
    the array is left as it was, the calls in the body of the callback
    included. *)
Theorem callback_without_parameter_is_not_walked fuel callee arguments v st
    node' st' :
  (∀ id param params body v1,
     arguments !! 1 ≠ Some (FunctionExpression id (param :: params) body v1)) →
  processSplit H file fuel (CallExpression callee arguments v) st
  = Ok (node', st') →
  ∃ chunk arguments',
    chunks st' = chunks st ++ [chunk] ∧
    FileChunk.imports chunk = [] ∧
    node' = CallExpression callee arguments' v ∧
    ∀ i, i ≠ 0 → arguments' !! i = arguments !! i.
Proof.
  intros Hno Hm. unfold processSplit in Hm. inv_bind.
  destruct a0 as [arguments' chunk]. apply with_chunk_Ok in Ha0.
  simpl in *. inv_bind.
  destruct (split_name_Ok H arguments st) as (name & c0 & Hn & _).
  match goal with
  | Hx : split_name _ _ _ = Ok _ |- _ =>
      rewrite Hn in Hx; injection Hx as <- <-
  end.
  match goal with
  | Hx : split_entries _ _ _ _ = Ok _ |- _ =>
      apply split_entries_Ok in Hx as (es & v0 & requests & c & _ & _ & -> & ->)
  end.
  match goal with
  | Hx : push_chunk _ _ _ = Ok _ |- _ =>
      unfold push_chunk in Hx; injection Hx as _ <-
  end.
  match goal with
  | Hx : split_callback _ _ _ _ _ = Ok _ |- _ => rename Hx into Hcb
  end.
  unfold split_callback in Hcb.
  rewrite list_lookup_insert_ne in Hcb by done.
  destruct (arguments !! 1) as [[| | | | | | |id [|param params] body v1]|]
    eqn:E; try (by exfalso; eapply Hno).
  all: injection Hcb as <- <- <-; simpl.
  all: eexists _, _; split; [reflexivity|]; split; [reflexivity|].
  all: split; [reflexivity|].
  all: intros i Hi; by rewrite list_lookup_insert_ne.
Qed.

End ChunkEdges.

(** ** Replacement by the table *)

Section Replaced.
Variable H : Host.
Variable file : File.

Lemma replaceWith_admitted where_ node (st : state H) :
  admits where_ node = true →
  replaceWith H where_ node st = Ok (Some node, st).
Proof.
  intros Hadmits. unfold replaceWith. destruct where_; [done|].
  by rewrite Hadmits.
Qed.

Lemma processReplaceable_named where_ node source r st :
  replaceVariables H !! getName node = Some source →
  getParsedReplacement H source = inl r →
  admits where_ (replacement_node r) = true →
  processReplaceable H where_ node st = Ok (Some (replacement_node r), st).
Proof.
  intros Htable Hparse Hadmits. unfold processReplaceable.
  rewrite Htable, Hparse. by apply replaceWith_admitted.
Qed.

Lemma revisit_last budget where_ r st :
  (∀ name, r = Named name → replaceVariables H !! name = None) →
  revisit H budget where_ (replacement_node r) st
  = Ok (replacement_node r, st).
Proof.
  intros Hlast. rewrite revisit_unfold. destruct r as [[]|name]; try done.
  unfold bind, processReplaceable. cbn [replacement_node getName].
  by rewrite (Hlast name).
Qed.

Lemma table_size_pos name source :
  replaceVariables H !! name = Some source →
  ∃ budget, size (replaceVariables H) = S budget.
Proof.
  intros Hl. destruct (size (replaceVariables H)) eqn:Hs; [|by eexists].
  apply map_size_empty_iff in Hs. by rewrite Hs in Hl.
Qed.


Lemma traverse_stmt_variable fuel scope id init st :
  traverse_stmt H file (S fuel) scope (VariableDeclaration id init) st
  = bind (traverse_expr H file fuel scope VariableDeclarator_id id)
      (λ id,
         bind (optM (traverse_expr H file fuel scope VariableDeclarator_init)
                 init)
           (λ init, ret (VariableDeclaration id init))) st.
Proof. done. Qed.

Lemma traverse_expr_function fuel scope where_ id params body v st :
  traverse_expr H file (S fuel) scope where_
    (FunctionExpression id params body v) st
  = (let scope := function_bindings id params body ++ scope in
     bind (optM (traverse_expr H file fuel scope FunctionExpression_id) id)
       (λ id,
          bind (mapM (traverse_expr H file fuel scope InList) params)
            (λ params,
               bind (mapM (traverse_stmt H file fuel scope) body)
                 (λ body, ret (FunctionExpression id params body v))))) st.
Proof. done. Qed.


End Replaced.

Section SplitPoint.
Variable H : Host.
Variable file : File.
Variable alias : string.

Lemma split_traverse_stmt_expression fuel al expression cs :
  split_traverse_stmt H file (S fuel) al (ExpressionStatement expression) cs
  = bind (split_traverse H file fuel al expression)
      (λ expression, ret (ExpressionStatement expression)) cs.
Proof. done. Qed.

Lemma split_traverse_call fuel al callee arguments v cs :
  split_traverse H file (S fuel) al (CallExpression callee arguments v) cs
  = bind (split_CallExpression H file al (CallExpression callee arguments v))
      (λ node,
         match node with
         | CallExpression callee arguments v =>
             bind (split_traverse H file fuel al callee)
               (λ callee,
                  bind (mapM (split_traverse H file fuel al) arguments)
                    (λ arguments, ret (CallExpression callee arguments v)))
         | _ => ret node
         end) cs.
Proof. done. Qed.

Lemma split_traverse_function fuel al id params body v cs :
  split_traverse H file (S fuel) al (FunctionExpression id params body v) cs
  = bind (optM (split_traverse H file fuel al) id)
      (λ id,
         bind (mapM (split_traverse H file fuel al) params)
           (λ params,
              bind (mapM (split_traverse_stmt H file fuel al) body)
                (λ body, ret (FunctionExpression id params body v)))) cs.
Proof. done. Qed.

Lemma split_traverse_leaf fuel al node cs :
  type node = "Identifier" ∨ type node = "StringLiteral" →
  split_traverse H file (S fuel) al node cs = Ok (node, cs).
Proof. by destruct node; intros [|]. Qed.

Lemma split_alias_call_eq al source cs :
  al = Some alias →
  split_CallExpression H file al
    (CallExpression (Identifier alias VUndefined)
       [StringLiteral (VString source)] VUndefined) cs
  = match getImportRequest H (VString source) (filePath file) (this cs.2) with
    | inl (request, c) =>
        Ok (CallExpression (Identifier alias VUndefined)
              [StringLiteral (VString (toString (FileImport.id request)))]
              VUndefined,
            (add_imports cs.1 [request], set_this cs.2 c))
    | inr e => Throw e
    end.
Proof.
  intros ->. unfold split_CallExpression. cbn [get_name].
  rewrite bool_decide_eq_true_2 by done. cbn [lookup list_lookup].
  unfold bind, lift, callImportRequest, push_nested, ret. cbn [get_value].
  by destruct (getImportRequest H _ _ _) as [[request c]|err].
Qed.

Lemma split_traverse_alias_calls fuel nested :
  ∀ chunk s,
    max_list (stmt_depth <$> (alias_call alias <$> nested)) ≤ fuel →
    mapM (split_traverse_stmt H file fuel (Some alias))
      (alias_call alias <$> nested) (chunk, s)
    = match resolve_all H (filePath file) (VString <$> nested) (this s) with
      | Ok (ns, c) =>
          Ok (alias_call alias <$> id_strings ns,
              (add_imports chunk ns, set_this s c))
      | Throw e => Throw e
      | Timeout => Timeout
      end.
Proof.
  unfold resolve_all.
  induction nested as [|source nested IH]; intros chunk s Hd.
  - simpl. unfold ret, add_imports. rewrite app_nil_r, set_this_this.
    by destruct chunk.
  - rewrite !fmap_cons in *. simpl in Hd.
    destruct fuel as [|[|[|fuel]]]; [lia..|].
    cbn [mapM]. unfold bind at 1. unfold alias_call at 1.
    rewrite split_traverse_stmt_expression. unfold bind at 1.
    rewrite split_traverse_call. unfold bind at 1.
    rewrite split_alias_call_eq by done. unfold bind at 4. cbn [of_sum fst snd].
    destruct (getImportRequest H _ _ _) as [[request c]|err]; [|done].
    cbn [of_sum]. cbv beta iota.
    unfold bind at 1. rewrite split_traverse_leaf by (by left).
    cbv beta iota. unfold bind at 1. cbn [mapM]. unfold bind at 1.
    rewrite split_traverse_leaf by (by right). cbv beta iota.
    unfold bind at 1, ret at 1. cbv beta iota. unfold ret at 1.
    cbv beta iota. unfold ret at 1. cbv beta iota.
    unfold ret at 1. cbv beta iota.
    unfold bind at 1. rewrite IH by lia. cbn [this set_this].
    unfold bind at 1.
    destruct (mapM _ _ c) as [[ns c']| |]; [|done..].
    unfold ret, add_imports, id_strings. cbn [FileChunk.name FileChunk.entry
      FileChunk.imports fmap list_fmap]. rewrite <- app_assoc. done.
Qed.

Lemma split_entries_strings entries :
  ∀ chunk s,
    mapM (split_element H file)
      ((λ source, Some (StringLiteral (VString source))) <$> entries)
      (chunk, s)
    = match resolve_all H (filePath file) (VString <$> entries) (this s) with
      | Ok (es, c) =>
          Ok ((λ source, Some (StringLiteral (VString source)))
                <$> id_strings es,
              (add_entries chunk es, set_this s c))
      | Throw e => Throw e
      | Timeout => Timeout
      end.
Proof.
  unfold resolve_all.
  induction entries as [|source entries IH]; intros chunk s.
  - simpl. unfold ret, add_entries. rewrite app_nil_r, set_this_this.
    by destruct chunk.
  - rewrite !fmap_cons. cbn [mapM]. unfold bind at 1.
    rewrite split_element_eq. unfold bind at 2. cbn [of_sum fst snd get_value].
    destruct (getImportRequest H _ _ _) as [[request c]|err]; [|done].
    cbn [of_sum]. cbv beta iota.
    unfold bind at 1. rewrite IH. cbn [this set_this].
    unfold bind at 1.
    destruct (mapM _ _ c) as [[es c']| |]; [|done..].
    unfold ret, add_entries, id_strings. cbn [FileChunk.name FileChunk.entry
      FileChunk.imports fmap list_fmap set_value]. rewrite <- app_assoc. done.
Qed.

Hypothesis alias_unnamed : replaceVariables H !! alias = None.
Hypothesis alias_shadows : alias = "require" ∨ has RESOLVE_NAMES alias = false.

Lemma visit_alias_call fuel scope source st :
  hasBinding scope alias = true →
  visit_CallExpression H file fuel scope
    (CallExpression (Identifier alias VUndefined)
       [StringLiteral (VString source)] VUndefined) st
  = Ok (CallExpression (Identifier alias VUndefined)
          [StringLiteral (VString source)] VUndefined, st).
Proof using alias_shadows.
  intros Hb. unfold visit_CallExpression. cbn [getName].
  destruct alias_shadows as [Heq | Hno]; [|by rewrite Hno].
  rewrite Heq in Hb. rewrite Heq. by rewrite Hb.
Qed.

Lemma traverse_alias_call fuel scope source st :
  hasBinding scope alias = true →
  traverse_stmt H file (S (S (S fuel))) scope (alias_call alias source) st
  = Ok (alias_call alias source, st).
Proof using alias_shadows alias_unnamed.
  intros Hb. unfold alias_call. rewrite traverse_stmt_expression.
  unfold bind at 1. rewrite traverse_expr_call. unfold bind at 1.
  rewrite visit_alias_call by done. cbv beta iota.
  unfold bind at 1. rewrite traverse_expr_identifier. unfold bind at 1.
  rewrite visit_replaceable_unnamed
    by (unfold unnamed; cbn [getName]; by apply bool_decide_eq_true).
  done.
Qed.

Lemma alias_calls_declare_nothing sources :
  (alias_call alias <$> sources) ≫= declared = [].
Proof. induction sources as [|source sources IH]; [done|]. exact IH. Qed.

Lemma traverse_callback fuel scope sources st :
  1 ≤ fuel →
  max_list (stmt_depth <$> (alias_call alias <$> sources)) ≤ fuel →
  traverse_expr H file (S fuel) scope InList
    (FunctionExpression None [Identifier alias VUndefined]
       (alias_call alias <$> sources) VUndefined) st
  = Ok (FunctionExpression None [Identifier alias VUndefined]
          (alias_call alias <$> sources) VUndefined, st).
Proof using alias_shadows alias_unnamed.
  intros Hf1 Hd. rewrite traverse_expr_function. cbv zeta.
  unfold bind at 1. cbn [optM]. unfold ret at 1. cbv beta iota.
  unfold function_bindings. cbn [from_option app].
  rewrite alias_calls_declare_nothing.
  destruct fuel as [|fuel]; [lia|].
  unfold bind at 1. cbn [mapM]. unfold bind at 1.
  rewrite traverse_expr_identifier. unfold bind at 1.
  rewrite visit_replaceable_unnamed
    by (unfold unnamed; cbn [getName]; by apply bool_decide_eq_true).
  cbv beta iota. unfold ret at 1. cbv beta iota.
  unfold bind at 1, ret at 1. cbv beta iota. unfold ret at 1.
  cbv beta iota. unfold bind at 1.
  rewrite mapM_id; [done|].
  intros x Hx. apply list_elem_of_fmap in Hx as (source & -> & Hx).
  assert (3 ≤ S fuel) as Hf.
  { etrans; [|exact Hd].
    apply (max_list_elem_of stmt_depth (alias_call alias <$> sources)
             (alias_call alias source)).
    apply list_elem_of_fmap. eauto. }
  destruct fuel as [|[|fuel]]; [lia..|].
  apply traverse_alias_call. apply bool_decide_eq_true. left.
Qed.

Lemma split_name_eq arguments chunkName st :
  arguments !! 2 = (λ name, StringLiteral (VString name)) <$> chunkName →
  split_name H arguments st
  = Ok match chunkName with
       | Some name => (VString name, st)
       | None =>
           let '(uid, c) := getNextUniqueID H (this st) in
           (VString (toString uid), set_this st c)
       end.
Proof.
  intros Hthird. unfold split_name. rewrite Hthird.
  destruct chunkName as [name|]; [done|]. simpl.
  unfold bind, callNextUniqueID.
  by destruct (getNextUniqueID H (this st)) as [uid c].
Qed.

Lemma processSplit_point fuel callee entries nested chunkName st :
  1 ≤ fuel →
  max_list (stmt_depth <$> (alias_call alias <$> nested)) ≤ fuel →
  processSplit H file (S fuel)
    (ensure_call callee alias entries nested chunkName) st
  = split_point_recorded H file entries nested chunkName
      (λ chunk, ensure_call callee alias
                  (id_strings (FileChunk.entry chunk))
                  (id_strings (FileChunk.imports chunk)) chunkName) st.
Proof.
  intros Hf1 Hd. destruct fuel as [|fuel]; [lia|].
  unfold processSplit, split_point_recorded, split_point_chunk, ensure_call.
  unfold bind at 1.
  rewrite (split_name_eq _ chunkName) by (by destruct chunkName).
  unfold bind at 4.
  assert (∀ name st0,
    bind (with_chunk H (FileChunk.make name [] [])
     (bind
        (split_entries H file
           ([ArrayExpression
               ((λ source, Some (StringLiteral (VString source))) <$> entries)
               VUndefined;
             FunctionExpression None [Identifier alias VUndefined]
               (alias_call alias <$> nested) VUndefined] ++
            from_option (λ name, [StringLiteral (VString name)]) [] chunkName))
        (λ arguments, split_callback H file (S (S fuel)) arguments)))
     (λ r, bind (push_chunk H r.2)
             (λ _, ret (CallExpression callee r.1 VUndefined))) st0
    = match bind (resolve_all H (filePath file) (VString <$> entries))
              (λ es, bind (resolve_all H (filePath file) (VString <$> nested))
                       (λ ns, ret (FileChunk.make name es ns))) (this st0) with
      | Ok (chunk, c) =>
          Ok (CallExpression callee
                ([ArrayExpression
                    ((λ source, Some (StringLiteral (VString source)))
                       <$> id_strings (FileChunk.entry chunk)) VUndefined;
                  FunctionExpression None [Identifier alias VUndefined]
                    (alias_call alias <$> id_strings (FileChunk.imports chunk))
                    VUndefined] ++
                 from_option (λ name, [StringLiteral (VString name)]) []
                   chunkName) VUndefined,
              {| chunks := chunks st0 ++ [chunk]; imports := imports st0;
                 this := c |})
      | Throw e => Throw e
      | Timeout => Timeout
      end) as Hbody.
  { intros name st0. unfold bind at 1, with_chunk, bind at 1, split_entries.
    cbn [app lookup list_lookup]. unfold bind at 1.
    rewrite split_entries_strings. cbn [this snd].
    unfold bind at 2.
    destruct (resolve_all H _ (VString <$> entries) _) as [[es c1]| |];
      [|done..].
    unfold ret at 1. cbv beta iota. unfold split_callback.
    cbn [list_insert insert lookup list_lookup].
    unfold bind at 1. rewrite split_traverse_function.
    unfold bind at 1. cbn [optM]. unfold ret at 1. cbv beta iota.
    cbn [get_name]. unfold bind at 1. cbn [mapM]. unfold bind at 1.
    rewrite split_traverse_leaf by (by left). cbv beta iota.
    unfold bind at 1, ret at 1. cbv beta iota. unfold ret at 1.
    cbv beta iota. unfold bind at 1.
    rewrite split_traverse_alias_calls by done. cbn [this set_this].
    unfold bind at 2.
    destruct (resolve_all H _ (VString <$> nested) _) as [[ns c2]| |];
      [|done..].
    unfold ret at 1. cbv beta iota. unfold ret at 1. cbv beta iota.
    unfold bind at 1, push_chunk. cbv beta iota. unfold ret.
    cbn [fst snd FileChunk.entry FileChunk.imports add_imports add_entries
         FileChunk.name app chunks imports this set_this].
    done. }
  destruct chunkName as [name|];
    [|destruct (getNextUniqueID H (this st)) as [uid c]]; by rewrite Hbody.
Qed.

Lemma traverse_expr_array fuel scope where_ elements v st :
  traverse_expr H file (S fuel) scope where_ (ArrayExpression elements v) st
  = bind (mapM (optM (traverse_expr H file fuel scope InList)) elements)
      (λ elements, ret (ArrayExpression elements v)) st.
Proof. done. Qed.

Lemma traverse_entries fuel scope sources st :
  mapM (optM (traverse_expr H file (S fuel) scope InList))
    ((λ source, Some (StringLiteral (VString source))) <$> sources) st
  = Ok ((λ source, Some (StringLiteral (VString source))) <$> sources, st).
Proof.
  apply mapM_id. intros x Hx. by apply list_elem_of_fmap in Hx as (? & -> & _).
Qed.

Lemma alias_calls_depth (sources : list string) :
  max_list (stmt_depth <$> (alias_call alias <$> sources))
  = if length sources is 0 then 0 else 3.
Proof.
  induction sources as [|source sources IH]; [done|].
  rewrite !fmap_cons. cbn [max_list length]. rewrite IH.
  unfold alias_call. simpl. by destruct (length sources).
Qed.

Lemma split_point_chunk_imports entries nested chunkName c chunk c' :
  split_point_chunk H file entries nested chunkName c = Ok (chunk, c') →
  length (FileChunk.imports chunk) = length nested.
Proof.
  unfold split_point_chunk. intros Hm. inv_bind.
  match goal with
  | Hx : resolve_all _ _ (VString <$> nested) _ = Ok _ |- _ =>
      apply resolve_all_length in Hx; rewrite length_fmap in Hx
  end.
  done.
Qed.

Lemma ensure_call_depth callee entries nested chunkName :
  S (expr_depth callee)
  ≤ expr_depth (ensure_call callee alias entries nested chunkName)
  ∧ S (S (1 `max` max_list (stmt_depth <$> (alias_call alias <$> nested))))
    ≤ expr_depth (ensure_call callee alias entries nested chunkName).
Proof.
  unfold ensure_call. cbn [expr_depth app fmap list_fmap max_list from_option].
  unfold id. lia.
Qed.

Lemma visit_split_point fuel scope callee entries nested chunkName st :
  getName callee = "require.ensure" →
  visit_CallExpression H file fuel scope
    (ensure_call callee alias entries nested chunkName) st
  = processSplit H file fuel
      (ensure_call callee alias entries nested chunkName) st.
Proof.
  intros Hname. unfold visit_CallExpression, ensure_call. rewrite Hname.
  done.
Qed.

Lemma traverse_split_point fuel scope callee entries nested chunkName st :
  getName callee = "require.ensure" →
  plain_expr H callee = true →
  stmt_depth
    (ExpressionStatement (ensure_call callee alias entries nested chunkName))
  ≤ fuel →
  traverse_stmt H file fuel scope
    (ExpressionStatement (ensure_call callee alias entries nested chunkName))
    st
  = split_point_recorded H file entries nested chunkName
      (λ chunk,
         ExpressionStatement
           (ensure_call callee alias (id_strings (FileChunk.entry chunk))
              (id_strings (FileChunk.imports chunk)) chunkName)) st.
Proof using alias_shadows alias_unnamed.
  intros Hname Hplain Hd. cbn [stmt_depth] in Hd.
  destruct (ensure_call_depth callee entries nested chunkName) as [Hc Hb].
  pose proof (expr_depth_pos callee).
  destruct fuel as [|[|[|[|fuel]]]]; [lia..|].
  rewrite traverse_stmt_expression. unfold bind at 1.
  unfold ensure_call at 1. rewrite traverse_expr_call.
  fold (ensure_call callee alias entries nested chunkName).
  unfold bind at 1. rewrite visit_split_point by done.
  rewrite processSplit_point by lia.
  unfold split_point_recorded.
  destruct (split_point_chunk H file entries nested chunkName (this st))
    as [[chunk c]| |] eqn:Hchunk; [|done..].
  apply split_point_chunk_imports in Hchunk.
  pose proof (alias_calls_depth nested) as Hn.
  pose proof (alias_calls_depth (id_strings (FileChunk.imports chunk))) as Hi.
  unfold id_strings in Hi at 2. rewrite length_fmap, Hchunk in Hi.
  unfold ensure_call at 1. cbv beta iota.
  unfold bind at 1.
  rewrite (proj1 (traverse_plain H file (S (S fuel)))) by (done || lia).
  cbv beta iota. unfold bind at 1. cbn [app mapM]. unfold bind at 1.
  rewrite traverse_expr_array. unfold bind at 1.
  rewrite traverse_entries. cbv beta iota. unfold ret at 1. cbv beta iota.
  unfold bind at 1. cbn [mapM]. unfold bind at 1.
  rewrite traverse_callback by lia. cbv beta iota.
  unfold bind at 1.
  assert (∀ st0,
    mapM (traverse_expr H file (S (S fuel)) scope InList)
      (from_option (λ name, [StringLiteral (VString name)]) [] chunkName) st0
    = Ok (from_option (λ name, [StringLiteral (VString name)]) [] chunkName,
          st0)) as ->; [by destruct chunkName|].
  done.
Qed.

(** X8: the two passes compose on a split point whose callback calls its
    parameter.  On [require.ensure([entries], function (alias) {
    alias(nested); ... }, name)], with [alias] either [require] or no
    recognised name, the main pass settles the name of the chunk, resolves
    the entries in order and then the nested sources in order, records one
    chunk with these requests and no import of the file: the main pass,
    which reaches the calls to the alias after the nested pass, does not
    resolve them again.  Each specifier is replaced by the string of the
    identifier of its request; the first error of the resolver is thrown. *)


End SplitPoint.

Section NestedSplitPoint.
Variable H : Host.
Variable file : File.
Variable alias : string.
Hypothesis alias_unnamed : replaceVariables H !! alias = None.
Hypothesis alias_shadows : alias = "require" ∨ has RESOLVE_NAMES alias = false.
Hypothesis callee_plain : plain_expr H require_ensure = true.

Lemma alias_is_not_ensure : alias ≠ "require.ensure".
Proof using alias_shadows.
  intros Heq. destruct alias_shadows as [Ha | Hno].
  - rewrite Heq in Ha. discriminate.
  - rewrite Heq in Hno. by vm_compute in Hno.
Qed.

Lemma split_other_call al callee arguments v cs :
  get_name callee ≠ al →
  split_CallExpression H file al (CallExpression callee arguments v) cs
  = Ok (CallExpression callee arguments v, cs).
Proof.
  intros Hne. unfold split_CallExpression.
  by rewrite bool_decide_eq_false_2.
Qed.

Lemma processSplit_outer fuel source st :
  processSplit H file (S (S (S (S (S (S (S fuel)))))))
    (CallExpression require_ensure
       [ArrayExpression [] VUndefined;
        FunctionExpression None [Identifier alias VUndefined]
          [ExpressionStatement
             (ensure_call require_ensure alias [] [source] None)]
          VUndefined] VUndefined) st
  = let '(uid, c1) := getNextUniqueID H (this st) in
    match getImportRequest H (VString source) (filePath file) c1 with
    | inl (request, c2) =>
        Ok (CallExpression require_ensure
              [ArrayExpression [] VUndefined;
               FunctionExpression None [Identifier alias VUndefined]
                 [ExpressionStatement
                    (ensure_call require_ensure alias []
                       [toString (FileImport.id request)] None)]
                 VUndefined] VUndefined,
            {| chunks :=
                 chunks st ++ [FileChunk.make (VString (toString uid)) []
                                 [request]];
               imports := imports st; this := c2 |})
    | inr e => Throw e
    end.
Proof.
  unfold processSplit. unfold bind at 1.
  rewrite (split_name_eq H _ None) by done.
  destruct (getNextUniqueID H (this st)) as [uid c1].
  unfold bind at 1, with_chunk, bind at 1, split_entries.
  cbn [lookup list_lookup]. unfold bind at 1. cbn [mapM]. unfold ret at 1.
  cbv beta iota. unfold ret at 1. cbv beta iota.
  cbn [list_insert insert]. unfold split_callback.
  cbn [lookup list_lookup get_name]. unfold bind at 1.
  rewrite split_traverse_function. unfold bind at 1. cbn [optM].
  unfold ret at 1. cbv beta iota. unfold bind at 1. cbn [mapM].
  unfold bind at 1. rewrite split_traverse_leaf by (by left).
  cbv beta iota. unfold bind at 1, ret at 1. cbv beta iota.
  unfold ret at 1. cbv beta iota. unfold bind at 1. cbn [mapM].
  unfold bind at 1. rewrite split_traverse_stmt_expression.
  unfold bind at 1. unfold ensure_call at 1. rewrite split_traverse_call.
  unfold bind at 1.
  rewrite split_other_call by done. cbv beta iota.
  unfold bind at 1.
  change (split_traverse H file (S (S (S (S fuel)))) (Some alias)
            require_ensure)
    with (@ret (FileChunk.t * state H) _ require_ensure).
  unfold ret at 1. cbv beta iota. unfold bind at 1.
  cbn [app from_option mapM]. unfold bind at 1.
  change (split_traverse H file (S (S (S (S fuel)))) (Some alias)
            (ArrayExpression _ VUndefined))
    with (@ret (FileChunk.t * state H) _ (ArrayExpression [] VUndefined)).
  unfold ret at 1. cbv beta iota. unfold bind at 1. unfold bind at 1.
  rewrite split_traverse_function. unfold bind at 1. cbn [optM].
  unfold ret at 1. cbv beta iota. unfold bind at 1. cbn [mapM].
  unfold bind at 1. rewrite split_traverse_leaf by (by left).
  cbv beta iota. unfold bind at 1, ret at 1. cbv beta iota.
  unfold ret at 1. cbv beta iota. unfold bind at 1.
  rewrite (split_traverse_alias_calls H file alias (S (S (S fuel))) [source])
    by (rewrite alias_calls_depth; simpl; lia).
  unfold resolve_all. cbn [fmap list_fmap mapM this set_this].
  unfold bind at 1. cbn [of_sum].
  destruct (getImportRequest H _ _ _) as [[request c2]|err]; [|done].
  cbn [of_sum]. cbv beta iota. unfold bind at 1, ret at 1. cbv beta iota.
  unfold ret at 1. cbv beta iota.
  reflexivity.
Qed.

Lemma split_point_single {A} source (rewrite : FileChunk.t → A) st :
  split_point_recorded H file [] [source] None rewrite st
  = let '(uid, c) := getNextUniqueID H (this st) in
    match getImportRequest H (VString source) (filePath file) c with
    | inl (request, c') =>
        Ok (rewrite (FileChunk.make (VString (toString uid)) [] [request]),
            {| chunks :=
                 chunks st ++ [FileChunk.make (VString (toString uid)) []
                                 [request]];
               imports := imports st; this := c' |})
    | inr e => Throw e
    end.
Proof.
  unfold split_point_recorded, split_point_chunk, resolve_all, bind. simpl.
  destruct (getNextUniqueID H (this st)) as [uid c]. unfold bind, ret.
  by destruct (getImportRequest H _ _ c) as [[request c']|err].
Qed.

End NestedSplitPoint.


Section Shadowed.
Variable H : Host.
Variable file : File.

Lemma hasBinding_app scope1 scope2 name :
  hasBinding (scope1 ++ scope2) name
  = hasBinding scope1 name || hasBinding scope2 name.
Proof.
  unfold hasBinding.
  destruct (decide (name ∈ scope1)) as [H1|H1];
    destruct (decide (name ∈ scope2)) as [H2|H2].
  all: rewrite ?(bool_decide_eq_true_2 _ H1), ?(bool_decide_eq_true_2 _ H2),
         ?(bool_decide_eq_false_2 _ H1), ?(bool_decide_eq_false_2 _ H2).
  all: [> apply bool_decide_eq_true_2 | apply bool_decide_eq_true_2
        | apply bool_decide_eq_true_2 | apply bool_decide_eq_false_2];
    rewrite elem_of_app; tauto.
Qed.

Lemma visit_quiet_call fuel scope callee arguments v st :
  negb (has RESOLVE_NAMES (getName callee))
  || hasBinding scope "require" && has RESOLVE_NAMES_SENSITIVE (getName callee)
  = true →
  visit_CallExpression H file fuel scope (CallExpression callee arguments v) st
  = Ok (CallExpression callee arguments v, st).
Proof.
  intros Hq. unfold visit_CallExpression.
  destruct (has RESOLVE_NAMES (getName callee)); [|done]. simpl in *.
  apply andb_prop in Hq as [-> ->].
  destruct (arguments !! 0) as [parameter|]; [|done].
  by destruct (negb _).
Qed.

Lemma traverse_quiet fuel :
  (∀ scope where_ e st,
     quiet_expr H (hasBinding scope "require") e = true →
     expr_depth e ≤ fuel →
     traverse_expr H file fuel scope where_ e st = Ok (e, st)) ∧
  (∀ scope s st,
     quiet_stmt H (hasBinding scope "require") s = true →
     stmt_depth s ≤ fuel →
     traverse_stmt H file fuel scope s st = Ok (s, st)).
Proof.
  induction fuel as [|fuel [IHe IHs]].
  { split; [intros ? ? x ? _ Hd; pose proof (expr_depth_pos x)
           |intros ? x ? _ Hd; pose proof (stmt_depth_pos x)]; lia. }
  assert (∀ scope where_ l st,
    forallb (quiet_expr H (hasBinding scope "require")) l = true →
    max_list (expr_depth <$> l) ≤ fuel →
    mapM (traverse_expr H file fuel scope where_) l st = Ok (l, st)) as IHl.
  { intros scope where_ l st Hp Hd. apply mapM_id. intros x Hx. apply IHe.
    - by eapply forallb_elem_of.
    - etrans; [by apply max_list_elem_of|done]. }
  assert (∀ scope where_ o st,
    from_option (quiet_expr H (hasBinding scope "require")) true o = true →
    from_option expr_depth 0 o ≤ fuel →
    optM (traverse_expr H file fuel scope where_) o st = Ok (o, st)) as IHo.
  { intros scope where_ o st Hp Hd. apply optM_id. intros x ->. by apply IHe. }
  split.
  - intros scope where_ e st Hp Hd.
    destruct e as [name v|v|v|v|object property computed v|callee arguments v
                  |elements v|id params body v].
    + rewrite traverse_expr_identifier. unfold bind.
      by rewrite visit_replaceable_unnamed.
    + done.
    + done.
    + done.
    + cbn [quiet_expr] in Hp. cbn [expr_depth] in Hd.
      apply andb_prop in Hp as [Hp Hp2]. apply andb_prop in Hp as [Hn Hp1].
      rewrite traverse_expr_member. unfold bind.
      rewrite visit_replaceable_unnamed by done. simpl.
      rewrite IHe by (done || lia). by rewrite IHe by (done || lia).
    + cbn [quiet_expr] in Hp. cbn [expr_depth] in Hd.
      apply andb_prop in Hp as [Hp Hp2]. apply andb_prop in Hp as [Hn Hp1].
      rewrite traverse_expr_call. unfold bind.
      rewrite visit_quiet_call by done.
      rewrite IHe by (done || lia). by rewrite IHl by (done || lia).
    + cbn [quiet_expr] in Hp. cbn [expr_depth] in Hd.
      rewrite traverse_expr_array. unfold bind.
      rewrite mapM_id; [done|]. intros o Ho. apply IHo.
      * by eapply forallb_elem_of.
      * etrans; [by apply (max_list_elem_of (from_option expr_depth 0))|lia].
    + cbn [quiet_expr] in Hp. cbn [expr_depth] in Hd. cbv zeta in Hp.
      rewrite orb_comm, <- hasBinding_app in Hp.
      apply andb_prop in Hp as [Hp Hp3]. apply andb_prop in Hp as [Hp1 Hp2].
      rewrite traverse_expr_function. cbv zeta. unfold bind.
      rewrite IHo by (done || lia).
      rewrite IHl by (done || lia). rewrite mapM_id; [done|].
      intros s Hs. apply IHs.
      * by eapply forallb_elem_of.
      * etrans; [by apply (max_list_elem_of stmt_depth)|lia].
  - intros scope s st Hp Hd. destruct s; simpl in Hp, Hd; try done.
    + rewrite traverse_stmt_expression. unfold bind.
      by rewrite IHe by (done || lia).
    + apply andb_prop in Hp as [Hp1 Hp2]. rewrite traverse_stmt_variable.
      unfold bind.
      rewrite IHe by (done || lia). by rewrite IHo by (done || lia).
    + change (traverse_stmt H file (S fuel) scope (ReturnStatement argument) st)
        with (bind (optM (traverse_expr H file fuel scope
                            ReturnStatement_argument) argument)
                (λ argument, ret (ReturnStatement argument)) st).
      unfold bind. by rewrite IHo by (done || lia).
Qed.

(** X10: where [require] is bound, calls to [require] and [require.resolve]
    are not dependencies, at any depth: a program without import
    declaration and without name of the replacement table, whose calls to
    recognised names are all calls to these two in the scope of a binding of
    [require] (by the program or by a function around the call), comes out
    of the pass as it went in, with nothing recorded and the context
    untouched. *)
Theorem shadowed_require_is_left_alone ast st :
  forallb (quiet_stmt H (hasBinding (ast ≫= declared) "require")) ast = true →
  traverse H file ast st = Ok (ast, st).
Proof.
  intros Hq. unfold traverse. apply mapM_id. intros s Hs.
  apply traverse_quiet.
  - by eapply forallb_elem_of.
  - unfold program_depth. pose proof (max_list_elem_of stmt_depth ast s Hs).
    lia.
Qed.

End Shadowed.

(** ** Worked examples *)

Lemma pass_only_appends_witness :
  [Samples.request 1 "z"]
    `prefix_of` [Samples.request 1 "z"; Samples.request 2 "a"]
  ∧ @nil FileChunk.t `prefix_of` [].
Proof.
  apply (pass_only_appends Demo.host (Demo.file "") Demo.require_a
           (Build_state Demo.host [] [Samples.request 1 "z"] 1%Z)
           [ExpressionStatement
              (Demo.call (Demo.ident "require") [Demo.str "2"])]
           (Build_state Demo.host []
              [Samples.request 1 "z"; Samples.request 2 "a"] 2%Z)).
  vm_compute. reflexivity.
Defined.

Lemma dependencies_in_source_order_witness :
  traverse Demo.host (Demo.file "")
    (dependency_program Samples.dependencies) (Demo.start Demo.host 0%Z)
  = Ok ([import_declaration (["a"], "1");
         ExpressionStatement (Demo.call (Demo.ident "require") [Demo.str "2"]);
         ExpressionStatement
           (Demo.call
              (Demo.member (Demo.member (Demo.ident "module") "hot") "accept")
              [Demo.str "3"])],
        Build_state Demo.host []
          [Samples.request 1 "./a"; Samples.request 2 "./b";
           Samples.request 3 "./c"] 3%Z).
Proof.
  etrans.
  - apply (dependencies_in_source_order Demo.host (Demo.file "")
             Samples.dependencies (Demo.start Demo.host 0%Z)).
    vm_compute. reflexivity.
  - vm_compute. reflexivity.
Defined.

Lemma callback_without_parameter_is_not_walked_witness :
  ∃ chunk arguments',
    [FileChunk.make (VString "1") [Samples.request 2 "a"] []]
    = [] ++ [chunk] ∧
    FileChunk.imports chunk = [] ∧
    Demo.call Demo.ensure_callee
      [Demo.array [Demo.str "2"];
       Demo.function []
         [ExpressionStatement
            (Demo.call (Demo.ident "require") [Demo.str "b"])]]
    = CallExpression Demo.ensure_callee arguments' VUndefined ∧
    ∀ i, i ≠ 0 →
         arguments' !! i
         = [Demo.array [Demo.str "a"];
            Demo.function []
              [ExpressionStatement
                 (Demo.call (Demo.ident "require") [Demo.str "b"])]] !! i.
Proof.
  apply (callback_without_parameter_is_not_walked Demo.host (Demo.file "") 4
           Demo.ensure_callee
           [Demo.array [Demo.str "a"];
            Demo.function []
              [ExpressionStatement
                 (Demo.call (Demo.ident "require") [Demo.str "b"])]]
           VUndefined (Demo.start Demo.host 0%Z)
           (Demo.call Demo.ensure_callee
              [Demo.array [Demo.str "2"];
               Demo.function []
                 [ExpressionStatement
                    (Demo.call (Demo.ident "require") [Demo.str "b"])]])
           (Build_state Demo.host
              [FileChunk.make (VString "1") [Samples.request 2 "a"] []]
              [] 2%Z)).
  - intros id param params body v1. simpl. discriminate.
  - vm_compute. reflexivity.
Defined.




Lemma shadowed_require_is_left_alone_witness :
  traverse Demo.host (Demo.file "") Samples.shadowed (Demo.start Demo.host 0%Z)
  = Ok (Samples.shadowed, Demo.start Demo.host 0%Z).
Proof.
  apply (shadowed_require_is_left_alone Demo.host (Demo.file "")
           Samples.shadowed (Demo.start Demo.host 0%Z)).
  vm_compute. reflexivity.
Defined.

(** * The command line *)

Lemma substring_0_length (s1 s2 : string) :
  String.substring 0 (String.length s1) (s1 +:+ s2) = s1.
Proof.
  induction s1 as [|a s1 IH]; simpl.
  - by destruct s2.
  - by rewrite IH.
Qed.

Lemma substring_0_0 (s : string) : String.substring 0 0 s = "".
Proof. by destruct s. Qed.

Lemma substring_skip (s1 s2 : string) n :
  String.substring (String.length s1) n (s1 +:+ s2) = String.substring 0 n s2.
Proof. induction s1 as [|a s1 IH]; simpl; [done|]. exact IH. Qed.

Lemma substring_all (s : string) :
  String.substring 0 (String.length s) s = s.
Proof. induction s as [|a s IH]; simpl; [done|]. by rewrite IH. Qed.

Lemma string_app_nil_r (s : string) : s +:+ "" = s.
Proof.
  induction s as [|a s IH]; [done|].
  change (String a s +:+ "") with (String a (s +:+ "")). by rewrite IH.
Qed.

Lemma string_app_inj_r (s1 s2 e : string) : s1 +:+ e = s2 +:+ e → s1 = s2.
Proof.
  revert s2. induction s1 as [|a s1 IH]; intros [|b s2] Heq.
  - done.
  - apply (f_equal String.length) in Heq.
    rewrite !string_length_app in Heq. simpl in Heq. lia.
  - apply (f_equal String.length) in Heq.
    rewrite !string_length_app in Heq. simpl in Heq. lia.
  - injection Heq as -> Heq. f_equal. by apply IH.
Qed.

Lemma slice_from_start (s : string) (n : nat) :
  CLI.slice s 0 (-1 * Z.of_nat n)
  = String.substring 0 (if n is 0 then 0 else String.length s - n) s.
Proof.
  unfold CLI.slice. cbv zeta.
  change (0 <? 0)%Z with false. cbv iota.
  replace (Z.to_nat (0 `min` Z.of_nat (String.length s))%Z) with 0 by lia.
  f_equal. destruct (Z.ltb_spec (-1 * Z.of_nat n) 0); destruct n; lia.
Qed.

Lemma slice_drops_suffix (stem ext : string) :
  ext ≠ "" →
  CLI.slice (stem +:+ ext) 0 (-1 * Z.of_nat (String.length ext)) = stem.
Proof.
  intros Hext. rewrite slice_from_start, string_length_app.
  destruct ext as [|a ext]; [done|]. cbn [String.length].
  replace (String.length stem + S (String.length ext) - S (String.length ext))
    with (String.length stem) by lia.
  apply substring_0_length.
Qed.

Lemma slice_empty_suffix (path : string) :
  CLI.slice path 0 (-1 * Z.of_nat (String.length "")) = "".
Proof. rewrite slice_from_start. apply substring_0_0. Qed.

Section Written.
Variable P : CLI.Platform.
Variable config_sourceMap : bool.
Variable config_sourceMapPath : string.
Variables outputDirectory outputFilePath outputSourceMapPath : string.

(** X11: when the path of the bundle has an extension, the file of a chunk
    is that path with a dot and the label of the chunk in front of the
    extension: the directory and the base name are kept. *)
Theorem label_goes_before_extension stem ext output :
  outputFilePath = stem +:+ ext →
  CLI.extname P outputFilePath = ext →
  ext ≠ "" →
  CLI.currentFilePath P outputFilePath output
  = stem +:+ "." +:+ CLI.getIdOrLabel output +:+ ext.
Proof.
  intros -> Hext Hne. unfold CLI.currentFilePath, CLI.outputFilePathExt.
  rewrite Hext. unfold CLI.labelled. by rewrite slice_drops_suffix.
Qed.

(** X12: when the path of the bundle has no extension, [slice(0, -0)] is
    the empty string: the file of a chunk is a dot and the label of the
    chunk, and the directory and the base name are lost. *)
Theorem path_without_extension_is_dropped output :
  CLI.extname P outputFilePath = "" →
  CLI.currentFilePath P outputFilePath output
  = "." +:+ CLI.getIdOrLabel output.
Proof.
  intros Hext. unfold CLI.currentFilePath, CLI.outputFilePathExt.
  rewrite Hext. unfold CLI.labelled. rewrite slice_empty_suffix.
  by rewrite string_app_nil_r.
Qed.

Lemma labelled_inj path ext label1 label2 :
  CLI.labelled path ext label1 = CLI.labelled path ext label2 →
  label1 = label2.
Proof.
  unfold CLI.labelled. intros Heq.
  apply (inj (String.app _)) in Heq. apply (inj (String.app _)) in Heq.
  by apply string_app_inj_r in Heq.
Qed.

(** X13: outputs with distinct labels are written to distinct files, and
    their source maps as well: within a run no bundle overwrites another
    bundle and no map another map. *)
Theorem distinct_labels_distinct_files outputs :
  NoDup (CLI.getIdOrLabel <$> outputs) →
  NoDup (CLI.currentFilePath P outputFilePath <$> outputs)
  ∧ NoDup (CLI.currentSourceMapPath P outputSourceMapPath <$> outputs).
Proof.
  intros Hnd.
  assert (∀ path ext, Inj (=) (=) (CLI.labelled path ext)) as Hinj.
  { intros path ext l1 l2. apply labelled_inj. }
  split.
  - change (CLI.currentFilePath P outputFilePath)
      with (CLI.labelled outputFilePath (CLI.outputFilePathExt P outputFilePath)
            ∘ CLI.getIdOrLabel (P:=P)).
    rewrite list_fmap_compose. by apply (NoDup_fmap_2 _).
  - change (CLI.currentSourceMapPath P outputSourceMapPath)
      with (CLI.labelled outputSourceMapPath
              (CLI.outputSourceMapPathExt P outputSourceMapPath)
            ∘ CLI.getIdOrLabel (P:=P)).
    rewrite list_fmap_compose. by apply (NoDup_fmap_2 _).
Qed.

(** X14: a source map path that ends in [.js.map] keeps both extensions
    behind the label, whatever [Path.extname] says of it. *)
Theorem js_map_extension_is_kept stem output :
  outputSourceMapPath = stem +:+ ".js.map" →
  CLI.currentSourceMapPath P outputSourceMapPath output
  = stem +:+ "." +:+ CLI.getIdOrLabel output +:+ ".js.map".
Proof.
  intros ->. unfold CLI.currentSourceMapPath, CLI.outputSourceMapPathExt.
  assert (CLI.endsWith (stem +:+ ".js.map") ".js.map" = true) as ->.
  { unfold CLI.endsWith. rewrite string_length_app.
    apply andb_true_intro. split; [apply Nat.leb_le; lia|].
    apply bool_decide_eq_true.
    replace (String.length stem + String.length ".js.map"
             - String.length ".js.map") with (String.length stem) by lia.
    rewrite substring_skip. apply substring_all. }
  unfold CLI.labelled. by rewrite slice_drops_suffix.
Qed.

(** X15: when source maps are off, or their path is [inline], one file is
    written per output, in the order of the outputs, and it holds the
    contents of the output as generated: no map is written and no
    [sourceMappingURL] line is appended. *)
Theorem without_source_map_one_file_each outputs :
  config_sourceMap = false ∨ config_sourceMapPath = "inline" →
  CLI.write_outputs P config_sourceMap config_sourceMapPath outputDirectory
    outputFilePath outputSourceMapPath outputs
  = (λ output, (CLI.currentFilePath P outputFilePath output,
                CLI.contents output)) <$> outputs.
Proof.
  intros Hoff.
  assert (CLI.writeSourceMap config_sourceMap config_sourceMapPath = false)
    as Hw.
  { unfold CLI.writeSourceMap. destruct Hoff as [-> | ->]; [done|].
    rewrite bool_decide_eq_true_2 by done. apply andb_false_r. }
  unfold CLI.write_outputs. induction outputs as [|output outputs IH]; [done|].
  rewrite fmap_cons, bind_cons, IH. unfold CLI.write_output. by rewrite Hw.
Qed.

End Written.

Lemma killPundle_when_dead n p :
  CLI.pundleIsAlive p = false →
  Nat.iter n CLI.killPundle p
  = {| CLI.pundleIsAlive := false; CLI.disposals := CLI.disposals p;
       CLI.exits := n + CLI.exits p |}.
Proof.
  intros Hp. induction n as [|n IH]; [by destruct p; simplify_eq/=|].
  rewrite Nat.iter_succ, IH. done.
Qed.

(** X16: however often [killPundle] runs (an interrupt, then the exit of
    the process), the subscriptions are disposed of once; each run asks the
    process to exit. *)
Theorem dispose_runs_once n :
  CLI.disposals (Nat.iter (S n) CLI.killPundle CLI.started) = 1
  ∧ CLI.exits (Nat.iter (S n) CLI.killPundle CLI.started) = S n.
Proof.
  rewrite Nat.iter_succ_r. rewrite killPundle_when_dead by done.
  simpl. split; [done|lia].
Qed.

Lemma label_goes_before_extension_witness :
  CLI.currentFilePath CLI.node "/app/dist/bundle.js"
    (CLI.output "main" "x")
  = "/app/dist/bundle.main.js".
Proof.
  apply (label_goes_before_extension CLI.node "/app/dist/bundle.js"
           "/app/dist/bundle" ".js"); [reflexivity|reflexivity|discriminate].
Defined.

Lemma path_without_extension_is_dropped_witness :
  CLI.currentFilePath CLI.node "/app/dist/bundle"
    (CLI.output "main" "x")
  = ".main".
Proof.
  apply (path_without_extension_is_dropped CLI.node "/app/dist/bundle").
  reflexivity.
Defined.

Lemma js_map_extension_is_kept_witness :
  CLI.currentSourceMapPath CLI.node "/app/dist/bundle.js.map"
    (CLI.output "main" "x")
  = "/app/dist/bundle.main.js.map".
Proof.
  apply (js_map_extension_is_kept CLI.node "/app/dist/bundle.js.map"
           "/app/dist/bundle"). reflexivity.
Defined.

Lemma distinct_labels_distinct_files_witness :
  NoDup ["/app/dist/bundle.main.js"; "/app/dist/bundle.admin.js"]
  ∧ NoDup ["/app/dist/bundle.main.js.map"; "/app/dist/bundle.admin.js.map"].
Proof.
  apply (distinct_labels_distinct_files CLI.node "/app/dist/bundle.js"
           "/app/dist/bundle.js.map"
           [ (CLI.output "main" "x");
             (CLI.output "admin" "y") ]).
  apply (bool_decide_unpack _). vm_compute. exact I.
Defined.

Lemma without_source_map_one_file_each_witness :
  CLI.write_outputs CLI.node true "inline" "/app/dist" "/app/dist/bundle.js"
    "/app/dist/inline"
    [ (CLI.output "main" "x") ]
  = [("/app/dist/bundle.main.js", "x")].
Proof.
  apply (without_source_map_one_file_each CLI.node true "inline" "/app/dist"
           "/app/dist/bundle.js" "/app/dist/inline").
  right. reflexivity.
Defined.
